(** * The Home Connect API client (HomeConnectAPI): authorisation record,
      rate limiting, scope checks, request classification and the events
      stream, embedded from the JavaScript source and verified against the
      specification.

    Layout: [JS] models the JavaScript data the client computes with,
    [JSON] the runtime's JSON.parse, [Patterns] the regular expressions the
    source uses, [HomeConnectAPI] the methods of the class, [Interleaving]
    a turn of its retry loop among other calls, [StreamTable] its table of
    abort functions, [Facade] its operations on appliances, and
    [ConfigSchema] the scheduling of the schema file's write.  The
    theorems follow the definitions. *)

From Stdlib Require Import ZArith NArith List String Ascii Bool Lia
  Permutation.
From stdpp Require Import base option gmap.
Import ListNotations.

Set Warnings "-register-all".
Local Open Scope Z_scope.

(* ===================================================================== *)
(** ** JavaScript data *)
(* ===================================================================== *)

Module JS.

(** A JavaScript string is a sequence of 16-bit code units. *)
Definition jsstring := list N.

(** The code units of an ASCII literal of the source. *)
Definition lit (s : string) : jsstring :=
  map N_of_ascii (list_ascii_of_string s).
Arguments lit s%_string.

Fixpoint str_eqb (a b : jsstring) : bool :=
  match a, b with
  | [], [] => true
  | x :: a', y :: b' => N.eqb x y && str_eqb a' b'
  | _, _ => false
  end.

(** Numbers.  The client computes with millisecond timestamps and whole
    seconds, so the arithmetic is modelled on the integers, with [NaN] for
    what JavaScript's arithmetic gives on [undefined] or non-numeric
    operands.  Fractional and infinite values are outside this model. *)
Inductive num :=
| NaN
| Num (z : Z).

Definition num_add (a b : num) : num :=
  match a, b with
  | Num x, Num y => Num (x + y)
  | _, _ => NaN
  end.

Definition num_sub (a b : num) : num :=
  match a, b with
  | Num x, Num y => Num (x - y)
  | _, _ => NaN
  end.

Definition num_mul (a b : num) : num :=
  match a, b with
  | Num x, Num y => Num (x * y)
  | _, _ => NaN
  end.

(** [a < b]: false as soon as one side is NaN. *)
Definition num_lt (a b : num) : bool :=
  match a, b with
  | Num x, Num y => x <? y
  | _, _ => false
  end.

(** Values, as JSON.parse builds them and as the request library hands
    them over.  A number literal is kept as the decimal [m * 10^e] it
    denotes.  An object is its list of own properties; the order in which
    JavaScript enumerates them is not modelled (the source only counts
    them).  Objects are taken to have no property named toString or valueOf
    of their own: converting such an object to a string or a number raises
    a TypeError, which the conversions below do not model. *)
Inductive value :=
| Undefined
| Null
| Boolean (b : bool)
| Number (m e : Z)
| Str (s : jsstring)
| Arr (items : list value)
| Obj (props : list (jsstring * value)).

(** ToBoolean. *)
Definition truthy (v : value) : bool :=
  match v with
  | Undefined | Null => false
  | Boolean b => b
  | Number m _ => negb (m =? 0)
  | Str s => match s with [] => false | _ => true end
  | Arr _ | Obj _ => true
  end.

Fixpoint lookup_prop (k : jsstring) (props : list (jsstring * value))
  : option value :=
  match props with
  | [] => None
  | (k', v) :: rest => if str_eqb k k' then Some v else lookup_prop k rest
  end.

(** [obj[k] = v]: overwrite the property where it is, or add it. *)
Fixpoint set_prop (k : jsstring) (v : value) (props : list (jsstring * value))
  : list (jsstring * value) :=
  match props with
  | [] => [(k, v)]
  | (k', v') :: rest =>
      if str_eqb k k' then (k', v) :: rest else (k', v') :: set_prop k v rest
  end.

(** [v.k] for the property names the source reads from response bodies
    (error, error_description, key, ...): an own property of an object,
    [undefined] otherwise (no prototype defines these names).  The source
    guards every such read with [v && ...], so [v] is never null or
    undefined where this is used. *)
Definition get (v : value) (k : jsstring) : value :=
  match v with
  | Obj props => match lookup_prop k props with Some x => x | None => Undefined end
  | _ => Undefined
  end.

(** [v === 'literal']. *)
Definition strict_eq_str (v : value) (s : jsstring) : bool :=
  match v with
  | Str t => str_eqb t s
  | _ => false
  end.

(** [v == 'literal'] for a literal that is not numeric, has no comma and is
    not "[object Object]", "true", "false", "null" or "undefined": a string
    equal to it, or an array that prints as it, that is a one-element array
    whose element does. *)
Fixpoint loose_eq_str (v : value) (s : jsstring) : bool :=
  match v with
  | Str t => str_eqb t s
  | Arr [x] =>
      match x with
      | Str _ | Arr _ => loose_eq_str x s
      | _ => false
      end
  | _ => false
  end.

(** White space as [\s] and the numeric conversion of strings see it:
    tab, line feed, vertical tab, form feed, carriage return, space,
    no-break space, the Unicode space separators, the line and paragraph
    separators and the byte order mark. *)
Definition is_space (c : N) : bool :=
  ((9 <=? c) && (c <=? 13) || (c =? 32) || (c =? 160) || (c =? 5760)
   || (8192 <=? c) && (c <=? 8202) || (c =? 8232) || (c =? 8233)
   || (c =? 8239) || (c =? 8287) || (c =? 12288) || (c =? 65279))%N.

(** Line terminators: the characters [.] does not match. *)
Definition is_line_terminator (c : N) : bool :=
  ((c =? 10) || (c =? 13) || (c =? 8232) || (c =? 8233))%N.

Definition is_decimal_digit (c : N) : bool := ((48 <=? c) && (c <=? 57))%N.

Fixpoint drop_space (s : jsstring) : jsstring :=
  match s with
  | c :: r => if is_space c then drop_space r else s
  | [] => []
  end.

Definition trim (s : jsstring) : jsstring :=
  rev (drop_space (rev (drop_space s))).

Fixpoint decimal (acc : Z) (s : jsstring) : num :=
  match s with
  | [] => Num acc
  | c :: r =>
      if is_decimal_digit c then decimal (acc * 10 + Z.of_N (c - 48)) r
      else NaN
  end.

(** ToNumber of a string: 0 for an empty or blank one, the integer for
    decimal digits with an optional sign, white space allowed around.  The
    other numeric spellings (fractions, exponents, hexadecimal, Infinity)
    denote numbers outside the integer model and read as NaN here. *)
Definition string_to_number (s : jsstring) : num :=
  match trim s with
  | [] => Num 0
  | c :: r =>
      if (c =? 45)%N then
        match r with
        | [] => NaN
        | _ => num_mul (Num (-1)) (decimal 0 r)
        end
      else if (c =? 43)%N then
        match r with
        | [] => NaN
        | _ => decimal 0 r
        end
      else decimal 0 (c :: r)
  end.

(** ToNumber, as the arithmetic operators apply it to an operand.  A
    decimal [m * 10^e] that is not an integer is outside the model. *)
Fixpoint to_number (v : value) : num :=
  match v with
  | Undefined => NaN
  | Null => Num 0
  | Boolean b => Num (if b then 1 else 0)
  | Number m e =>
      if 0 <=? e then Num (m * 10 ^ e)
      else if m mod 10 ^ (- e) =? 0 then Num (m / 10 ^ (- e))
      else NaN
  | Str s => string_to_number s
  | Arr [] => Num 0
  | Arr [x] =>
      match x with
      | Undefined | Null => Num 0
      | Number _ _ | Str _ | Arr _ => to_number x
      | Boolean _ | Obj _ => NaN
      end
  | Arr _ => NaN
  | Obj _ => NaN
  end.

End JS.

(* ===================================================================== *)
(** ** JSON.parse *)
(* ===================================================================== *)

Module JSON.
Import JS.

Local Open Scope N_scope.

(** The code unit of an ASCII character. *)
Definition ch (a : ascii) : N := N_of_ascii a.
Arguments ch a%_char.

Inductive result (A : Type) :=
| Ok (a : A) (rest : jsstring)
| SyntaxError
| OutOfFuel.
Arguments Ok {A} a rest.
Arguments SyntaxError {A}.
Arguments OutOfFuel {A}.

(** JSON white space: tab, line feed, carriage return, space. *)
Definition is_ws (c : N) : bool :=
  (c =? 9) || (c =? 10) || (c =? 13) || (c =? 32).

Fixpoint skip_ws (s : jsstring) : jsstring :=
  match s with
  | c :: r => if is_ws c then skip_ws r else s
  | [] => []
  end.

Definition is_digit (c : N) : bool := (ch "0" <=? c) && (c <=? ch "9").

Definition hex_digit (c : N) : option N :=
  if is_digit c then Some (c - ch "0")
  else if (ch "a" <=? c) && (c <=? ch "f") then Some (c - ch "a" + 10)
  else if (ch "A" <=? c) && (c <=? ch "F") then Some (c - ch "A" + 10)
  else None.

(** The double quote character. *)
Definition quote : N := 34.

(** The character a one-letter escape stands for. *)
Definition unescape (c : N) : option N :=
  if c =? quote then Some quote
  else if c =? ch "\" then Some (ch "\")
  else if c =? ch "/" then Some (ch "/")
  else if c =? ch "b" then Some 8
  else if c =? ch "f" then Some 12
  else if c =? ch "n" then Some 10
  else if c =? ch "r" then Some 13
  else if c =? ch "t" then Some 9
  else None.

Definition push (c : N) (r : option (jsstring * jsstring))
  : option (jsstring * jsstring) :=
  match r with
  | Some (str, rest) => Some (c :: str, rest)
  | None => None
  end.

(** The characters of a string literal, after its opening quote, up to and
    including the closing quote. *)
Fixpoint parse_chars (s : jsstring) : option (jsstring * jsstring) :=
  match s with
  | [] => None
  | c :: r =>
      if c =? quote then Some ([], r)
      else if c =? ch "\" then
        match r with
        | [] => None
        | e :: r1 =>
            if e =? ch "u" then
              match r1 with
              | h1 :: h2 :: h3 :: h4 :: r2 =>
                  match hex_digit h1, hex_digit h2, hex_digit h3, hex_digit h4 with
                  | Some a, Some b, Some c', Some d =>
                      push (((a * 16 + b) * 16 + c') * 16 + d) (parse_chars r2)
                  | _, _, _, _ => None
                  end
              | _ => None
              end
            else
              match unescape e with
              | Some x => push x (parse_chars r1)
              | None => None
              end
        end
      else if c <? 32 then None
      else push c (parse_chars r)
  end.

(** The longest run of decimal digits at the head of [s]. *)
Fixpoint digits (s : jsstring) : jsstring * jsstring :=
  match s with
  | c :: r =>
      if is_digit c then let (ds, rest) := digits r in (c :: ds, rest)
      else ([], s)
  | [] => ([], [])
  end.

Fixpoint digits_val (acc : Z) (ds : jsstring) : Z :=
  match ds with
  | [] => acc
  | d :: r => digits_val (acc * 10 + Z.of_N (d - ch "0"))%Z r
  end.

(** The integer part of a number: a lone 0, or a run starting 1-9. *)
Definition parse_int (s : jsstring) : option (jsstring * jsstring) :=
  match s with
  | c :: r =>
      if c =? ch "0" then Some ([c], r)
      else if is_digit c then Some (digits s)
      else None
  | [] => None
  end.

Definition parse_frac (s : jsstring) : option (jsstring * jsstring) :=
  match s with
  | c :: r =>
      if c =? ch "." then
        match digits r with
        | ([], _) => None
        | (fs, rest) => Some (fs, rest)
        end
      else Some ([], s)
  | [] => Some ([], s)
  end.

Definition parse_exp (s : jsstring) : option (Z * jsstring) :=
  match s with
  | c :: r =>
      if (c =? ch "e") || (c =? ch "E") then
        let '(neg, r1) :=
          match r with
          | sg :: r' =>
              if sg =? ch "-" then (true, r')
              else if sg =? ch "+" then (false, r')
              else (false, r)
          | [] => (false, r)
          end in
        match digits r1 with
        | ([], _) => None
        | (es, rest) =>
            let e := digits_val 0 es in
            Some (if neg then (- e)%Z else e, rest)
        end
      else Some (0%Z, s)
  | [] => Some (0%Z, s)
  end.

Definition parse_number (s : jsstring) : result value :=
  let '(neg, s1) :=
    match s with
    | c :: r => if c =? ch "-" then (true, r) else (false, s)
    | [] => (false, s)
    end in
  match parse_int s1 with
  | None => SyntaxError
  | Some (ip, s2) =>
      match parse_frac s2 with
      | None => SyntaxError
      | Some (fs, s3) =>
          match parse_exp s3 with
          | None => SyntaxError
          | Some (e, s4) =>
              let m := digits_val 0 (ip ++ fs) in
              Ok (Number (if neg then (- m)%Z else m)
                         (e - Z.of_nat (length fs))%Z) s4
          end
      end
  end.

(** [s] with the prefix [p] removed, when it starts with it. *)
Fixpoint strip_prefix (p s : jsstring) : option jsstring :=
  match p, s with
  | [], _ => Some s
  | a :: p', b :: s' => if a =? b then strip_prefix p' s' else None
  | _ :: _, [] => None
  end.

Definition parse_keyword (s : jsstring) : result value :=
  match strip_prefix (lit "true") s with
  | Some r => Ok (Boolean true) r
  | None =>
  match strip_prefix (lit "false") s with
  | Some r => Ok (Boolean false) r
  | None =>
  match strip_prefix (lit "null") s with
  | Some r => Ok Null r
  | None => SyntaxError
  end end end.

(** A value, with white space allowed before it.  [parse_elements] reads
    the rest of an array after its opening bracket and [parse_members] the
    rest of an object after its opening brace, both known to be non-empty.
    A repeated member name overwrites the earlier value. *)
Fixpoint parse_value (fuel : nat) (s : jsstring) : result value :=
  match fuel with
  | O => OutOfFuel
  | S fuel' =>
      match skip_ws s with
      | [] => SyntaxError
      | c :: r =>
          if c =? ch "{" then
            match skip_ws r with
            | [] => SyntaxError
            | c2 :: r2 =>
                if c2 =? ch "}" then Ok (Obj []) r2
                else parse_members fuel' [] r
            end
          else if c =? ch "[" then
            match skip_ws r with
            | [] => SyntaxError
            | c2 :: r2 =>
                if c2 =? ch "]" then Ok (Arr []) r2
                else parse_elements fuel' [] r
            end
          else if c =? quote then
            match parse_chars r with
            | Some (str, r') => Ok (Str str) r'
            | None => SyntaxError
            end
          else if (c =? ch "-") || is_digit c then parse_number (c :: r)
          else parse_keyword (c :: r)
      end
  end

with parse_elements (fuel : nat) (acc : list value) (s : jsstring)
  : result value :=
  match fuel with
  | O => OutOfFuel
  | S fuel' =>
      match parse_value fuel' s with
      | Ok v r =>
          match skip_ws r with
          | [] => SyntaxError
          | c :: r' =>
              if c =? ch "," then parse_elements fuel' (acc ++ [v]) r'
              else if c =? ch "]" then Ok (Arr (acc ++ [v])) r'
              else SyntaxError
          end
      | SyntaxError => SyntaxError
      | OutOfFuel => OutOfFuel
      end
  end

with parse_members (fuel : nat) (acc : list (jsstring * value)) (s : jsstring)
  : result value :=
  match fuel with
  | O => OutOfFuel
  | S fuel' =>
      match skip_ws s with
      | [] => SyntaxError
      | q :: r =>
          if q =? quote then
            match parse_chars r with
            | None => SyntaxError
            | Some (k, r1) =>
                match skip_ws r1 with
                | [] => SyntaxError
                | colon :: r2 =>
                    if colon =? ch ":" then
                      match parse_value fuel' r2 with
                      | Ok v r3 =>
                          match skip_ws r3 with
                          | [] => SyntaxError
                          | c :: r4 =>
                              if c =? ch "," then
                                parse_members fuel' (set_prop k v acc) r4
                              else if c =? ch "}" then
                                Ok (Obj (set_prop k v acc)) r4
                              else SyntaxError
                          end
                      | SyntaxError => SyntaxError
                      | OutOfFuel => OutOfFuel
                      end
                    else SyntaxError
                end
            end
          else SyntaxError
      end
  end.

(** Fuel that no text exhausts (see [parse_fuel_enough]). *)
Definition fuel_for (s : jsstring) : nat := 2 * length s + 2.

(** [JSON.parse(text)]: one value, white space around it, nothing else.
    [None] is the SyntaxError the runtime throws. *)
Definition parse (s : jsstring) : option value :=
  match parse_value (fuel_for s) s with
  | Ok v rest => match skip_ws rest with [] => Some v | _ => None end
  | _ => None
  end.

End JSON.


(* ===================================================================== *)
(** ** The regular expressions of the source *)
(* ===================================================================== *)

Module Patterns.
Import JS.

Local Open Scope N_scope.

Definition hyphen : N := 45.
Definition colon : N := 58.

(** The longest prefix of [s] whose characters satisfy [p], and the rest. *)
Fixpoint span (p : N -> bool) (s : jsstring) : jsstring * jsstring :=
  match s with
  | c :: r =>
      if p c then let (a, b) := span p r in (c :: a, b) else ([], s)
  | [] => ([], [])
  end.

Definition not_hyphen (c : N) : bool := negb (c =? hyphen).

(** [/^([^-]+)-([^-]+)$/.exec(scope)]: the two captures.  The first group
    takes every character up to the first hyphen; what follows that hyphen
    must be non-empty and free of hyphens up to the end of the string. *)
Definition exec_scope (scope : jsstring) : option (jsstring * jsstring) :=
  match span not_hyphen scope with
  | ((_ :: _) as row, _ :: rest) =>
      match rest with
      | [] => None
      | _ :: _ => if forallb not_hyphen rest then Some (row, rest) else None
      end
  | _ => None
  end.

(** The number of hyphens in a name. *)
Definition hyphens (s : jsstring) : nat :=
  length (List.filter (N.eqb hyphen) s).

(** [/^:/.test(line)]. *)
Definition test_comment (line : jsstring) : bool :=
  match line with
  | c :: _ => c =? colon
  | [] => false
  end.

(** [\w]: an ASCII letter, a digit or the underscore. *)
Definition is_word (c : N) : bool :=
  (97 <=? c) && (c <=? 122) || (65 <=? c) && (c <=? 90)
  || (48 <=? c) && (c <=? 57) || (c =? 95).

(** The field pattern of getEvents, [exec] on a line: one or more word
    characters from the start, a colon, any white space, then any characters
    other than line terminators up to the end of the string; the captures
    are the word and that last part.  The white space group takes all the
    white space there is, and the last group must reach the end of the
    string, which it does unless a line terminator is left in what remains
    (giving white space back to the last group cannot help: the terminator
    stays in the way). *)
Definition exec_field (line : jsstring) : option (jsstring * jsstring) :=
  match span is_word line with
  | ((_ :: _) as key, c :: rest) =>
      if c =? colon then
        let value := drop_space rest in
        if forallb (fun x => negb (is_line_terminator x)) value
        then Some (key, value) else None
      else None
  | _ => None
  end.

(** [chunk.split(/\r?\n/)]: cut at every line feed, the carriage return
    just before it belonging to the separator. *)
Fixpoint split_lines (cur : jsstring) (chunk : jsstring) : list jsstring :=
  match chunk with
  | [] => [cur]
  | c :: r =>
      if c =? 10 then cur :: split_lines [] r
      else if c =? 13 then
        match r with
        | c2 :: r2 =>
            if c2 =? 10 then cur :: split_lines [] r2
            else split_lines (cur ++ [c]) r
        | [] => split_lines (cur ++ [c]) r
        end
      else split_lines (cur ++ [c]) r
  end.

End Patterns.


(* ===================================================================== *)
(** ** The class HomeConnectAPI *)
(* ===================================================================== *)

Module HomeConnectAPI.
Import JS.

Local Open Scope Z_scope.

(** Scopes to request. *)
Definition SCOPES : list jsstring :=
  [lit "IdentifyAppliance"; lit "Monitor"; lit "Settings";
   lit "CleaningRobot-Control"; lit "CoffeeMaker-Control";
   lit "Dishwasher-Control"; lit "Dryer-Control"; lit "Freezer-Control";
   lit "Hood-Control"; lit "Refrigerator-Control"; lit "Washer-Control";
   lit "WasherDryer-Control"; lit "WineCooler-Control"].
Definition SCOPES_LIVE : list jsstring :=
  SCOPES ++ [lit "CookProcessor-Control"; lit "FridgeFreezer-Control"].
Definition SCOPES_SIMULATOR : list jsstring := SCOPES.

(** Interval between authorisation retries (seconds). *)
Definition AUTH_RETRY_DELAY : Z := 60.
Definition REFRESH_RETRY_DELAY : Z := 5.

(** Time before expiry of access token to request refresh (seconds). *)
Definition TOKEN_REFRESH_WINDOW : Z := 60 * 60.

Definition MS : Z := 1000.

(** The record tokenSave stores under the client id.  [accessToken] is the
    one property the source deletes: [None] is the record without it. *)
Module Auth.
Record t := mk {
  refreshToken : value;
  accessToken : option value;
  accessExpires : num;
  scopes : option (list jsstring)
}.
End Auth.

(** [auth.accessToken], read. *)
Definition read_accessToken (a : Auth.t) : value :=
  match Auth.accessToken a with
  | Some v => v
  | None => Undefined
  end.

(** A promise made by [sleep]. *)
Inductive promise :=
| Pending
| Fulfilled
| Rejected.

(** The fields of the object.  [authResolve] holds the pending promises of
    waitUntilAuthorised, named by number, [promises] counting those made so
    far.  [sleepReject] is the entry for the id 'refresh', the only id the
    source sleeps under: the promise its reject function settles.  The log,
    the language, the table of stream aborts and the emitted events are not
    part of this record. *)
Record api := mk {
  clientID : jsstring;
  simulator : bool;
  savedAuth : gmap jsstring Auth.t;
  scopes : list jsstring;
  authResolve : list nat;
  promises : nat;
  sleepReject : option promise;
  earliestRetry : Z;
  requestCount : nat
}.

Definition set_savedAuth (m : gmap jsstring Auth.t) (st : api) : api :=
  mk (clientID st) (simulator st) m (scopes st) (authResolve st)
     (promises st) (sleepReject st) (earliestRetry st) (requestCount st).

Definition set_scopes (l : list jsstring) (st : api) : api :=
  mk (clientID st) (simulator st) (savedAuth st) l (authResolve st)
     (promises st) (sleepReject st) (earliestRetry st) (requestCount st).

Definition set_authResolve (q : list nat) (n : nat) (st : api) : api :=
  mk (clientID st) (simulator st) (savedAuth st) (scopes st) q n
     (sleepReject st) (earliestRetry st) (requestCount st).

Definition set_sleepReject (p : option promise) (st : api) : api :=
  mk (clientID st) (simulator st) (savedAuth st) (scopes st) (authResolve st)
     (promises st) p (earliestRetry st) (requestCount st).

Definition set_earliestRetry (t : Z) (st : api) : api :=
  mk (clientID st) (simulator st) (savedAuth st) (scopes st) (authResolve st)
     (promises st) (sleepReject st) t (requestCount st).

Definition set_requestCount (n : nat) (st : api) : api :=
  mk (clientID st) (simulator st) (savedAuth st) (scopes st) (authResolve st)
     (promises st) (sleepReject st) (earliestRetry st) n.

(** The constructor, up to its call of authoriseClient; [savedAuth] is the
    object of the options, or the empty one. *)
Definition new (clientID : jsstring) (simulator : bool)
    (savedAuth : gmap jsstring Auth.t) (now : Z) : api :=
  mk clientID simulator savedAuth
     (if simulator then SCOPES_SIMULATOR else SCOPES_LIVE)
     [] 0 None now 0.

(** What waitUntilAuthorised returns: [Promise.resolve()], or a new promise
    whose resolver is queued. *)
Inductive waiting :=
| Resolved
| Queued (resolver : nat).

(** Wait until an access token has been obtained. *)
Definition waitUntilAuthorised (now : Z) (st : api) : waiting * api :=
  let ready :=
    match savedAuth st !! clientID st with
    | Some auth =>
        truthy (read_accessToken auth)
        && num_lt (Num now) (Auth.accessExpires auth)
    | None => false
    end in
  if ready then (Resolved, st)
  else (Queued (promises st),
        set_authResolve (authResolve st ++ [promises st]) (S (promises st)) st).

(** The errors the methods raise themselves. *)
Inductive thrown :=
| NotAuthorised      (* Error('Home Connect client is not authorised') *)
| TypeError.         (* a property read on undefined or null *)

(** Obtain the current access token (or throw an error if not authorised).
    The result is the token the header is built from. *)
Definition getAuthorisation (st : api) : value + thrown :=
  match savedAuth st !! clientID st with
  | None => inr TypeError
  | Some auth =>
      let token := read_accessToken auth in
      if truthy token then inl token else inr NotAuthorised
  end.

(** [this.scopes.includes(scope)]. *)
Definition includes (l : list jsstring) (x : jsstring) : bool :=
  existsb (str_eqb x) l.

(** Check whether a particular scope has been authorised. *)
Definition hasScope (scope : jsstring) (st : api) : bool :=
  if includes (scopes st) scope then true
  else
    match Patterns.exec_scope scope with
    | Some (row, column) =>
        if includes (scopes st) row then true
        else if includes (scopes st) column then true
        else false
    | None => false
    end.

(** A new access token has been obtained. *)
Definition tokenSave (now : Z) (token : value) (st : api) : api :=
  set_savedAuth
    (<[clientID st :=
         Auth.mk (get token (lit "refresh_token"))
                 (Some (get token (lit "access_token")))
                 (num_add (Num now)
                    (num_mul (to_number (get token (lit "expires_in")))
                             (Num MS)))
                 (Some (scopes st))]> (savedAuth st))
    st.

(** Cancel a previous sleep with an error (id 'refresh'): a pending promise
    becomes rejected, a settled one stays as it is. *)
Definition wake (st : api) : api :=
  match sleepReject st with
  | Some Pending => set_sleepReject (Some Rejected) st
  | _ => st
  end.

(** Invalidate saved authentication data if server indicates it is
    invalid. *)
Definition authInvalidate (st : api) : api :=
  wake (set_savedAuth (delete (clientID st) (savedAuth st)) st).

Definition delete_accessToken (a : Auth.t) : Auth.t :=
  Auth.mk (Auth.refreshToken a) None (Auth.accessExpires a) (Auth.scopes a).

(** Invalidate the current access token if server indicates it is
    invalid. *)
Definition tokenInvalidate (st : api) : api :=
  wake (set_savedAuth (alter delete_accessToken (clientID st) (savedAuth st))
                      st).

(** Delay before issuing another request if the server indicates rate
    limit.  The comparison fails on NaN, so what is assigned is a number. *)
Definition retryAfter (now : Z) (delaySeconds : value) (st : api) : api :=
  let earliest := num_add (Num now) (num_mul (to_number delaySeconds) (Num MS)) in
  if num_lt (Num (earliestRetry st)) earliest then
    match earliest with
    | Num t => set_earliestRetry t st
    | NaN => st
    end
  else st.

(** A sequence of calls of retryAfter, each at its own time. *)
Definition retryAfter_all (updates : list (Z * value)) (st : api) : api :=
  fold_left (fun s u => retryAfter (fst u) (snd u) s) updates st.

(** *** Raw requests *)

(** The options of a request that requestRaw inspects.  [followRedirect] is
    [None] where the caller leaves it out. *)
Record options := {
  method : jsstring;
  url : jsstring;
  json : bool;
  followRedirect : option bool
}.

(** A response of the server: status code, headers and body.  With
    [json: true] the request library hands the body over decoded; without,
    as text. *)
Record response := {
  statusCode : Z;
  headers : list (jsstring * value);
  body : value
}.

(** [response.headers[name]]. *)
Definition header (r : response) (name : jsstring) : value :=
  match lookup_prop name (headers r) with
  | Some v => v
  | None => Undefined
  end.

(** How the promise of the request library settles: with the body, or with
    an error that is a StatusCodeError carrying the response, or another
    one (a failure of the transport). *)
Inductive rejection :=
| StatusCodeError (r : response)
| OtherError.

Inductive settlement :=
| Resolves (v : value)
| Rejects (err : rejection).

(** The error a method throws on: the rejection it comes from and the
    [retry] mark.  The message is not modelled. *)
Record error := {
  cause : rejection;
  retry : bool
}.

Inductive outcome :=
| Return (v : value)
| Throw (e : error).

(** Attempt to parse JSON, returning null instead of an error for failure.
    The argument is a body received as text (JSON.parse of no text at all
    fails). *)
Definition parseJSON (text : value) : value :=
  match text with
  | Str s =>
      match JSON.parse s with
      | Some v => v
      | None => Null
      end
  | _ => Null
  end.

(** [!options.followRedirect && err.statusCode == 302]. *)
Definition redirected (opts : options) (r : response) : bool :=
  negb (match followRedirect opts with Some b => b | None => false end)
  && (statusCode r =? 302).

(** The body requestRaw inspects. *)
Definition inspected (opts : options) (r : response) : value :=
  if json opts then body r else parseJSON (body r).

(** Issue a raw Home Connect request: the part before the request is
    awaited (the request is counted and logged). *)
Definition requestRaw_issue (st : api) : api :=
  set_requestCount (S (requestCount st)) st.

(** Issue a raw Home Connect request: the part after the request has
    settled, at time [now].  The status text, which goes to the log and
    into the message of the error, is not modelled. *)
Definition requestRaw_settle (opts : options) (reply : settlement) (now : Z)
    (st : api) : outcome * api :=
  match reply with
  | Resolves v => (Return v, st)
  | Rejects OtherError => (Throw {| cause := OtherError; retry := false |}, st)
  | Rejects (StatusCodeError r as err) =>
      if redirected opts r then (Return (header r (lit "location")), st)
      else
        let body := inspected opts r in
        if truthy body && truthy (get body (lit "error_description")) then
          (* Authorisation (OAuth) error response *)
          let code := get body (lit "error") in
          if strict_eq_str code (lit "authorization_pending") then
            (Return Null, st)
          else if strict_eq_str code (lit "access_denied")
                  && loose_eq_str (get body (lit "error_description"))
                                  (lit "Too many requests") then
            (Throw {| cause := err; retry := true |}, st)
          else if strict_eq_str code (lit "access_denied")
                  || strict_eq_str code (lit "invalid_grant")
                  || strict_eq_str code (lit "expired_token") then
            (Throw {| cause := err; retry := false |}, authInvalidate st)
          else if strict_eq_str code (lit "unauthorized_client") then
            (Throw {| cause := err; retry := false |}, authInvalidate st)
          else (Throw {| cause := err; retry := false |}, st)
        else if truthy body && truthy (get body (lit "error"))
                && truthy (get (get body (lit "error")) (lit "key")) then
          (* Normal Home Connect API error format *)
          let key := get (get body (lit "error")) (lit "key") in
          if strict_eq_str key (lit "invalid_token") then
            (Throw {| cause := err; retry := false |}, tokenInvalidate st)
          else if strict_eq_str key (lit "429") then
            (Throw {| cause := err; retry := true |},
             retryAfter now (header r (lit "retry-after")) st)
          else (Throw {| cause := err; retry := false |}, st)
        else (Throw {| cause := err; retry := false |}, st)
  end.

(** Issue a raw Home Connect request. *)
Definition requestRaw (opts : options) (reply : settlement) (now : Z)
    (st : api) : outcome * api :=
  requestRaw_settle opts reply now (requestRaw_issue st).

(** *** Requests of the appliances API *)

(** What the world does during one turn of the retry loop: how late the
    timer of the rate limit sleep fires, how long the request takes, and
    how it settles.  Negative delays count as none. *)
Record turn := {
  timer_late : Z;
  latency : Z;
  reply : settlement
}.

(** How a call ends: with a value, with an error, or still in its loop when
    the turns given are used up. *)
Inductive ending :=
| Returned (v : value)
| Raised_thrown (t : thrown)
| Raised_error (e : error)
| Looping.

(** An attempt of a call: the earliest retry time it read before waiting,
    and the time at which it issued its request. *)
Record attempt := {
  limit : Z;
  issued : Z
}.

(** A run of a call: its ending, the object and the time at that point, and
    its attempts, in order. *)
Record run := {
  ending_of : ending;
  final : api;
  finished : Z;
  attempts : list attempt
}.

Definition attempted (a : attempt) (r : run) : run :=
  {| ending_of := ending_of r; final := final r; finished := finished r;
     attempts := a :: attempts r |}.

(** URLs for the Home Connect API. *)
Definition URL_LIVE : jsstring := lit "https://api.home-connect.com".
Definition URL_SIMULATOR : jsstring := lit "https://simulator.home-connect.com".

Definition base_url (st : api) : jsstring :=
  if simulator st then URL_SIMULATOR else URL_LIVE.

(** The options requestAppliances builds, but for the authorisation header
    and the body sent.  An argument left out is the empty string. *)
Definition appliances_options (method haid path : jsstring) (st : api)
  : options :=
  {| method := method;
     url := base_url st ++ lit "/api/homeappliances"
            ++ match haid with
               | [] => []
               | _ => lit "/" ++ haid ++ path
               end;
     json := true;
     followRedirect := None |}.

(** The time at which the rate limit sleep of a turn is over. *)
Definition after_rate_limit (late : Z) (now : Z) (st : api) : Z :=
  let retryIn := earliestRetry st - now in
  if 0 <? retryIn then now + retryIn + Z.max 0 late else now.

(** [body && body.data]. *)
Definition data_of (body : value) : value :=
  if truthy body then get body (lit "data") else body.

(** Issue a normal home appliances API request: the retry loop, one turn of
    the world per iteration, for a call running on its own. *)
Fixpoint requestAppliances_loop (opts : options) (world : list turn)
    (now : Z) (st : api) : run :=
  match world with
  | [] => {| ending_of := Looping; final := st; finished := now; attempts := [] |}
  | w :: world' =>
      (* Apply rate limiting *)
      let t := after_rate_limit (timer_late w) now st in
      let a := {| limit := earliestRetry st; issued := t |} in
      (* Try issuing the request *)
      match getAuthorisation st with
      | inr e =>
          {| ending_of := Raised_thrown e; final := st; finished := t;
             attempts := [] |}
      | inl _ =>
          let t' := t + Z.max 0 (latency w) in
          match requestRaw opts (reply w) t' st with
          | (Return body, st') =>
              {| ending_of := Returned (data_of body); final := st';
                 finished := t'; attempts := [a] |}
          | (Throw err, st') =>
              (* Re-throw the error if the request cannot be retried *)
              if retry err then
                attempted a (requestAppliances_loop opts world' t' st')
              else {| ending_of := Raised_error err; final := st';
                      finished := t'; attempts := [a] |}
          end
      end
  end.

Definition requestAppliances (method haid path : jsstring)
    (world : list turn) (now : Z) (st : api) : run :=
  requestAppliances_loop (appliances_options method haid path st) world now st.

(** *** Obtaining and maintaining an access token *)

(** Where authoriseClient is suspended: the request or the sleep it awaits,
    with the local variables it will read when it resumes. *)
Inductive ctl :=
| AwaitDeviceAuthorization           (* authDeviceFlow: verification URI *)
| DevicePollSleep (resp : value)     (* authDeviceFlow: poll interval *)
| AwaitDeviceToken (resp : value)    (* authDeviceFlow: poll for the token *)
| AwaitAuthorize                     (* authCodeGrantFlow: redirection *)
| AwaitCodeToken                     (* authCodeGrantFlow: code for token *)
| RefreshSleep (refreshIn : Z) (refreshToken : value)
| AwaitRefresh                       (* tokenRefresh *)
| RetrySleep (retryIn : Z).

(** What resumes it: the awaited request settles, the timer of the awaited
    sleep fires, or the awaited sleep has been rejected by [wake]. *)
Inductive resume :=
| Reply (s : settlement)
| TimerFired
| SleepRejected.

Definition oauth_options (path : jsstring) (st : api) : options :=
  {| method := lit "POST"; url := base_url st ++ path; json := true;
     followRedirect := None |}.

Definition device_options := oauth_options (lit "/security/oauth/device_authorization").
Definition token_options := oauth_options (lit "/security/oauth/token").

Definition authorize_options (st : api) : options :=
  {| method := lit "GET"; url := base_url st ++ lit "/security/oauth/authorize";
     json := false; followRedirect := Some false |}.

(** The catch block of authoriseClient, up to its sleep. *)
Definition authorise_catch (st : api) : api * ctl :=
  (* Discard any access token and report the error *)
  let st1 := tokenInvalidate st in
  (* Delay before retrying authorisation *)
  let retryIn :=
    match savedAuth st1 !! clientID st1 with
    | Some _ => REFRESH_RETRY_DELAY
    | None => AUTH_RETRY_DELAY
    end in
  (st1, RetrySleep (retryIn * MS)).

(** One turn of the inner loop of authoriseClient, from its top to the
    next await. *)
Definition authorise_refresh (now : Z) (st : api) : api * ctl :=
  match savedAuth st !! clientID st with
  | None => authorise_catch st                  (* TypeError on auth *)
  | Some auth =>
      let refreshIn :=
        num_sub (num_sub (Auth.accessExpires auth) (Num now))
                (Num (TOKEN_REFRESH_WINDOW * MS)) in
      match refreshIn with
      | Num d =>
          if truthy (read_accessToken auth) && (0 <? d) then
            (* Resolve any promises awaiting authorisation, then delay
               before refreshing the access token *)
            (set_sleepReject (Some Pending)
               (set_authResolve [] (promises st) st),
             RefreshSleep d (Auth.refreshToken auth))
          else (requestRaw_issue st, AwaitRefresh)
      | NaN => (requestRaw_issue st, AwaitRefresh)
      end
  end.

(** One turn of the outer loop of authoriseClient, from its top to the
    next await. *)
Definition authorise_top (now : Z) (st : api) : api * ctl :=
  match savedAuth st !! clientID st with
  | None =>
      (* authorise this client if there is no saved authorisation *)
      (requestRaw_issue st,
       if simulator st then AwaitAuthorize else AwaitDeviceAuthorization)
  | Some auth =>
      authorise_refresh now
        match Auth.scopes auth with
        | Some l => set_scopes l st
        | None => st
        end
  end.

Definition nullish (v : value) : bool :=
  match v with
  | Undefined | Null => true
  | _ => false
  end.

(** authoriseClient resumed by [ev] at time [now], up to its next await.
    An event that is not the one awaited changes nothing. *)
Definition authorise_step (now : Z) (ev : resume) (m : api * ctl) : api * ctl :=
  let (st, c) := m in
  match c, ev with
  | AwaitDeviceAuthorization, Reply s =>
      match requestRaw_settle (device_options st) s now st with
      | (Return resp, st1) =>
          (* resp.verification_uri_complete is read for the auth_uri event *)
          if nullish resp then authorise_catch st1
          else (st1, DevicePollSleep resp)
      | (Throw _, st1) => authorise_catch st1
      end
  | DevicePollSleep resp, TimerFired =>
      (requestRaw_issue st, AwaitDeviceToken resp)
  | AwaitDeviceToken resp, Reply s =>
      match requestRaw_settle (token_options st) s now st with
      | (Return token, st1) =>
          if truthy token then authorise_refresh now (tokenSave now token st1)
          else (st1, DevicePollSleep resp)
      | (Throw _, st1) => authorise_catch st1
      end
  | AwaitAuthorize, Reply s =>
      match requestRaw_settle (authorize_options st) s now st with
      | (Return (Str location), st1) => (requestRaw_issue st1, AwaitCodeToken)
      | (Return _, st1) => authorise_catch st1   (* url.parse: TypeError *)
      | (Throw _, st1) => authorise_catch st1
      end
  | AwaitCodeToken, Reply s =>
      match requestRaw_settle (token_options st) s now st with
      | (Return token, st1) =>
          if nullish token then authorise_catch st1   (* tokenSave: TypeError *)
          else authorise_refresh now (tokenSave now token st1)
      | (Throw _, st1) => authorise_catch st1
      end
  | RefreshSleep _ refreshToken, TimerFired =>
      match sleepReject st with
      | Some Pending =>
          (requestRaw_issue (set_sleepReject (Some Fulfilled) st), AwaitRefresh)
      | _ => m
      end
  | RefreshSleep _ _, SleepRejected =>
      match sleepReject st with
      | Some Rejected => authorise_catch st
      | _ => m
      end
  | AwaitRefresh, Reply s =>
      match requestRaw_settle (token_options st) s now st with
      | (Return token, st1) =>
          (* Request returns null if authorisation is pending *)
          if truthy token then authorise_refresh now (tokenSave now token st1)
          else authorise_catch st1
      | (Throw _, st1) => authorise_catch st1
      end
  | RetrySleep _, TimerFired => authorise_top now st
  | _, _ => m
  end.

(** The states of the specification's authorisation state machine. *)
Inductive phase :=
| Authorizing
| Authorized
| RefreshPending
| Invalidated.

Definition phase_of (c : ctl) : phase :=
  match c with
  | AwaitDeviceAuthorization | DevicePollSleep _ | AwaitDeviceToken _
  | AwaitAuthorize | AwaitCodeToken => Authorizing
  | RefreshSleep _ _ => Authorized
  | AwaitRefresh => RefreshPending
  | RetrySleep _ => Invalidated
  end.

(** The states in which the request awaited goes to the token endpoint. *)
Definition awaits_token (c : ctl) : bool :=
  match c with
  | AwaitDeviceToken _ | AwaitCodeToken | AwaitRefresh => true
  | _ => false
  end.

(** Obtain and maintain an access token: the call the constructor makes,
    up to its first await. *)
Definition authoriseClient (now : Z) (st : api) : api * ctl :=
  authorise_top now st.

(** *** The events stream *)

(** The state of the line callback of getEvents: the event being collected,
    with the events emitted and the lines logged so far (latest last). *)
Record reader := {
  event : list (jsstring * value);
  emitted : list value;
  log : list jsstring
}.

Definition new_reader : reader :=
  {| event := []; emitted := []; log := [] |}.

(** How a callback ends: normally, or by an exception it does not catch,
    with the state it leaves behind. *)
Inductive exception :=
| SyntaxError        (* thrown by JSON.parse *)
| ReferenceError.    (* a variable that is not defined *)

Inductive completion (A : Type) :=
| Normal (a : A)
| Abrupt (x : exception) (a : A).
Arguments Normal {A} a.
Arguments Abrupt {A} x a.

(** [event[key] = value], for a word [key].  The one word that is not
    stored as a property is __proto__: it is only reached with a string for
    [value], and assigning a string to it does nothing. *)
Definition assign (key : jsstring) (v : value) (ev : list (jsstring * value))
  : list (jsstring * value) :=
  if str_eqb key (lit "__proto__") then ev else set_prop key v ev.

(** Process a line from the stream. *)
Definition on_line (line : jsstring) (rd : reader) : completion reader :=
  match line with
  | [] =>
      (* End of event, so issue a notification *)
      Normal {| event := [];
                emitted := match event rd with
                           | [] => emitted rd
                           | _ :: _ => emitted rd ++ [Obj (event rd)]
                           end;
                log := log rd |}
  | _ :: _ =>
      if Patterns.test_comment line then
        (* Server-sent events comment *)
        Normal {| event := event rd; emitted := emitted rd;
                  log := log rd ++ [lit "Event comment '" ++ line ++ lit "'"] |}
      else
        (* More information about the event *)
        match Patterns.exec_field line with
        | None =>
            Normal {| event := event rd; emitted := emitted rd;
                      log := log rd
                             ++ [lit "Unable to parse event '" ++ line ++ lit "'"] |}
        | Some (key, text) =>
            if str_eqb key (lit "data")
               && match text with [] => false | _ => true end then
              match JSON.parse text with
              | Some v =>
                  Normal {| event := assign key v (event rd);
                            emitted := emitted rd; log := log rd |}
              | None => Abrupt SyntaxError rd
              end
            else
              Normal {| event := assign key (Str text) (event rd);
                        emitted := emitted rd; log := log rd |}
        end
  end.

(** The error an events stream ends with: the one of the transport, or the
    one the complete handler makes from the response.  [retry] is what
    getEvents reads from it. *)
Record stream_error := {
  from_response : option response;
  stream_retry : bool
}.

(** The promise of requestStream. *)
Inductive stream_promise :=
| Streaming
| Ended
| Failed (e : stream_error).

(** The state of one requestStream: its [aborted] flag, its promise,
    whether the data handler is attached, and the reader it feeds. *)
Record stream := {
  aborted : bool;
  result : stream_promise;
  attached : bool;
  lines : reader
}.

Definition new_stream : stream :=
  {| aborted := false; result := Streaming; attached := false;
     lines := new_reader |}.

(** A promise settles once. *)
Definition settle (p : stream_promise) (s : stream) : stream :=
  {| aborted := aborted s;
     result := match result s with Streaming => p | r => r end;
     attached := attached s; lines := lines s |}.

(** Pass on any received stream data, unless aborted. *)
Definition callbackLine (line : jsstring) (s : stream) : completion stream :=
  if aborted s then Normal s
  else
    match on_line line (lines s) with
    | Normal rd =>
        Normal {| aborted := aborted s; result := result s;
                  attached := attached s; lines := rd |}
    | Abrupt x rd =>
        Abrupt x {| aborted := aborted s; result := result s;
                    attached := attached s; lines := rd |}
    end.

(** The event stream has finished, possibly with an error. *)
Definition callbackDone (err : option stream_error) (s : stream) : stream :=
  match err with
  | Some e => settle (Failed e) s
  | None => settle Ended s
  end.

(** The mechanism to abort the request (what stopEvents calls). *)
Definition abort (s : stream) : stream :=
  settle Ended {| aborted := true; result := result s;
                  attached := attached s; lines := lines s |}.

(** [forEach] over the lines of a chunk: an exception ends it. *)
Fixpoint each_line (ls : list jsstring) (s : stream) : completion stream :=
  match ls with
  | [] => Normal s
  | l :: rest =>
      match callbackLine l s with
      | Normal s' => each_line rest s'
      | Abrupt x s' => Abrupt x s'
      end
  end.

(** What the request emits.  The complete event comes with the arguments
    the request library passes to its handler, the response and the body.
    requestStreamRaw makes its request without a callback, and the library
    then emits the event with the response alone: in the runs of the
    program [body] is [undefined]. *)
Inductive stream_event :=
| OnError
| OnResponse (r : response)
| OnData (chunk : jsstring)
| OnComplete (r : response) (body : value).

(** The handlers requestStreamRaw installs, run on one event at time
    [now]. *)
Definition requestStreamRaw_on (ev : stream_event) (now : Z)
    (m : api * stream) : completion (api * stream) :=
  let (st, s) := m in
  match ev with
  | OnError =>
      Normal (st, callbackDone (Some {| from_response := None;
                                        stream_retry := false |}) s)
  | OnResponse r =>
      Normal (st, {| aborted := aborted s; result := result s;
                     attached := attached s || (statusCode r =? 200);
                     lines := lines s |})
  | OnData chunk =>
      if attached s then
        match each_line (Patterns.split_lines [] chunk) s with
        | Normal s' => Normal (st, s')
        | Abrupt x s' => Abrupt x (st, s')
        end
      else Normal m
  | OnComplete r body =>
      (* Attempt to extract a useful error message *)
      let done (st' : api) :=
        Normal (st', callbackDone
                       (if statusCode r =? 200 then None
                        else Some {| from_response := Some r;
                                     stream_retry := false |}) s) in
      if truthy body && truthy (get body (lit "error"))
         && truthy (get (get body (lit "error")) (lit "key")) then
        (* Normal Home Connect API error format *)
        let key := get (get body (lit "error")) (lit "key") in
        if strict_eq_str key (lit "invalid_token") then
          done (tokenInvalidate st)
        else if strict_eq_str key (lit "429") then
          (* the delay is read from err.response, and no err is defined in
             this handler *)
          Abrupt ReferenceError m
        else done st
      else done st
  end.

(** What happens to a stream: the request emits an event, or stopEvents is
    called for its appliance. *)
Inductive stream_input :=
| Emits (ev : stream_event)
| StopEvents.

(** A Promise wrapper around an events stream: the stream fed its inputs in
    order, each at its time.  An exception that leaves a handler is caught
    by nothing and ends the run. *)
Fixpoint requestStream (inputs : list (stream_input * Z)) (m : api * stream)
  : completion (api * stream) :=
  match inputs with
  | [] => Normal m
  | (Emits ev, now) :: rest =>
      match requestStreamRaw_on ev now m with
      | Normal m' => requestStream rest m'
      | Abrupt x m' => Abrupt x m'
      end
  | (StopEvents, _) :: rest => requestStream rest (fst m, abort (snd m))
  end.

(** What the world does during one turn of the retry loop of getEvents:
    how late the timer of the rate limit sleep fires, and what happens to
    the stream. *)
Record events_turn := {
  gate_late : Z;
  inputs : list (stream_input * Z)
}.

(** How getEvents ends: it returns, it throws, an exception escapes a
    handler of its stream, its stream is still open when the inputs given
    are used up, or it is still in its loop when the turns are. *)
Inductive events_ending :=
| EventsReturn
| EventsThrown (t : thrown)
| EventsThrow (e : stream_error)
| EventsUncaught (x : exception)
| EventsOpen
| EventsLooping.

(** A run of getEvents: its ending, the object and its last stream at that
    point, and its attempts. *)
Record events_run := {
  events_ending_of : events_ending;
  events_final : api;
  last_stream : stream;
  events_attempts : list attempt
}.

Definition events_attempted (a : attempt) (r : events_run) : events_run :=
  {| events_ending_of := events_ending_of r; events_final := events_final r;
     last_stream := last_stream r; events_attempts := a :: events_attempts r |}.

(** The time of the last input, [t] when there is none. *)
Definition last_time (ins : list (stream_input * Z)) (t : Z) : Z :=
  List.last (map snd ins) t.

(** Get events stream for one appliance: the retry loop, one turn of the
    world per iteration. *)
Fixpoint getEvents (world : list events_turn) (now : Z) (st : api)
  : events_run :=
  match world with
  | [] =>
      {| events_ending_of := EventsLooping; events_final := st;
         last_stream := new_stream; events_attempts := [] |}
  | w :: world' =>
      (* Apply rate limiting *)
      let t := after_rate_limit (gate_late w) now st in
      let a := {| limit := earliestRetry st; issued := t |} in
      (* Try issuing the request *)
      match getAuthorisation st with
      | inr e =>
          {| events_ending_of := EventsThrown e; events_final := st;
             last_stream := new_stream; events_attempts := [] |}
      | inl _ =>
          match requestStream (inputs w) (requestRaw_issue st, new_stream) with
          | Abrupt x (st', s) =>
              {| events_ending_of := EventsUncaught x; events_final := st';
                 last_stream := s; events_attempts := [a] |}
          | Normal (st', s) =>
              match result s with
              | Streaming =>
                  {| events_ending_of := EventsOpen; events_final := st';
                     last_stream := s; events_attempts := [a] |}
              | Ended =>
                  {| events_ending_of := EventsReturn; events_final := st';
                     last_stream := s; events_attempts := [a] |}
              | Failed e =>
                  (* Re-throw the error if the request cannot be retried *)
                  if stream_retry e then
                    events_attempted a
                      (getEvents world' (last_time (inputs w) t) st')
                  else
                    {| events_ending_of := EventsThrow e; events_final := st';
                       last_stream := s; events_attempts := [a] |}
              end
          end
      end
  end.

(** The error a stream has failed with, if any, carries no retry mark. *)
Definition unmarked (s : stream) : Prop :=
  match result s with
  | Failed e => stream_retry e = false
  | _ => True
  end.

(** *** The shapes of error bodies *)

(** An error body of the appliances API: an error object with a key, and
    no description of an OAuth error beside it. *)
Definition is_api_error (body : value) (key : jsstring) : Prop :=
  truthy (get body (lit "error_description")) = false
  /\ get (get body (lit "error")) (lit "key") = Str key.

(** An error body of the OAuth endpoints: an error code and its
    description. *)
Definition is_oauth_error (body : value) (code : jsstring) : Prop :=
  truthy (get body (lit "error_description")) = true
  /\ get body (lit "error") = Str code.

End HomeConnectAPI.


(* ===================================================================== *)
(** ** Concrete clients, responses and streams *)
(* ===================================================================== *)

Module Examples.
Import JS HomeConnectAPI.

Definition id : jsstring := lit "id".

(** A record with both tokens, valid until time 5000. *)
Definition saved : Auth.t :=
  Auth.mk (Str (lit "R")) (Some (Str (lit "A"))) (Num 5000) None.

(** A live client holding that record, and one holding none. *)
Definition authorised : api := new id false (<[id := saved]> ∅) 0.
Definition unauthorised : api := new id false ∅ 0.

(** A client whose scopes are the single name C. *)
Definition holding_C : api := set_scopes [lit "C"] unauthorised.

(** [s] between double quotes. *)
Definition quoted (s : jsstring) : jsstring := JSON.quote :: s ++ [JSON.quote].

(** Error bodies: of the appliances API with a key, of the OAuth endpoints
    with a code. *)
Definition api_error (key : jsstring) : value :=
  Obj [(lit "error",
        Obj [(lit "key", Str key); (lit "description", Str (lit "refused"))])].

Definition oauth_error (code : jsstring) : value :=
  Obj [(lit "error", Str code);
       (lit "error_description", Str (lit "refused"))].

(** The rate limit response, asking for 30 seconds. *)
Definition too_many_requests : response :=
  {| statusCode := 429;
     headers := [(lit "retry-after", Str (lit "30"))];
     body := api_error (lit "429") |}.

Definition invalid_token : response :=
  {| statusCode := 401; headers := []; body := api_error (lit "invalid_token") |}.

Definition invalid_grant : response :=
  {| statusCode := 400; headers := []; body := oauth_error (lit "invalid_grant") |}.

(** A successful reply with a data member. *)
Definition success : settlement :=
  Resolves (Obj [(lit "data", Obj [(lit "ok", Boolean true)])]).

(** A turn of the world answering with the rate limit, and one answering
    with success. *)
Definition limited_turn : turn :=
  {| timer_late := 0; latency := 20; reply := Rejects (StatusCodeError too_many_requests) |}.
Definition success_turn : turn :=
  {| timer_late := 3; latency := 20; reply := success |}.

(** The lines of an event with two fields, and the text they come in. *)
Definition notify_line : jsstring := lit "event: NOTIFY".
Definition data_line : jsstring :=
  lit "data: {" ++ quoted (lit "k") ++ lit ":1}".
Definition notify_chunk : jsstring :=
  notify_line ++ [10%N] ++ data_line ++ [10%N; 10%N].

(** The event they describe. *)
Definition notify_event : value :=
  Obj [(lit "event", Str (lit "NOTIFY"));
       (lit "data", Obj [(lit "k", Number 1 0)])].

(** A data line whose value is not JSON. *)
Definition broken_data_line : jsstring := lit "data: {oops".

(** The response that opens a stream. *)
Definition stream_opened : response :=
  {| statusCode := 200; headers := []; body := Undefined |}.

(** A stream that delivers the NOTIFY event in one chunk. *)
Definition notify_stream : events_turn :=
  {| gate_late := 0;
     inputs := [(Emits (OnResponse stream_opened), 1);
                (Emits (OnData notify_chunk), 2)] |}.

(** A stream that delivers the two field lines, is stopped, and then
    delivers the blank line. *)
Definition stopped_stream : events_turn :=
  {| gate_late := 0;
     inputs := [(Emits (OnResponse stream_opened), 1);
                (Emits (OnData (notify_line ++ [10%N] ++ data_line)), 2);
                (StopEvents, 3);
                (Emits (OnData [10%N; 10%N]), 4)] |}.

(** A stream that is refused with the rate limit response, and one that
    is refused with the invalid_token response; the complete event comes
    without a body. *)
Definition limited_stream : events_turn :=
  {| gate_late := 0;
     inputs := [(Emits (OnResponse too_many_requests), 10);
                (Emits (OnComplete too_many_requests Undefined), 20)] |}.
Definition unauthorised_stream : events_turn :=
  {| gate_late := 0;
     inputs := [(Emits (OnResponse invalid_token), 10);
                (Emits (OnComplete invalid_token Undefined), 20)] |}.

(** A stream that delivers the broken data line, then the NOTIFY event, in
    one chunk. *)
Definition broken_stream : events_turn :=
  {| gate_late := 0;
     inputs := [(Emits (OnResponse stream_opened), 1);
                (Emits (OnData (broken_data_line ++ [10%N] ++ notify_chunk)), 2)] |}.

End Examples.

(* ===================================================================== *)
(** ** Calls that share the object *)
(* ===================================================================== *)

Module Interleaving.
Import JS HomeConnectAPI.

(** One turn of the retry loop of requestAppliances, for a call that does
    not run on its own.  The call reads the earliest retry time on [st] at
    time [now].  When it has to wait, requests of other calls settle
    during its sleep: [meanwhile] is what they do to the object.  The call
    then issues its request at the time its sleep is over; it does not
    read the earliest retry time again.  The result is the attempt, with
    what requestRaw gives or the error of getAuthorisation. *)
Definition requestAppliances_turn (opts : options) (w : turn)
    (meanwhile : api -> api) (now : Z) (st : api)
  : attempt * (outcome * api + thrown) :=
  (* Apply rate limiting *)
  let retryIn := earliestRetry st - now in
  let t := after_rate_limit (timer_late w) now st in
  let st1 := if 0 <? retryIn then meanwhile st else st in
  (* Try issuing the request *)
  ({| limit := earliestRetry st; issued := t |},
   match getAuthorisation st1 with
   | inr e => inr e
   | inl _ => inl (requestRaw opts (reply w) (t + Z.max 0 (latency w)) st1)
   end).

(** The retry mark of what requestRaw gives, when it is an error. *)
Definition retry_of (o : outcome) : option bool :=
  match o with
  | Throw e => Some (retry e)
  | Return _ => None
  end.

End Interleaving.

(* ===================================================================== *)
(** ** Notions the further properties are stated with *)
(* ===================================================================== *)

Module Notions.
Import JS HomeConnectAPI.

(** The later of [acc] and the time a retry-after header read at time
    [fst u] asks to wait for; a header that is no number asks for none. *)
Definition latest (acc : Z) (u : Z * value) : Z :=
  match to_number (snd u) with
  | Num n => Z.max acc (fst u + n * MS)
  | NaN => acc
  end.

(** Record [a'] is record [a], but for the access token, which is the
    same or has been deleted. *)
Definition same_but_token (a a' : Auth.t) : Prop :=
  Auth.refreshToken a' = Auth.refreshToken a
  /\ Auth.accessExpires a' = Auth.accessExpires a
  /\ Auth.scopes a' = Auth.scopes a
  /\ (Auth.accessToken a' = Auth.accessToken a \/ Auth.accessToken a' = None).

(** authoriseClient is inside one of the two authorisation flows only
    while the client has no record. *)
Definition owns (m : api * ctl) : Prop :=
  phase_of (snd m) = Authorizing ->
  savedAuth (fst m) !! clientID (fst m) = None.

(** The scopes of the client's record, when it names some, are the scopes
    of the object. *)
Definition scopes_agree (st : api) : Prop :=
  forall (a : Auth.t) (l : list jsstring),
    savedAuth st !! clientID st = Some a -> Auth.scopes a = Some l ->
    scopes st = l.

(** authoriseClient resumed by a sequence of events, each at its time. *)
Definition authorise_run (evs : list (Z * resume)) (m : api * ctl)
  : api * ctl :=
  fold_left (fun m e => authorise_step (fst e) (snd e) m) evs m.

(** Rounds of the poll of the device flow, one for each pair of times:
    the request is answered, then the timer of the poll interval fires. *)
Fixpoint poll_rounds (answer : settlement) (times : list (Z * Z))
  : list (Z * resume) :=
  match times with
  | [] => []
  | (answered, fired) :: rest =>
      (answered, Reply answer) :: (fired, TimerFired)
      :: poll_rounds answer rest
  end.



(** The number of empty lines among [ls]. *)
Definition blank_lines (ls : list jsstring) : nat :=
  length (List.filter (fun l => match l with [] => true | _ => false end) ls).

(** An object with a property at least. *)
Definition has_fields (v : value) : Prop :=
  exists p ps, v = Obj (p :: ps).

(** Reader [rd'] continues [rd]: it has emitted [new] since, each an
    object with a property, and has logged more. *)
Definition continues (rd rd' : reader) (new : list value) : Prop :=
  emitted rd' = emitted rd ++ new
  /\ Forall has_fields new
  /\ exists more, log rd' = log rd ++ more.

(** An input that attaches the data handler: a response with status 200. *)
Definition opens (i : stream_input * Z) : bool :=
  match fst i with
  | Emits (OnResponse r) => statusCode r =? 200
  | _ => false
  end.

End Notions.

(* ===================================================================== *)
(** ** The table of abort functions (HomeConnectAPI, continued) *)
(* ===================================================================== *)

Module StreamTable.
Import JS HomeConnectAPI.

(** The streams requestStream has started, by number, and the object
    streamAbort: for a token, the stream its abort function stops.  A
    token is an appliance id, not the name of a property every object
    inherits. *)
Record table := {
  streams : gmap nat stream;
  streamAbort : gmap jsstring nat;
  started : nat
}.

(** As the constructor leaves it. *)
Definition no_streams : table :=
  {| streams := ∅; streamAbort := ∅; started := 0 |}.

(** requestStream, up to the promise it returns: the request is started
    and its abort function stored under [token], in place of the one that
    was there. *)
Definition requestStream_start (token : jsstring) (t : table) : table :=
  {| streams := <[started t := new_stream]> (streams t);
     streamAbort := <[token := started t]> (streamAbort t);
     started := S (started t) |}.

(** Stop events stream for one appliance. *)
Definition stopEvents (haid : jsstring) (t : table) : table :=
  match streamAbort t !! haid with
  | Some id =>
      {| streams := alter abort id (streams t);
         streamAbort := delete haid (streamAbort t);
         started := started t |}
  | None => t
  end.

Definition stopEvents_all (haids : list jsstring) (t : table) : table :=
  fold_left (fun t h => stopEvents h t) haids t.

(** The abort functions stored stop streams that have been started. *)
Definition well_formed (t : table) : Prop :=
  forall h id, streamAbort t !! h = Some id -> (id < started t)%nat.

End StreamTable.

(* ===================================================================== *)
(** ** The operations on appliances (HomeConnectAPI, continued) *)
(* ===================================================================== *)

Module Facade.
Import JS HomeConnectAPI.

(** What an operation returns of the data requestAppliances gives it: the
    data, a member of it, or a member read only when there is data. *)
Inductive picks :=
| Whole
| Member (name : jsstring)
| GuardedMember (name : jsstring).

(** The arguments an operation passes to requestAppliances (the empty
    string for one left out, [undefined] for no body), and what it returns
    of the data.  Keys are strings. *)
Record operation := {
  op_method : jsstring;
  op_haid : jsstring;
  op_path : jsstring;
  op_body : value;
  op_picks : picks
}.

Definition get_ (haid path : jsstring) (p : picks) : operation :=
  {| op_method := lit "GET"; op_haid := haid; op_path := path;
     op_body := Undefined; op_picks := p |}.

Definition put_ (haid path : jsstring) (data : list (jsstring * value))
  : operation :=
  {| op_method := lit "PUT"; op_haid := haid; op_path := path;
     op_body := Obj [(lit "data", Obj data)]; op_picks := Whole |}.

(** A parameter with a default value. *)
Definition default (v d : value) : value :=
  match v with
  | Undefined => d
  | _ => v
  end.

(** Get a list of paired home appliances *)
Definition getAppliances : operation :=
  get_ [] [] (GuardedMember (lit "homeappliances")).

(** Get details of a specific paired home appliances *)
Definition getAppliance (haid : jsstring) : operation :=
  get_ haid [] Whole.

(** Get all programs *)
Definition getPrograms (haid : jsstring) : operation :=
  get_ haid (lit "/programs") (Member (lit "programs")).

(** Get a list of the available programs *)
Definition getAvailablePrograms (haid : jsstring) : operation :=
  get_ haid (lit "/programs/available") (Member (lit "programs")).

(** Get the details of a specific available programs *)
Definition getAvailableProgram (haid programKey : jsstring) : operation :=
  get_ haid (lit "/programs/available/" ++ programKey) Whole.

(** Get the program which is currently being executed *)
Definition getActiveProgram (haid : jsstring) : operation :=
  get_ haid (lit "/programs/active") Whole.

(** Start a specified program *)
Definition setActiveProgram (haid programKey : jsstring) (options : value)
  : operation :=
  put_ haid (lit "/programs/active")
       [(lit "key", Str programKey);
        (lit "options", default options (Arr []))].

(** Stop the active program *)
Definition stopActiveProgram (haid : jsstring) : operation :=
  {| op_method := lit "DELETE"; op_haid := haid;
     op_path := lit "/programs/active"; op_body := Undefined;
     op_picks := Whole |}.

(** Get all options of the active program *)
Definition getActiveProgramOptions (haid : jsstring) : operation :=
  get_ haid (lit "/programs/active/options") (Member (lit "options")).

(** Set all options of the active program *)
Definition setActiveProgramOptions (haid : jsstring) (options : value)
  : operation :=
  put_ haid (lit "/programs/active/options") [(lit "options", options)].

(** Get a specific option of the active program *)
Definition getActiveProgramOption (haid optionKey : jsstring) : operation :=
  get_ haid (lit "/programs/active/options/" ++ optionKey) Whole.

(** Set a specific option of the active program *)
Definition setActiveProgramOption (haid optionKey : jsstring) (v : value)
  : operation :=
  put_ haid (lit "/programs/active/options/" ++ optionKey)
       [(lit "key", Str optionKey); (lit "value", v)].

(** Get the program which is currently selected *)
Definition getSelectedProgram (haid : jsstring) : operation :=
  get_ haid (lit "/programs/selected") Whole.

(** Select a program *)
Definition setSelectedProgram (haid programKey : jsstring) (options : value)
  : operation :=
  put_ haid (lit "/programs/selected")
       [(lit "key", Str programKey); (lit "options", options)].

(** Get all options of the selected program *)
Definition getSelectedProgramOptions (haid : jsstring) : operation :=
  get_ haid (lit "/programs/selected/options") (Member (lit "options")).

(** Set all options of the selected program *)
Definition setSelectedProgramOptions (haid : jsstring) (options : value)
  : operation :=
  put_ haid (lit "/programs/selected/options") [(lit "options", options)].

(** Get a specific option of the selected program *)
Definition getSelectedProgramOption (haid optionKey : jsstring) : operation :=
  get_ haid (lit "/programs/selected/options/" ++ optionKey) Whole.

(** Set a specific option of the selected program *)
Definition setSelectedProgramOption (haid optionKey : jsstring) (v : value)
  : operation :=
  put_ haid (lit "/programs/selected/options/" ++ optionKey)
       [(lit "key", Str optionKey); (lit "value", v)].

(** Get the current status *)
Definition getStatus (haid : jsstring) : operation :=
  get_ haid (lit "/status") (Member (lit "status")).

(** Get a specific status *)
Definition getStatusSpecific (haid statusKey : jsstring) : operation :=
  get_ haid (lit "/status/" ++ statusKey) Whole.

(** Get all settings *)
Definition getSettings (haid : jsstring) : operation :=
  get_ haid (lit "/settings") (Member (lit "settings")).

(** Get a specific setting *)
Definition getSetting (haid settingKey : jsstring) : operation :=
  get_ haid (lit "/settings/" ++ settingKey) Whole.

(** Set a specific setting *)
Definition setSetting (haid settingKey : jsstring) (v : value) : operation :=
  put_ haid (lit "/settings/" ++ settingKey)
       [(lit "key", Str settingKey); (lit "value", v)].

(** Get a list of supported commands *)
Definition getCommands (haid : jsstring) : operation :=
  get_ haid (lit "/commands") (Member (lit "commands")).

(** Issue a command *)
Definition setCommand (haid commandKey : jsstring) (v : value) : operation :=
  put_ haid (lit "/commands/" ++ commandKey)
       [(lit "key", Str commandKey);
        (lit "value", default v (Boolean true))].

(** The operations that read a member of the data without a guard. *)
Definition listings (haid : jsstring) : list operation :=
  [getPrograms haid; getAvailablePrograms haid; getActiveProgramOptions haid;
   getSelectedProgramOptions haid; getStatus haid; getSettings haid;
   getCommands haid].

(** What is returned of [data]; reading a member of no data raises. *)
Definition pick (p : picks) (data : value) : value + thrown :=
  match p with
  | Whole => inl data
  | Member name => if nullish data then inr TypeError else inl (get data name)
  | GuardedMember name => inl (if truthy data then get data name else data)
  end.

(** How an operation ends. *)
Inductive answer :=
| Answered (v : value)
| Failed_thrown (t : thrown)
| Failed_error (e : error)
| Unanswered.

(** An operation: the request, then what it returns of the data.  The
    replies of the world do not depend on the body sent. *)
Definition perform (op : operation) (world : list turn) (now : Z) (st : api)
  : answer * api :=
  let r := requestAppliances (op_method op) (op_haid op) (op_path op)
                             world now st in
  (match ending_of r with
   | Returned data =>
       match pick (op_picks op) data with
       | inl v => Answered v
       | inr t => Failed_thrown t
       end
   | Raised_thrown t => Failed_thrown t
   | Raised_error e => Failed_error e
   | Looping => Unanswered
   end, final r).

End Facade.

(* ===================================================================== *)
(** ** ConfigSchema: scheduling the write of the schema file *)
(* ===================================================================== *)

Module ConfigSchema.

(** What the writer of the schema file is doing: nothing, waiting for the
    timer that calls doWrite, or inside doWrite, awaiting
    writeSchemaDeferred with the promises it took over.  A timer is set
    only when [writeScheduled] is clear, and a write under way keeps it
    set, so one of the three describes the writer. *)
Inductive activity :=
| Idle
| TimerSet
| Writing (promises : option (list nat)).

(** The fields writeSchema works with: [writePending], the promises of the
    requests not yet taken over by a write (absent when there is none), and
    [writeScheduled], whether the field holds a timer.  With them, what the
    writer is doing, the promises made (named by number) and resolved so
    far, and the number of completed calls of writeSchemaDeferred. *)
Record writer := {
  writePending : option (list nat);
  writeScheduled : bool;
  doing : activity;
  made : nat;
  resolved : list nat;
  written : nat
}.

Definition new_writer : writer :=
  {| writePending := None; writeScheduled := false; doing := Idle;
     made := 0; resolved := []; written := 0 |}.

(** What happens to the writer: writeSchema is called, the timer fires,
    writeSchemaDeferred returns, or it throws. *)
Inductive happening :=
| Call
| Fire
| Done
| Fail.

(** Schedule writing a new schema file, if changed: the call, with the
    promise it returns. *)
Definition writeSchema (w : writer) : nat * writer :=
  let id := made w in
  match writePending w with
  | Some ps =>
      (id, {| writePending := Some (ps ++ [id]);
              writeScheduled := writeScheduled w; doing := doing w;
              made := S id; resolved := resolved w; written := written w |})
  | None =>
      (id, {| writePending := Some [id];
              writeScheduled := true;
              doing := if writeScheduled w then doing w else TimerSet;
              made := S id; resolved := resolved w; written := written w |})
  end.

(** doWrite, from the timer to its await. *)
Definition doWrite_start (w : writer) : writer :=
  {| writePending := None; writeScheduled := writeScheduled w;
     doing := Writing (writePending w);
     made := made w; resolved := resolved w; written := written w |}.

(** doWrite, after writeSchemaDeferred has returned.  Without promises to
    go through, the loop over them raises and the rest is not run. *)
Definition doWrite_finish (promises : option (list nat)) (w : writer)
  : writer :=
  match promises with
  | None =>
      {| writePending := writePending w; writeScheduled := writeScheduled w;
         doing := Idle; made := made w; resolved := resolved w;
         written := S (written w) |}
  | Some ps =>
      match writePending w with
      | Some _ =>
          (* Schedule another write if required *)
          {| writePending := writePending w; writeScheduled := true;
             doing := TimerSet; made := made w;
             resolved := resolved w ++ ps; written := S (written w) |}
      | None =>
          {| writePending := None; writeScheduled := false;
             doing := Idle; made := made w;
             resolved := resolved w ++ ps; written := S (written w) |}
      end
  end.

(** doWrite, when writeSchemaDeferred has thrown: nothing more is run. *)
Definition doWrite_abandon (w : writer) : writer :=
  {| writePending := writePending w; writeScheduled := writeScheduled w;
     doing := Idle; made := made w; resolved := resolved w;
     written := written w |}.

(** One happening; a timer fires only when one is set, and
    writeSchemaDeferred ends only when it runs. *)
Definition step (h : happening) (w : writer) : writer :=
  match h, doing w with
  | Call, _ => snd (writeSchema w)
  | Fire, TimerSet => doWrite_start w
  | Done, Writing ps => doWrite_finish ps w
  | Fail, Writing _ => doWrite_abandon w
  | _, _ => w
  end.

Definition run (hs : list happening) (w : writer) : writer :=
  fold_left (fun w h => step h w) hs w.

(** [k] calls of writeSchema in a row. *)
Fixpoint calls (k : nat) : list happening :=
  match k with
  | O => []
  | S k' => Call :: calls k'
  end.

(** What holds of the writer along every run: a timer or a write under
    way has promises to resolve and keeps [writeScheduled] set, and
    requests wait only while it is set. *)
Definition sound (w : writer) : Prop :=
  match doing w with
  | Idle => writeScheduled w = false -> writePending w = None
  | TimerSet => writeScheduled w = true /\ writePending w <> None
  | Writing ps => writeScheduled w = true /\ ps <> None
  end.

(** The writer after writeSchemaDeferred has thrown: no timer, no write
    under way, and [writeScheduled] left set. *)
Definition stuck (w : writer) : Prop :=
  doing w = Idle /\ writeScheduled w = true.

End ConfigSchema.

(* ===================================================================== *)
(** ** Further concrete inputs *)
(* ===================================================================== *)

Module Scenarios.
Import JS HomeConnectAPI.

(** Two retry-after headers, read at times 0 and 10, in both orders. *)
Definition delays : list (Z * value) :=
  [(0, Str (lit "30")); (10, Str (lit "5"))].
Definition delays_swapped : list (Z * value) :=
  [(10, Str (lit "5")); (0, Str (lit "30"))].

(** The options of a request for the list of appliances. *)
Definition get_appliances : options :=
  appliances_options (lit "GET") [] [] Examples.authorised.

(** The error requestRaw throws on the rate limit response. *)
Definition rate_limited : error :=
  {| cause := StatusCodeError Examples.too_many_requests; retry := true |}.

(** The rate limit response without a retry-after header, and a turn of
    the world answering with it. *)
Definition undelayed : response :=
  {| statusCode := 429; headers := []; body := Examples.api_error (lit "429") |}.
Definition undelayed_turn : turn :=
  {| timer_late := 0; latency := 20;
     reply := Rejects (StatusCodeError undelayed) |}.

(** The rate limit response asking for 10 seconds. *)
Definition brief_limit : response :=
  {| statusCode := 429; headers := [(lit "retry-after", Str (lit "10"))];
     body := Examples.api_error (lit "429") |}.

(** The authorised client with the requests of two calls under way, that
    of the first answered at time 20 with the rate limit asking for 10
    seconds. *)
Definition limited_at_20 : api :=
  snd (requestRaw_settle get_appliances
         (Rejects (StatusCodeError brief_limit)) 20
         (requestRaw_issue (requestRaw_issue Examples.authorised))).

(** The request of the second call answered at time 25 with the rate limit
    asking for 30 seconds. *)
Definition limited_at_25 (st : api) : api :=
  snd (requestRaw_settle get_appliances
         (Rejects (StatusCodeError Examples.too_many_requests)) 25 st).

(** The next turn of the first call: it reads the earliest retry time at
    time 20, and the second call is answered while it sleeps. *)
Definition sleeper : attempt * (outcome * api + thrown) :=
  Interleaving.requestAppliances_turn get_appliances Examples.success_turn
    limited_at_25 20 limited_at_20.

(** A redirection, and a turn answering a PUT or DELETE request with
    it. *)
Definition moved : response :=
  {| statusCode := 302; headers := [(lit "location", Str (lit "/next"))];
     body := Undefined |}.
Definition moved_turn : turn :=
  {| timer_late := 0; latency := 20;
     reply := Rejects (StatusCodeError moved) |}.

(** A turn answering with success and no body. *)
Definition empty_turn : turn :=
  {| timer_late := 0; latency := 20; reply := Resolves Undefined |}.

(** A token granted for a day. *)
Definition granted : value :=
  Obj [(lit "access_token", Str (lit "A2"));
       (lit "refresh_token", Str (lit "R2"));
       (lit "expires_in", Number 86400 0)].

(** The answer of the token endpoint while the user has not authorised,
    and the answer of the device authorisation endpoint. *)
Definition pending : response :=
  {| statusCode := 400; headers := [];
     body := Examples.oauth_error (lit "authorization_pending") |}.
Definition verification : value :=
  Obj [(lit "device_code", Str (lit "D")); (lit "interval", Number 5 0)].

(** A record that names its scopes, and a live client constructed over
    it. *)
Definition monitor : Auth.t :=
  Auth.mk (Str (lit "R")) (Some (Str (lit "A"))) (Num 5000)
          (Some [lit "Monitor"]).
Definition monitoring : api :=
  new Examples.id false (<[Examples.id := monitor]> ∅) 0.

(** The authorised client, asleep until its token is to be refreshed. *)
Definition asleep : api := set_sleepReject (Some Pending) Examples.authorised.

(** A stream that is refused with the invalid_token error; its request
    emits data all the same. *)
Definition refused_inputs : list (stream_input * Z) :=
  [(Emits (OnResponse Examples.invalid_token), 1);
   (Emits (OnData Examples.notify_chunk), 2);
   (Emits (OnComplete Examples.invalid_token Undefined), 3)].

(** The times of three rounds of polling, five seconds apart. *)
Definition three_rounds : list (Z * Z) :=
  [(100, 5100); (5200, 10200); (10300, 15300)].

(** A writer inside doWrite with the promise of one request. *)
Definition writing : ConfigSchema.writer :=
  {| ConfigSchema.writePending := None;
     ConfigSchema.writeScheduled := true;
     ConfigSchema.doing := ConfigSchema.Writing (Some [0%nat]);
     ConfigSchema.made := 1;
     ConfigSchema.resolved := [];
     ConfigSchema.written := 0 |}.

End Scenarios.

(* ===================================================================== *)
(** ** Properties *)
(* ===================================================================== *)

Import JS HomeConnectAPI.

(** *** Strings and patterns *)

Section Strings.

Lemma str_eqb_eq (a b : jsstring) : str_eqb a b = true <-> a = b.
Proof.
  revert b; induction a as [|x a IH]; intros [|y b]; simpl;
    try (split; [discriminate | intros H; discriminate H]);
    try (split; reflexivity).
  rewrite andb_true_iff, N.eqb_eq, IH.
  split; [intros [-> ->]; reflexivity | intros H; injection H; auto].
Qed.

Lemma str_eqb_refl (a : jsstring) : str_eqb a a = true.
Proof. apply str_eqb_eq; reflexivity. Qed.

Lemma includes_In (l : list jsstring) (x : jsstring) :
  includes l x = true <-> In x l.
Proof.
  unfold includes. rewrite existsb_exists. split.
  - intros [y [Hy He]]. apply str_eqb_eq in He. subst. exact Hy.
  - intros H. exists x. split; [exact H | apply str_eqb_refl].
Qed.

Lemma span_app (p : N -> bool) (s a b : jsstring) :
  Patterns.span p s = (a, b) -> s = a ++ b /\ forallb p a = true.
Proof.
  revert a b; induction s as [|c s IH]; simpl; intros a b H.
  - injection H as <- <-. split; reflexivity.
  - destruct (p c) eqn:Hc.
    + destruct (Patterns.span p s) as [a' b'] eqn:Hs.
      injection H as <- <-. destruct (IH a' b' eq_refl) as [-> Ha].
      simpl. rewrite Hc, Ha. split; reflexivity.
    + injection H as <- <-. split; reflexivity.
Qed.

Lemma span_stop (p : N -> bool) (a : jsstring) (c : N) (b : jsstring) :
  forallb p a = true -> p c = false ->
  Patterns.span p (a ++ c :: b) = (a, c :: b).
Proof.
  induction a as [|x a IH]; simpl; intros Ha Hc.
  - rewrite Hc. reflexivity.
  - apply andb_true_iff in Ha as [Hx Ha]. rewrite Hx, (IH Ha Hc). reflexivity.
Qed.

Lemma span_head (p : N -> bool) (s a : jsstring) (c : N) (b : jsstring) :
  Patterns.span p s = (a, c :: b) -> p c = false.
Proof.
  revert a; induction s as [|x s IH]; simpl; intros a H.
  - discriminate H.
  - destruct (p x) eqn:Hx.
    + destruct (Patterns.span p s) as [a' b'] eqn:Hs.
      injection H as <- ->. apply (IH a' eq_refl).
    + injection H as <- -> ->. exact Hx.
Qed.

Lemma hyphens_app (a b : jsstring) :
  Patterns.hyphens (a ++ b) = (Patterns.hyphens a + Patterns.hyphens b)%nat.
Proof.
  unfold Patterns.hyphens. rewrite List.filter_app, length_app. reflexivity.
Qed.

Lemma hyphens_none (a : jsstring) :
  forallb Patterns.not_hyphen a = true <-> Patterns.hyphens a = 0%nat.
Proof.
  unfold Patterns.hyphens, Patterns.not_hyphen.
  induction a as [|x a IH]; [split; reflexivity|].
  cbn [forallb List.filter].
  rewrite (N.eqb_sym x Patterns.hyphen).
  destruct (N.eqb Patterns.hyphen x); cbn [negb andb length]; [|exact IH].
  split; discriminate.
Qed.

(** What the scope pattern matches: exactly the names made of two
    non-empty parts without hyphens, joined by one hyphen. *)
Lemma exec_scope_spec (scope row column : jsstring) :
  Patterns.exec_scope scope = Some (row, column) <->
  scope = row ++ Patterns.hyphen :: column
  /\ row <> [] /\ column <> []
  /\ Patterns.hyphens row = 0%nat /\ Patterns.hyphens column = 0%nat.
Proof.
  unfold Patterns.exec_scope. split.
  - destruct (Patterns.span Patterns.not_hyphen scope) as [a b] eqn:Hs.
    destruct a as [|x a]; [discriminate|].
    destruct b as [|c b]; [discriminate|].
    destruct b as [|y b]; [discriminate|].
    destruct (forallb Patterns.not_hyphen (y :: b)) eqn:Hb; [|discriminate].
    intros H; injection H as <- <-.
    pose proof (span_head _ _ _ _ _ Hs) as Hc.
    apply span_app in Hs as [-> Ha].
    unfold Patterns.not_hyphen in Hc. apply negb_false_iff, N.eqb_eq in Hc.
    subst c. repeat split; try discriminate; apply hyphens_none; assumption.
  - intros (-> & Hr & Hc & Hhr & Hhc).
    apply hyphens_none in Hhr, Hhc.
    rewrite (span_stop _ _ _ _ Hhr); [|reflexivity].
    destruct row as [|x row]; [contradiction|].
    destruct column as [|y column]; [contradiction|].
    rewrite Hhc. reflexivity.
Qed.

End Strings.

(** *** JSON.parse is total *)

Section JSONFuel.
Import JSON.

Lemma skip_ws_length (s : jsstring) : (length (skip_ws s) <= length s)%nat.
Proof.
  induction s as [|c s IH]; simpl; [lia|].
  destruct (is_ws c); simpl; lia.
Qed.

Lemma parse_chars_length (n : nat) :
  forall s str r, (length s <= n)%nat ->
    parse_chars s = Some (str, r) -> (length r < length s)%nat.
Proof.
  induction n as [|n IH]; intros s str r Hn H.
  - destruct s; [discriminate H|simpl in Hn; lia].
  - destruct s as [|c s]; [discriminate H|]. simpl in Hn.
    cbn [parse_chars] in H.
    destruct (c =? quote)%N.
    { injection H as <- <-. simpl. lia. }
    destruct (c =? ch "\")%N.
    + destruct s as [|e r1]; [discriminate H|].
      destruct (e =? ch "u")%N.
      * destruct r1 as [|h1 [|h2 [|h3 [|h4 r2]]]]; try discriminate H.
        destruct (hex_digit h1), (hex_digit h2), (hex_digit h3), (hex_digit h4);
          try discriminate H.
        destruct (parse_chars r2) as [[str' r']|] eqn:E; [|discriminate H].
        injection H as <- <-.
        apply IH in E; simpl in *; lia.
      * destruct (unescape e); [|discriminate H].
        destruct (parse_chars r1) as [[str' r']|] eqn:E; [|discriminate H].
        injection H as <- <-.
        apply IH in E; simpl in *; lia.
    + destruct (c <? 32)%N; [discriminate H|].
      destruct (parse_chars s) as [[str' r']|] eqn:E; [|discriminate H].
      injection H as <- <-.
      apply IH in E; simpl in *; lia.
Qed.

Lemma digits_length (s : jsstring) :
  (length (snd (digits s)) <= length s)%nat.
Proof.
  induction s as [|c s IH]; simpl; [lia|].
  destruct (is_digit c); [|simpl; lia].
  destruct (digits s) as [ds rest]. simpl in *. lia.
Qed.

Lemma parse_number_length (s : jsstring) (v : value) (r : jsstring) :
  parse_number s = Ok v r -> (length r < length s)%nat.
Proof.
  unfold parse_number.
  set (p := match s with
            | c :: r0 => if (c =? ch "-")%N then (true, r0) else (false, s)
            | [] => (false, s)
            end).
  assert (Hp : (length (snd p) <= length s)%nat).
  { subst p. destruct s as [|c s0]; [simpl; lia|].
    destruct (c =? ch "-")%N; simpl; lia. }
  destruct p as [neg s1]. simpl in Hp.
  destruct (parse_int s1) as [[ip s2]|] eqn:Hi; [|discriminate].
  assert (H2 : (length s2 < length s1)%nat).
  { unfold parse_int in Hi. destruct s1 as [|c s1']; [discriminate Hi|].
    destruct (c =? ch "0")%N.
    - injection Hi as <- <-. simpl. lia.
    - destruct (is_digit c) eqn:Hd; [|discriminate Hi].
      injection Hi as Hi. simpl in Hi. rewrite Hd in Hi.
      pose proof (digits_length s1') as Hl.
      destruct (digits s1') as [ds rest]. injection Hi as <- <-. simpl in *. lia. }
  destruct (parse_frac s2) as [[fs s3]|] eqn:Hf; [|discriminate].
  assert (H3 : (length s3 <= length s2)%nat).
  { unfold parse_frac in Hf. destruct s2 as [|c s2']; [injection Hf as <- <-; simpl; lia|].
    destruct (c =? ch ".")%N.
    - pose proof (digits_length s2') as Hl.
      destruct (digits s2') as [[|d ds] rest]; [discriminate Hf|].
      injection Hf as <- <-. simpl in *. lia.
    - injection Hf as <- <-. simpl. lia. }
  destruct (parse_exp s3) as [[e s4]|] eqn:He; [|discriminate].
  assert (H4 : (length s4 <= length s3)%nat).
  { unfold parse_exp in He. destruct s3 as [|c s3']; [injection He as <- <-; simpl; lia|].
    destruct ((c =? ch "e") || (c =? ch "E"))%N.
    - set (q := match s3' with
                | sg :: r' =>
                    if (sg =? ch "-")%N then (true, r')
                    else if (sg =? ch "+")%N then (false, r') else (false, s3')
                | [] => (false, s3')
                end) in He.
      assert (Hq : (length (snd q) <= length s3')%nat).
      { subst q. destruct s3' as [|sg r']; [simpl; lia|].
        destruct (sg =? ch "-")%N; [simpl; lia|].
        destruct (sg =? ch "+")%N; simpl; lia. }
      destruct q as [ng r1]. simpl in Hq.
      pose proof (digits_length r1) as Hl.
      destruct (digits r1) as [[|d ds] rest]; [discriminate He|].
      injection He as <- <-. simpl in *. lia.
    - injection He as <- <-. simpl. lia. }
  intros H; injection H as <- <-. lia.
Qed.

Lemma strip_prefix_length (p s r : jsstring) :
  strip_prefix p s = Some r -> (length r + length p = length s)%nat.
Proof.
  revert s; induction p as [|a p IH]; intros s H; simpl in H.
  - injection H as <-. simpl. lia.
  - destruct s as [|b s]; [discriminate H|].
    destruct (a =? b)%N; [|discriminate H].
    apply IH in H. simpl. lia.
Qed.

Lemma parse_keyword_length (s : jsstring) (v : value) (r : jsstring) :
  parse_keyword s = Ok v r -> (length r < length s)%nat.
Proof.
  unfold parse_keyword.
  destruct (strip_prefix (lit "true") s) eqn:E1.
  { intros H; injection H as <- <-. apply strip_prefix_length in E1. simpl in E1. lia. }
  destruct (strip_prefix (lit "false") s) eqn:E2.
  { intros H; injection H as <- <-. apply strip_prefix_length in E2. simpl in E2. lia. }
  destruct (strip_prefix (lit "null") s) eqn:E3; [|discriminate].
  intros H; injection H as <- <-. apply strip_prefix_length in E3. simpl in E3. lia.
Qed.

Lemma parse_number_fuel (s : jsstring) : parse_number s <> OutOfFuel.
Proof.
  unfold parse_number.
  destruct (match s with
            | c :: r0 => if (c =? ch "-")%N then (true, r0) else (false, s)
            | [] => (false, s)
            end) as [neg s1].
  destruct (parse_int s1) as [[ip s2]|]; [|discriminate].
  destruct (parse_frac s2) as [[fs s3]|]; [|discriminate].
  destruct (parse_exp s3) as [[e s4]|]; discriminate.
Qed.

Lemma parse_keyword_fuel (s : jsstring) : parse_keyword s <> OutOfFuel.
Proof.
  unfold parse_keyword.
  destruct (strip_prefix (lit "true") s); [discriminate|].
  destruct (strip_prefix (lit "false") s); [discriminate|].
  destruct (strip_prefix (lit "null") s); discriminate.
Qed.

Lemma parse_length (fuel : nat) :
  (forall s v r, parse_value fuel s = Ok v r -> (length r < length s)%nat)
  /\ (forall acc s v r,
        parse_elements fuel acc s = Ok v r -> (length r < length s)%nat)
  /\ (forall acc s v r,
        parse_members fuel acc s = Ok v r -> (length r < length s)%nat).
Proof.
  induction fuel as [|fuel (IHv & IHe & IHm)].
  - repeat split; intros; discriminate.
  - repeat split.
    + intros s v r H. cbn [parse_value] in H.
      pose proof (skip_ws_length s) as Hs.
      destruct (skip_ws s) as [|c r0]; [discriminate H|]. cbn [length] in Hs.
      destruct (c =? ch "{")%N.
      { pose proof (skip_ws_length r0) as Hs0.
        destruct (skip_ws r0) as [|c2 r2]; [discriminate H|]. cbn [length] in Hs0.
        destruct (c2 =? ch "}")%N.
        - injection H as <- <-. lia.
        - apply IHm in H. lia. }
      destruct (c =? ch "[")%N.
      { pose proof (skip_ws_length r0) as Hs0.
        destruct (skip_ws r0) as [|c2 r2]; [discriminate H|]. cbn [length] in Hs0.
        destruct (c2 =? ch "]")%N.
        - injection H as <- <-. lia.
        - apply IHe in H. lia. }
      destruct (c =? quote)%N.
      { destruct (parse_chars r0) as [[str r']|] eqn:E; [|discriminate H].
        injection H as <- <-.
        apply (parse_chars_length (length r0)) in E; lia. }
      destruct ((c =? ch "-") || is_digit c)%N.
      { apply parse_number_length in H. cbn [length] in H. lia. }
      apply parse_keyword_length in H. cbn [length] in H. lia.
    + intros acc s v r H. cbn [parse_elements] in H.
      destruct (parse_value fuel s) as [v0 r0| |] eqn:E; try discriminate H.
      apply IHv in E.
      pose proof (skip_ws_length r0) as Hs0.
      destruct (skip_ws r0) as [|c r']; [discriminate H|]. cbn [length] in Hs0.
      destruct (c =? ch ",")%N.
      { apply IHe in H. lia. }
      destruct (c =? ch "]")%N; [|discriminate H].
      injection H as <- <-. lia.
    + intros acc s v r H. cbn [parse_members] in H.
      pose proof (skip_ws_length s) as Hs.
      destruct (skip_ws s) as [|q r0]; [discriminate H|]. cbn [length] in Hs.
      destruct (q =? quote)%N; [|discriminate H].
      destruct (parse_chars r0) as [[k r1]|] eqn:Ek; [|discriminate H].
      apply (parse_chars_length (length r0)) in Ek; [|lia].
      pose proof (skip_ws_length r1) as Hs1.
      destruct (skip_ws r1) as [|c r2]; [discriminate H|]. cbn [length] in Hs1.
      destruct (c =? ch ":")%N; [|discriminate H].
      destruct (parse_value fuel r2) as [v0 r3| |] eqn:E; try discriminate H.
      apply IHv in E.
      pose proof (skip_ws_length r3) as Hs3.
      destruct (skip_ws r3) as [|c4 r4]; [discriminate H|]. cbn [length] in Hs3.
      destruct (c4 =? ch ",")%N.
      { apply IHm in H. lia. }
      destruct (c4 =? ch "}")%N; [|discriminate H].
      injection H as <- <-. lia.
Qed.

Lemma parse_fuel (fuel : nat) :
  (forall s, (2 * length s + 2 <= fuel)%nat -> parse_value fuel s <> OutOfFuel)
  /\ (forall acc s, (2 * length s + 3 <= fuel)%nat ->
        parse_elements fuel acc s <> OutOfFuel)
  /\ (forall acc s, (2 * length s + 3 <= fuel)%nat ->
        parse_members fuel acc s <> OutOfFuel).
Proof.
  induction fuel as [|fuel (IHv & IHe & IHm)].
  - repeat split; intros; lia.
  - repeat split.
    + intros s Hf. cbn [parse_value].
      pose proof (skip_ws_length s) as Hs.
      destruct (skip_ws s) as [|c r0]; [discriminate|]. cbn [length] in Hs.
      destruct (c =? ch "{")%N.
      { destruct (skip_ws r0) as [|c2 r2]; [discriminate|].
        destruct (c2 =? ch "}")%N; [discriminate|]. apply IHm. lia. }
      destruct (c =? ch "[")%N.
      { destruct (skip_ws r0) as [|c2 r2]; [discriminate|].
        destruct (c2 =? ch "]")%N; [discriminate|]. apply IHe. lia. }
      destruct (c =? quote)%N.
      { destruct (parse_chars r0) as [[str r']|]; discriminate. }
      destruct ((c =? ch "-") || is_digit c)%N.
      { apply parse_number_fuel. }
      apply parse_keyword_fuel.
    + intros acc s Hf. cbn [parse_elements].
      destruct (parse_value fuel s) as [v0 r0| |] eqn:E.
      * apply (proj1 (parse_length fuel)) in E.
        pose proof (skip_ws_length r0) as Hs0.
        destruct (skip_ws r0) as [|c r']; [discriminate|]. cbn [length] in Hs0.
        destruct (c =? ch ",")%N; [apply IHe; lia|].
        destruct (c =? ch "]")%N; discriminate.
      * discriminate.
      * exfalso. revert E. apply IHv. lia.
    + intros acc s Hf. cbn [parse_members].
      pose proof (skip_ws_length s) as Hs.
      destruct (skip_ws s) as [|q r0]; [discriminate|]. cbn [length] in Hs.
      destruct (q =? quote)%N; [|discriminate].
      destruct (parse_chars r0) as [[k r1]|] eqn:Ek; [|discriminate].
      apply (parse_chars_length (length r0)) in Ek; [|lia].
      pose proof (skip_ws_length r1) as Hs1.
      destruct (skip_ws r1) as [|c r2]; [discriminate|]. cbn [length] in Hs1.
      destruct (c =? ch ":")%N; [|discriminate].
      destruct (parse_value fuel r2) as [v0 r3| |] eqn:E.
      * apply (proj1 (parse_length fuel)) in E.
        pose proof (skip_ws_length r3) as Hs3.
        destruct (skip_ws r3) as [|c4 r4]; [discriminate|]. cbn [length] in Hs3.
        destruct (c4 =? ch ",")%N; [apply IHm; lia|].
        destruct (c4 =? ch "}")%N; discriminate.
      * discriminate.
      * exfalso. revert E. apply IHv. lia.
Qed.

(** JSON.parse never runs out of fuel: what it does not accept is a syntax
    error. *)
Lemma parse_fuel_enough (s : jsstring) :
  parse_value (fuel_for s) s <> OutOfFuel.
Proof. apply parse_fuel. unfold fuel_for. lia. Qed.

End JSONFuel.

(** *** Scopes *)

Section Scopes.

Variable st : api.

(** C4.  hasScope answers true exactly when the name is one of the scopes
    held, or is made of a row and a column (two non-empty parts without
    hyphens joined by a hyphen) of which one is held.  For "Oven-Control"
    that is: exactly when "Oven-Control", "Oven" or "Control" is held. *)
Theorem C4_hasScope_row_or_column :
  (forall scope : jsstring,
     hasScope scope st = true <->
     In scope (scopes st)
     \/ exists row column : jsstring,
          scope = row ++ Patterns.hyphen :: column
          /\ row <> [] /\ column <> []
          /\ Patterns.hyphens row = 0%nat /\ Patterns.hyphens column = 0%nat
          /\ (In row (scopes st) \/ In column (scopes st)))
  /\ (hasScope (lit "Oven-Control") st = true <->
      In (lit "Oven-Control") (scopes st)
      \/ In (lit "Oven") (scopes st) \/ In (lit "Control") (scopes st)).
Proof.
  assert (Hgen : forall scope : jsstring,
     hasScope scope st = true <->
     In scope (scopes st)
     \/ exists row column : jsstring,
          scope = row ++ Patterns.hyphen :: column
          /\ row <> [] /\ column <> []
          /\ Patterns.hyphens row = 0%nat /\ Patterns.hyphens column = 0%nat
          /\ (In row (scopes st) \/ In column (scopes st))).
  { intros scope. unfold hasScope.
    destruct (includes (scopes st) scope) eqn:Hi.
    - apply includes_In in Hi. split; auto.
    - assert (Hn : ~ In scope (scopes st)).
      { intros H. apply includes_In in H. congruence. }
      destruct (Patterns.exec_scope scope) as [[row column]|] eqn:He.
      + pose proof (proj1 (exec_scope_spec _ _ _) He) as (Hs & Hr & Hc & Hhr & Hhc).
        destruct (includes (scopes st) row) eqn:Hir.
        * apply includes_In in Hir. split; [|reflexivity].
          intros _. right. exists row, column. repeat split; auto.
        * destruct (includes (scopes st) column) eqn:Hic.
          -- apply includes_In in Hic. split; [|reflexivity].
             intros _. right. exists row, column. repeat split; auto.
          -- split; [discriminate|].
             intros [H|(row' & column' & Hs' & Hr' & Hc' & Hhr' & Hhc' & Hin)];
               [contradiction|].
             assert (He' : Patterns.exec_scope scope = Some (row', column'))
               by (apply exec_scope_spec; auto).
             rewrite He in He'. injection He' as <- <-.
             destruct Hin as [H|H]; apply includes_In in H; congruence.
      + split; [discriminate|].
        intros [H|(row' & column' & Hs' & Hr' & Hc' & Hhr' & Hhc' & Hin)];
          [contradiction|].
        assert (He' : Patterns.exec_scope scope = Some (row', column'))
          by (apply exec_scope_spec; auto).
        congruence. }
  split; [exact Hgen|].
  unfold hasScope.
  change (Patterns.exec_scope (lit "Oven-Control"))
    with (Some (lit "Oven", lit "Control")).
  destruct (includes (scopes st) (lit "Oven-Control")) eqn:H1;
    [apply includes_In in H1; tauto|].
  destruct (includes (scopes st) (lit "Oven")) eqn:H2;
    [apply includes_In in H2; tauto|].
  destruct (includes (scopes st) (lit "Control")) eqn:H3;
    [apply includes_In in H3; tauto|].
  split; [discriminate|].
  intros [H|[H|H]]; apply includes_In in H; congruence.
Qed.

(** C10.  For a name with two hyphens or more the pattern of rows and
    columns does not apply: hasScope answers as the literal membership of
    the whole name does. *)
Theorem C10_hasScope_two_hyphens (scope : jsstring)
    (H : (2 <= Patterns.hyphens scope)%nat) :
  Patterns.exec_scope scope = None
  /\ hasScope scope st = includes (scopes st) scope.
Proof.
  assert (He : Patterns.exec_scope scope = None).
  { destruct (Patterns.exec_scope scope) as [[row column]|] eqn:He;
      [|reflexivity].
    apply exec_scope_spec in He as (-> & _ & _ & Hr & Hc).
    rewrite hyphens_app in H.
    change (Patterns.hyphen :: column) with ([Patterns.hyphen] ++ column) in H.
    rewrite hyphens_app, Hr, Hc in H. simpl in H. lia. }
  split; [exact He|].
  unfold hasScope. rewrite He.
  destruct (includes (scopes st) scope); reflexivity.
Qed.

End Scopes.

(** A name with two hyphens, and a state holding its last part only. *)
Lemma C10_hasScope_two_hyphens_witness :
  Patterns.exec_scope (lit "A-B-C") = None
  /\ hasScope (lit "A-B-C") Examples.holding_C
     = includes (scopes Examples.holding_C) (lit "A-B-C").
Proof.
  apply (C10_hasScope_two_hyphens Examples.holding_C (lit "A-B-C")).
  vm_compute. lia.
Defined.

(** *** Waiting for authorisation *)

(** C5.  With a record whose access token is a non-empty string and whose
    expiry lies in the future, waitUntilAuthorised returns the resolved
    promise and leaves the object as it is: no request is counted and no
    resolver joins the queue. *)
Theorem C5_waitUntilAuthorised_resolves (now expires : Z) (st : api)
    (auth : Auth.t) (token : jsstring)
    (Hsaved : savedAuth st !! clientID st = Some auth)
    (Htoken : Auth.accessToken auth = Some (Str token))
    (Hnonempty : token <> [])
    (Hexpires : Auth.accessExpires auth = Num expires)
    (Hfuture : now < expires) :
  waitUntilAuthorised now st = (Resolved, st)
  /\ requestCount (snd (waitUntilAuthorised now st)) = requestCount st
  /\ authResolve (snd (waitUntilAuthorised now st)) = authResolve st.
Proof.
  assert (E : waitUntilAuthorised now st = (Resolved, st)).
  { unfold waitUntilAuthorised, read_accessToken.
    rewrite Hsaved, Htoken, Hexpires. simpl.
    destruct token as [|c token]; [contradiction|].
    apply Z.ltb_lt in Hfuture. rewrite Hfuture. reflexivity. }
  rewrite E. repeat split.
Qed.

(** A client authorised until time 5000, asked at time 10. *)
Lemma C5_waitUntilAuthorised_resolves_witness :
  waitUntilAuthorised 10 Examples.authorised = (Resolved, Examples.authorised)
  /\ requestCount (snd (waitUntilAuthorised 10 Examples.authorised))
     = requestCount Examples.authorised
  /\ authResolve (snd (waitUntilAuthorised 10 Examples.authorised))
     = authResolve Examples.authorised.
Proof.
  apply (C5_waitUntilAuthorised_resolves 10 5000 Examples.authorised
           Examples.saved (lit "A")).
  - reflexivity.
  - reflexivity.
  - discriminate.
  - reflexivity.
  - lia.
Defined.

(** *** The rate limit *)

(** Case analysis on every condition of a nest of conditionals. *)
Ltac case_conditions :=
  repeat match goal with
         | |- context [if ?b then _ else _] => destruct b
         end.

Section RateLimit.

Lemma retryAfter_monotone (now : Z) (delaySeconds : value) (st : api) :
  earliestRetry st <= earliestRetry (retryAfter now delaySeconds st).
Proof.
  unfold retryAfter.
  destruct (num_add (Num now) (num_mul (to_number delaySeconds) (Num MS)))
    as [|t]; simpl; [lia|].
  destruct (earliestRetry st <? t) eqn:E; simpl; [|lia].
  apply Z.ltb_lt in E. lia.
Qed.

(** retryAfter changes nothing but the earliest retry time. *)
Lemma retryAfter_frame (now : Z) (delaySeconds : value) (st : api) :
  retryAfter now delaySeconds st
  = set_earliestRetry (earliestRetry (retryAfter now delaySeconds st)) st.
Proof.
  unfold retryAfter.
  destruct (num_lt _ _); [|destruct st; reflexivity].
  destruct (num_add _ _); destruct st; reflexivity.
Qed.

Lemma retryAfter_reaches (now n : Z) (delaySeconds : value) (st : api) :
  to_number delaySeconds = Num n ->
  now + n * MS <= earliestRetry (retryAfter now delaySeconds st).
Proof.
  intros H. unfold retryAfter. rewrite H. simpl.
  destruct (earliestRetry st <? now + n * MS) eqn:E; simpl.
  - lia.
  - apply Z.ltb_ge in E. lia.
Qed.


Lemma authInvalidate_earliestRetry (st : api) :
  earliestRetry (authInvalidate st) = earliestRetry st.
Proof.
  unfold authInvalidate, wake. simpl.
  destruct (sleepReject st) as [[| |]|]; reflexivity.
Qed.

Lemma tokenInvalidate_earliestRetry (st : api) :
  earliestRetry (tokenInvalidate st) = earliestRetry st.
Proof.
  unfold tokenInvalidate, wake. simpl.
  destruct (sleepReject st) as [[| |]|]; reflexivity.
Qed.

(** No settlement of a request moves the earliest retry time backwards. *)
Lemma requestRaw_settle_monotone (opts : options) (reply : settlement)
    (now : Z) (st : api) :
  earliestRetry st <= earliestRetry (snd (requestRaw_settle opts reply now st)).
Proof.
  unfold requestRaw_settle.
  destruct reply as [v|[r|]]; simpl; try lia.
  case_conditions; simpl;
    rewrite ?authInvalidate_earliestRetry, ?tokenInvalidate_earliestRetry;
    try lia.
  apply retryAfter_monotone.
Qed.

Lemma requestRaw_monotone (opts : options) (reply : settlement)
    (now : Z) (st : api) :
  earliestRetry st <= earliestRetry (snd (requestRaw opts reply now st)).
Proof.
  unfold requestRaw.
  etransitivity; [|apply requestRaw_settle_monotone]. simpl. lia.
Qed.

Lemma after_rate_limit_waits (late now : Z) (st : api) :
  earliestRetry st <= after_rate_limit late now st
  /\ now <= after_rate_limit late now st.
Proof.
  unfold after_rate_limit.
  destruct (0 <? earliestRetry st - now) eqn:E.
  - apply Z.ltb_lt in E. lia.
  - apply Z.ltb_ge in E. lia.
Qed.

(** Every attempt of a call is issued no earlier than the limit it read,
    no earlier than the call started, and no earlier than the limit the
    call started with. *)
Lemma requestAppliances_loop_waits (opts : options) (world : list turn) :
  forall (now : Z) (st : api),
    Forall (fun a => limit a <= issued a
                     /\ earliestRetry st <= limit a
                     /\ now <= issued a)
           (attempts (requestAppliances_loop opts world now st)).
Proof.
  induction world as [|w world IH]; intros now st; simpl; [constructor|].
  pose proof (after_rate_limit_waits (timer_late w) now st) as [H1 H2].
  destruct (getAuthorisation st) as [tok|e]; simpl; [|constructor].
  pose proof (requestRaw_monotone opts (reply w)
                (after_rate_limit (timer_late w) now st + Z.max 0 (latency w))
                st) as Hm.
  destruct (requestRaw opts (reply w) _ st) as [[body|err] st'] eqn:E; simpl in *.
  - constructor; [simpl; lia|constructor].
  - destruct (retry err); simpl.
    + constructor; [simpl; lia|].
      eapply List.Forall_impl; [|apply IH].
      intros a (Ha & Hb & Hc). simpl in *. lia.
    + constructor; [simpl; lia|constructor].
Qed.

(** The handlers of a stream leave the earliest retry time alone. *)
Lemma requestStreamRaw_on_earliestRetry (ev : stream_event) (now : Z)
    (st : api) (s : stream) :
  match requestStreamRaw_on ev now (st, s) with
  | Normal (st', _) | Abrupt _ (st', _) => earliestRetry st' = earliestRetry st
  end.
Proof.
  destruct ev as [|r|chunk|r body]; cbn [requestStreamRaw_on]; try reflexivity.
  - destruct (attached s); [|reflexivity].
    destruct (each_line _ s); reflexivity.
  - case_conditions; try reflexivity; apply tokenInvalidate_earliestRetry.
Qed.

Lemma requestStream_earliestRetry (ins : list (stream_input * Z)) :
  forall (st : api) (s : stream),
  match requestStream ins (st, s) with
  | Normal (st', _) | Abrupt _ (st', _) => earliestRetry st' = earliestRetry st
  end.
Proof.
  induction ins as [|[[ev|] now] ins IH]; intros st s;
    cbn [requestStream fst snd].
  - reflexivity.
  - pose proof (requestStreamRaw_on_earliestRetry ev now st s) as He.
    destruct (requestStreamRaw_on ev now (st, s)) as [[st' s']|x [st' s']];
      [|exact He].
    specialize (IH st' s').
    destruct (requestStream ins (st', s')) as [[st2 s2]|x [st2 s2]]; congruence.
  - apply IH.
Qed.

(** Every attempt of getEvents is issued no earlier than the limit it
    read. *)
Lemma getEvents_waits (world : list events_turn) :
  forall (now : Z) (st : api),
    Forall (fun a => limit a <= issued a /\ earliestRetry st <= limit a)
           (events_attempts (getEvents world now st)).
Proof.
  induction world as [|w world IH]; intros now st; cbn [getEvents];
    [constructor|].
  pose proof (after_rate_limit_waits (gate_late w) now st) as [H1 _].
  destruct (getAuthorisation st); [|constructor].
  pose proof (requestStream_earliestRetry (inputs w) (requestRaw_issue st)
                new_stream) as He.
  destruct (requestStream (inputs w) (requestRaw_issue st, new_stream))
    as [[st' s]|x [st' s]].
  - destruct (result s) as [| |e];
      try (constructor; [simpl; lia|constructor]).
    destruct (stream_retry e); [|constructor; [simpl; lia|constructor]].
    constructor; [simpl; lia|].
    eapply List.Forall_impl; [|apply IH].
    intros a [Ha Hb]. simpl in He. split; [exact Ha|lia].
  - constructor; [simpl; lia|constructor].
Qed.


End RateLimit.

(** *** Classification of error responses *)

Section Classification.

Lemma get_truthy (v : value) (k : jsstring) :
  truthy (get v k) = true -> truthy v = true.
Proof. destruct v; simpl; try discriminate; reflexivity. Qed.

Lemma get_Str_truthy (v : value) (k s : jsstring) :
  get v k = Str s -> truthy v = true.
Proof. destruct v; simpl; try discriminate; reflexivity. Qed.

Lemma wake_savedAuth (st : api) : savedAuth (wake st) = savedAuth st.
Proof. unfold wake. destruct (sleepReject st) as [[| |]|]; reflexivity. Qed.

Lemma wake_frame (st : api) :
  clientID (wake st) = clientID st /\ simulator (wake st) = simulator st
  /\ scopes (wake st) = scopes st /\ authResolve (wake st) = authResolve st
  /\ promises (wake st) = promises st
  /\ earliestRetry (wake st) = earliestRetry st
  /\ requestCount (wake st) = requestCount st.
Proof.
  unfold wake. destruct (sleepReject st) as [[| |]|]; repeat split.
Qed.

(** How requestRaw settles on an appliances API error with the key
    invalid_token. *)
Lemma settle_invalid_token (opts : options) (r : response) (now : Z) (st : api) :
  redirected opts r = false ->
  is_api_error (inspected opts r) (lit "invalid_token") ->
  requestRaw_settle opts (Rejects (StatusCodeError r)) now st
  = (Throw {| cause := StatusCodeError r; retry := false |}, tokenInvalidate st).
Proof.
  intros Hred [Hdesc Hkey]. unfold requestRaw_settle. rewrite Hred, Hdesc.
  pose proof (get_Str_truthy _ _ _ Hkey) as He.
  rewrite (get_truthy _ _ He), He, Hkey. reflexivity.
Qed.

(** How requestRaw settles on an appliances API error with the key 429. *)
Lemma settle_429 (opts : options) (r : response) (now : Z) (st : api) :
  redirected opts r = false ->
  is_api_error (inspected opts r) (lit "429") ->
  requestRaw_settle opts (Rejects (StatusCodeError r)) now st
  = (Throw {| cause := StatusCodeError r; retry := true |},
     retryAfter now (header r (lit "retry-after")) st).
Proof.
  intros Hred [Hdesc Hkey]. unfold requestRaw_settle. rewrite Hred, Hdesc.
  pose proof (get_Str_truthy _ _ _ Hkey) as He.
  rewrite (get_truthy _ _ He), He, Hkey. reflexivity.
Qed.

(** How requestRaw settles on an OAuth error with the code invalid_grant or
    expired_token. *)
Lemma settle_grant_rejected (opts : options) (r : response) (code : jsstring)
    (now : Z) (st : api) :
  redirected opts r = false ->
  is_oauth_error (inspected opts r) code ->
  code = lit "invalid_grant" \/ code = lit "expired_token" ->
  requestRaw_settle opts (Rejects (StatusCodeError r)) now st
  = (Throw {| cause := StatusCodeError r; retry := false |}, authInvalidate st).
Proof.
  intros Hred [Hdesc Hcode] Hc. unfold requestRaw_settle.
  rewrite Hred, (get_truthy _ _ Hdesc), Hdesc, Hcode.
  destruct Hc as [-> | ->]; reflexivity.
Qed.

(** C1.  When a request fails with an appliances API error whose key is
    invalid_token, the record saved for the client id loses its access
    token and nothing else: it is still there, with the same refresh token,
    expiry and scopes; no record is made where there was none, the records
    of other ids and the rest of the object stay as they were, and the
    error is thrown without the retry mark. *)
Theorem C1_invalid_token_clears_access_token_only
    (opts : options) (r : response) (now : Z) (st : api)
    (Hred : redirected opts r = false)
    (Hbody : is_api_error (inspected opts r) (lit "invalid_token")) :
  let out := requestRaw_settle opts (Rejects (StatusCodeError r)) now st in
  fst out = Throw {| cause := StatusCodeError r; retry := false |}
  /\ (forall auth : Auth.t,
        savedAuth st !! clientID st = Some auth ->
        savedAuth (snd out) !! clientID st
        = Some (Auth.mk (Auth.refreshToken auth) None
                        (Auth.accessExpires auth) (Auth.scopes auth)))
  /\ (savedAuth st !! clientID st = None ->
      savedAuth (snd out) !! clientID st = None)
  /\ (forall other : jsstring,
        other <> clientID st ->
        savedAuth (snd out) !! other = savedAuth st !! other)
  /\ clientID (snd out) = clientID st
  /\ scopes (snd out) = scopes st
  /\ earliestRetry (snd out) = earliestRetry st
  /\ requestCount (snd out) = requestCount st.
Proof.
  intros out. subst out. rewrite (settle_invalid_token _ _ _ _ Hred Hbody).
  cbn [fst snd]. unfold tokenInvalidate.
  destruct (wake_frame (set_savedAuth
              (alter delete_accessToken (clientID st) (savedAuth st)) st))
    as (Hid & _ & Hsc & _ & _ & Her & Hrc).
  rewrite wake_savedAuth, Hid, Hsc, Her, Hrc. cbn.
  repeat split.
  - intros auth Ha. rewrite lookup_alter_eq, Ha. reflexivity.
  - intros Hn. rewrite lookup_alter_eq, Hn. reflexivity.
  - intros other Ho. apply lookup_alter_ne. congruence.
Qed.

(** The authorised client, answered with the invalid_token error. *)
Lemma C1_invalid_token_clears_access_token_only_witness :
  savedAuth
    (snd (requestRaw_settle (appliances_options (lit "GET") [] [] Examples.authorised)
            (Rejects (StatusCodeError Examples.invalid_token)) 10
            Examples.authorised))
    !! Examples.id
  = Some (Auth.mk (Str (lit "R")) None (Num 5000) None).
Proof.
  assert (Hred : redirected (appliances_options (lit "GET") [] [] Examples.authorised)
                           Examples.invalid_token = false) by reflexivity.
  assert (Hbody : is_api_error
                    (inspected (appliances_options (lit "GET") [] [] Examples.authorised)
                               Examples.invalid_token)
                    (lit "invalid_token")) by (split; reflexivity).
  exact (proj1 (proj2 (C1_invalid_token_clears_access_token_only
                         (appliances_options (lit "GET") [] [] Examples.authorised)
                         Examples.invalid_token 10 Examples.authorised
                         Hred Hbody))
               Examples.saved eq_refl).
Defined.

End Classification.

(** *** The authorisation state machine *)

Section Authorisation.

Lemma authInvalidate_lookup (st : api) :
  savedAuth (authInvalidate st) = delete (clientID st) (savedAuth st)
  /\ clientID (authInvalidate st) = clientID st
  /\ simulator (authInvalidate st) = simulator st
  /\ requestCount (authInvalidate st) = requestCount st.
Proof.
  unfold authInvalidate.
  destruct (wake_frame (set_savedAuth (delete (clientID st) (savedAuth st)) st))
    as (Hid & Hsim & _ & _ & _ & _ & Hrc).
  rewrite wake_savedAuth, Hid, Hsim, Hrc. repeat split.
Qed.

(** The catch block of authoriseClient when no record is saved: the long
    delay, and still no record. *)
Lemma authorise_catch_unsaved (st : api) :
  savedAuth st !! clientID st = None ->
  snd (authorise_catch st) = RetrySleep (AUTH_RETRY_DELAY * MS)
  /\ savedAuth (fst (authorise_catch st)) !! clientID st = None
  /\ clientID (fst (authorise_catch st)) = clientID st
  /\ simulator (fst (authorise_catch st)) = simulator st
  /\ requestCount (fst (authorise_catch st)) = requestCount st.
Proof.
  intros Hn. unfold authorise_catch, tokenInvalidate.
  destruct (wake_frame (set_savedAuth
              (alter delete_accessToken (clientID st) (savedAuth st)) st))
    as (Hid & Hsim & _ & _ & _ & _ & Hrc).
  cbn [fst snd]. rewrite wake_savedAuth, Hid, Hsim, Hrc. cbn.
  rewrite lookup_alter_eq, Hn. repeat split.
Qed.

(** C2.  When a request to an OAuth endpoint fails with the error code
    invalid_grant or expired_token, requestRaw deletes the whole record
    saved for the client id.  When that request is the one authoriseClient
    awaits from the token endpoint, authoriseClient goes to its retry sleep
    of AUTH_RETRY_DELAY seconds with no record saved, and when that sleep
    is over it starts the authorisation flow again: it issues the first
    request of the device flow (of the code grant flow for the simulator),
    still with no record. *)
Theorem C2_grant_rejection_discards_record_and_restarts
    (r : response) (code : jsstring) (st : api)
    (Hcode : code = lit "invalid_grant" \/ code = lit "expired_token") :
  (forall (opts : options) (now : Z),
     redirected opts r = false ->
     is_oauth_error (inspected opts r) code ->
     savedAuth (snd (requestRaw_settle opts (Rejects (StatusCodeError r)) now st))
     = delete (clientID st) (savedAuth st))
  /\ (forall (c : ctl) (now now' : Z),
        awaits_token c = true ->
        redirected (token_options st) r = false ->
        is_oauth_error (inspected (token_options st) r) code ->
        let m1 := authorise_step now (Reply (Rejects (StatusCodeError r))) (st, c) in
        let m2 := authorise_step now' TimerFired m1 in
        savedAuth (fst m1) !! clientID st = None
        /\ snd m1 = RetrySleep (AUTH_RETRY_DELAY * MS)
        /\ phase_of (snd m1) = Invalidated
        /\ savedAuth (fst m2) !! clientID st = None
        /\ snd m2 = (if simulator st then AwaitAuthorize
                     else AwaitDeviceAuthorization)
        /\ phase_of (snd m2) = Authorizing
        /\ requestCount (fst m2) = S (requestCount st)).
Proof.
  split.
  - intros opts now Hred Hbody.
    rewrite (settle_grant_rejected _ _ _ _ _ Hred Hbody Hcode). cbn [snd].
    apply authInvalidate_lookup.
  - intros c now now' Hc Hred Hbody m1 m2.
    destruct (authInvalidate_lookup st) as (Hsa & Hid & Hsim & Hrc).
    assert (Hgone : savedAuth (authInvalidate st) !! clientID (authInvalidate st)
                    = None).
    { rewrite Hsa, Hid. apply lookup_delete_eq. }
    destruct (authorise_catch_unsaved _ Hgone) as (Hc1 & Hs1 & Hid1 & Hsim1 & Hrc1).
    assert (Hm1 : m1 = authorise_catch (authInvalidate st)).
    { subst m1. unfold authorise_step.
      destruct c; try discriminate Hc;
        rewrite (settle_grant_rejected _ _ _ _ _ Hred Hbody Hcode);
        reflexivity. }
    rewrite Hid in Hs1, Hid1. rewrite Hsim in Hsim1. rewrite Hrc in Hrc1.
    assert (Hm2 : m2 = (requestRaw_issue (fst m1),
                        if simulator st then AwaitAuthorize
                        else AwaitDeviceAuthorization)).
    { subst m2. rewrite Hm1.
      destruct (authorise_catch (authInvalidate st)) as [st1 c1] eqn:E.
      cbn [fst snd] in *. subst c1. unfold authorise_step, authorise_top.
      rewrite Hid1, Hs1, Hsim1. reflexivity. }
    clearbody m2. clearbody m1. subst m2 m1. cbn [fst snd].
    rewrite Hc1. repeat split; try assumption.
    + destruct (simulator st); reflexivity.
    + unfold requestRaw_issue, set_requestCount. cbn [requestCount].
      rewrite Hrc1. reflexivity.
Qed.

(** The authorised client awaiting its token refresh, answered with
    invalid_grant. *)
Lemma C2_grant_rejection_discards_record_and_restarts_witness :
  savedAuth
    (snd (requestRaw_settle (token_options Examples.authorised)
            (Rejects (StatusCodeError Examples.invalid_grant)) 10
            Examples.authorised))
  = delete (clientID Examples.authorised) (savedAuth Examples.authorised)
  /\ snd (authorise_step 60010 TimerFired
            (authorise_step 10 (Reply (Rejects (StatusCodeError Examples.invalid_grant)))
               (Examples.authorised, AwaitRefresh)))
     = AwaitDeviceAuthorization.
Proof.
  pose proof (C2_grant_rejection_discards_record_and_restarts
                Examples.invalid_grant (lit "invalid_grant") Examples.authorised
                (or_introl eq_refl)) as [Hsettle Hmachine].
  assert (Hred : redirected (token_options Examples.authorised)
                            Examples.invalid_grant = false) by reflexivity.
  assert (Hbody : is_oauth_error
                    (inspected (token_options Examples.authorised)
                               Examples.invalid_grant)
                    (lit "invalid_grant")) by (split; reflexivity).
  split.
  - exact (Hsettle (token_options Examples.authorised) 10 Hred Hbody).
  - exact (proj1 (proj2 (proj2 (proj2 (proj2
             (Hmachine AwaitRefresh 10 60010 eq_refl Hred Hbody)))))).
Defined.

(** After an invalid_token error the refresh is what follows.  When
    authoriseClient sleeps until the refresh is due, the error wakes it: it
    takes the short retry delay, and when that is over it asks for a
    refresh, the record still holding its refresh token. *)
Lemma invalid_token_then_refresh (opts : options) (r : response)
    (now now1 now2 d : Z) (refreshToken : value) (st : api) (auth : Auth.t) :
  redirected opts r = false ->
  is_api_error (inspected opts r) (lit "invalid_token") ->
  savedAuth st !! clientID st = Some auth ->
  sleepReject st = Some Pending ->
  let st1 := snd (requestRaw_settle opts (Rejects (StatusCodeError r)) now st) in
  let m1 := authorise_step now1 SleepRejected (st1, RefreshSleep d refreshToken) in
  let m2 := authorise_step now2 TimerFired m1 in
  snd m1 = RetrySleep (REFRESH_RETRY_DELAY * MS)
  /\ snd m2 = AwaitRefresh
  /\ savedAuth (fst m2) !! clientID st = Some (delete_accessToken auth)
  /\ requestCount (fst m2) = S (requestCount st).
Proof.
  intros Hred Hbody Hsaved Hsleep st1 m1 m2.
  subst m2 m1 st1. rewrite (settle_invalid_token _ _ _ _ Hred Hbody).
  cbn [snd]. destruct st as [cid sim sa sc ar pr sr er rc].
  cbn in Hsaved, Hsleep. subst sr.
  unfold authorise_step, tokenInvalidate, wake, authorise_catch. cbn.
  unfold tokenInvalidate, wake. cbn.
  rewrite !lookup_alter_eq, Hsaved. cbn.
  unfold authorise_top. cbn. rewrite !lookup_alter_eq, Hsaved. cbn.
  assert (Hr : forall st' : api,
             savedAuth st' !! clientID st'
             = Some (delete_accessToken (delete_accessToken auth)) ->
             snd (authorise_refresh now2 st') = AwaitRefresh
             /\ fst (authorise_refresh now2 st') = requestRaw_issue st').
  { intros st' H. unfold authorise_refresh. rewrite H. cbn.
    destruct (num_sub _ _); split; reflexivity. }
  split; [reflexivity|].
  destruct (Auth.scopes auth) as [l|];
    match goal with
    | |- context [authorise_refresh now2 ?x] =>
        destruct (Hr x) as [H1 H2];
          [cbn; rewrite !lookup_alter_eq, Hsaved; reflexivity|];
          rewrite H1, H2; cbn; rewrite !lookup_alter_eq, Hsaved;
          repeat split
    end.
Qed.

End Authorisation.

(** *** Rate limited requests *)

Section Throttling.

Lemma retryAfter_savedAuth (now : Z) (delaySeconds : value) (st : api) :
  savedAuth (retryAfter now delaySeconds st) = savedAuth st
  /\ clientID (retryAfter now delaySeconds st) = clientID st.
Proof.
  rewrite retryAfter_frame. split; reflexivity.
Qed.

(** C3, as amended.  A call of requestAppliances that is authorised and
    whose attempt is answered by the rate limit error (key 429) with a
    retry-after header of [n] seconds does not end with that error: it goes
    on with its next turn.  The earliest retry time is then at least [n]
    seconds after the answer, the client is as authorised as it was, the
    call issues a next attempt if the world gives it a turn, and every
    attempt that reads the earliest retry time after the answer, of this
    call running on its own or of any call or events stream that finds the
    earliest retry time at least that far, is issued at least [n] seconds
    after the answer.  An attempt of a call that read the earliest retry
    time before the answer is not delayed (the counterexample below). *)
Theorem C3_rate_limit_delays_and_retries
    (opts : options) (w : turn) (world : list turn) (now n : Z) (st : api)
    (r : response) (token : value)
    (Hauth : getAuthorisation st = inl token)
    (Hreply : reply w = Rejects (StatusCodeError r))
    (Hred : redirected opts r = false)
    (Hbody : is_api_error (inspected opts r) (lit "429"))
    (Hdelay : to_number (header r (lit "retry-after")) = Num n) :
  let t := after_rate_limit (timer_late w) now st in
  let answered := t + Z.max 0 (latency w) in
  let st' := snd (requestRaw opts (reply w) answered st) in
  requestAppliances_loop opts (w :: world) now st
  = attempted {| limit := earliestRetry st; issued := t |}
      (requestAppliances_loop opts world answered st')
  /\ answered + n * MS <= earliestRetry st'
  /\ getAuthorisation st' = inl token
  /\ (world <> [] ->
      exists a rest,
        attempts (requestAppliances_loop opts world answered st') = a :: rest)
  /\ Forall (fun a => answered + n * MS <= issued a)
            (attempts (requestAppliances_loop opts world answered st'))
  /\ (forall (opts2 : options) (world2 : list turn) (now2 : Z) (st2 : api),
        earliestRetry st' <= earliestRetry st2 ->
        Forall (fun a => answered + n * MS <= issued a)
               (attempts (requestAppliances_loop opts2 world2 now2 st2)))
  /\ (forall (world2 : list events_turn) (now2 : Z) (st2 : api),
        earliestRetry st' <= earliestRetry st2 ->
        Forall (fun a => answered + n * MS <= issued a)
               (events_attempts (getEvents world2 now2 st2))).
Proof.
  intros t answered st'.
  assert (E : requestRaw opts (reply w) answered st
              = (Throw {| cause := StatusCodeError r; retry := true |},
                 retryAfter answered (header r (lit "retry-after"))
                            (requestRaw_issue st))).
  { unfold requestRaw. rewrite Hreply. apply settle_429; assumption. }
  assert (Hst' : st' = retryAfter answered (header r (lit "retry-after"))
                                  (requestRaw_issue st)).
  { subst st'. rewrite E. reflexivity. }
  assert (Hreach : answered + n * MS <= earliestRetry st').
  { rewrite Hst'. apply retryAfter_reaches. exact Hdelay. }
  assert (Hauth' : getAuthorisation st' = inl token).
  { rewrite Hst'. unfold getAuthorisation in *.
    destruct (retryAfter_savedAuth answered (header r (lit "retry-after"))
                (requestRaw_issue st)) as [-> ->]. exact Hauth. }
  assert (Hlater : forall (opts2 : options) (world2 : list turn) (now2 : Z)
                          (st2 : api),
             earliestRetry st' <= earliestRetry st2 ->
             Forall (fun a => answered + n * MS <= issued a)
                    (attempts (requestAppliances_loop opts2 world2 now2 st2))).
  { intros opts2 world2 now2 st2 Hle.
    eapply List.Forall_impl; [|apply requestAppliances_loop_waits].
    intros a (Ha & Hb & _). simpl in *. lia. }
  repeat split.
  - cbn [requestAppliances_loop]. fold t. rewrite Hauth. fold answered.
    rewrite E. cbn [retry]. rewrite Hst'. reflexivity.
  - exact Hreach.
  - exact Hauth'.
  - intros Hne. destruct world as [|w2 world2]; [contradiction|].
    cbn [requestAppliances_loop]. rewrite Hauth'.
    destruct (requestRaw opts (reply w2) _ st') as [[v|e] st2].
    + eexists _, _. reflexivity.
    + destruct (retry e); eexists _, _; reflexivity.
  - apply Hlater. lia.
  - exact Hlater.
  - intros world2 now2 st2 Hle.
    eapply List.Forall_impl; [|apply getEvents_waits].
    intros a (Ha & Hb). simpl in *. lia.
Qed.

(** The authorised client, answered first with the rate limit asking for
    30 seconds at time 20, then with success: the call returns the data,
    its second attempt issued at time 30023. *)
Lemma C3_rate_limit_delays_and_retries_witness :
  requestAppliances_loop
    (appliances_options (lit "GET") [] [] Examples.authorised)
    [Examples.limited_turn; Examples.success_turn] 0 Examples.authorised
  = attempted {| limit := 0; issued := 0 |}
      (requestAppliances_loop
         (appliances_options (lit "GET") [] [] Examples.authorised)
         [Examples.success_turn] 20
         (snd (requestRaw (appliances_options (lit "GET") [] [] Examples.authorised)
                 (reply Examples.limited_turn) 20 Examples.authorised)))
  /\ 20 + 30 * MS
     <= earliestRetry
          (snd (requestRaw (appliances_options (lit "GET") [] [] Examples.authorised)
                  (reply Examples.limited_turn) 20 Examples.authorised)).
Proof.
  assert (Hauth : getAuthorisation Examples.authorised = inl (Str (lit "A")))
    by reflexivity.
  assert (Hred : redirected (appliances_options (lit "GET") [] [] Examples.authorised)
                            Examples.too_many_requests = false) by reflexivity.
  assert (Hbody : is_api_error
                    (inspected (appliances_options (lit "GET") [] [] Examples.authorised)
                               Examples.too_many_requests)
                    (lit "429")) by (split; reflexivity).
  assert (Hdelay : to_number (header Examples.too_many_requests (lit "retry-after"))
                   = Num 30) by reflexivity.
  pose proof (C3_rate_limit_delays_and_retries
                (appliances_options (lit "GET") [] [] Examples.authorised)
                Examples.limited_turn [Examples.success_turn] 0 30
                Examples.authorised Examples.too_many_requests (Str (lit "A"))
                Hauth eq_refl Hred Hbody Hdelay) as (H1 & H2 & _).
  split; [exact H1 | exact H2].
Defined.

(** A call running on its own takes the turns of its loop without anything
    happening meanwhile. *)
Lemma requestAppliances_turn_alone (opts : options) (w : turn)
    (world : list turn) (now : Z) (st : api) :
  let a := fst (Interleaving.requestAppliances_turn opts w (fun s => s) now st) in
  let answered := issued a + Z.max 0 (latency w) in
  a = {| limit := earliestRetry st;
         issued := after_rate_limit (timer_late w) now st |}
  /\ requestAppliances_loop opts (w :: world) now st
     = match snd (Interleaving.requestAppliances_turn opts w (fun s => s)
                    now st) with
       | inr e =>
           {| ending_of := Raised_thrown e; final := st; finished := issued a;
              attempts := [] |}
       | inl (Return body, st') =>
           {| ending_of := Returned (data_of body); final := st';
              finished := answered; attempts := [a] |}
       | inl (Throw err, st') =>
           if retry err then
             attempted a (requestAppliances_loop opts world answered st')
           else {| ending_of := Raised_error err; final := st';
                   finished := answered; attempts := [a] |}
       end.
Proof.
  unfold Interleaving.requestAppliances_turn. cbn [fst snd issued].
  split; [reflexivity|].
  cbn [requestAppliances_loop].
  destruct (0 <? earliestRetry st - now);
    destruct (getAuthorisation st); try reflexivity;
    destruct (requestRaw opts (reply w) _ st) as [[v|e] st']; reflexivity.
Qed.

(** C3, the claim as stated fails for a call that is asleep.  Two calls
    have their requests under way.  The first is answered at time 20 with
    the rate limit asking for 10 seconds, reads the earliest retry time
    10020 and sleeps.  The second is answered at time 25 with the rate
    limit asking for 30 seconds: its error carries the retry mark and the
    earliest retry time becomes 30025.  The first call issues its next
    attempt when its own sleep is over, at time 10023, less than 30
    seconds after that answer and before the earliest retry time, and the
    attempt is answered. *)
Theorem C3_sleeping_call_not_delayed :
  earliestRetry Scenarios.limited_at_20 = 10020
  /\ Interleaving.retry_of
       (fst (requestRaw_settle Scenarios.get_appliances
               (Rejects (StatusCodeError Examples.too_many_requests)) 25
               Scenarios.limited_at_20))
     = Some true
  /\ earliestRetry (Scenarios.limited_at_25 Scenarios.limited_at_20) = 30025
  /\ fst Scenarios.sleeper = {| limit := 10020; issued := 10023 |}
  /\ issued (fst Scenarios.sleeper) < 25 + 30 * MS
  /\ issued (fst Scenarios.sleeper)
     < earliestRetry (Scenarios.limited_at_25 Scenarios.limited_at_20)
  /\ exists st',
       snd Scenarios.sleeper
       = inl (Return (Obj [(lit "data", Obj [(lit "ok", Boolean true)])]), st').
Proof.
  repeat split; try reflexivity.
  eexists. reflexivity.
Qed.

End Throttling.

(** *** The events stream *)

Section Events.

(** The complete handler as the program runs it, without a body: nothing
    of the response is inspected, the object is left as it is, and the
    promise of the stream is resolved on status 200 and rejected otherwise
    with an error that carries no retry mark. *)
Lemma complete_without_body (r : response) (now : Z) (st : api) (s : stream) :
  requestStreamRaw_on (OnComplete r Undefined) now (st, s)
  = Normal (st, callbackDone
                  (if statusCode r =? 200 then None
                   else Some {| from_response := Some r;
                                stream_retry := false |}) s).
Proof. reflexivity. Qed.

(** Were a body passed to the complete handler, an error body with the key
    429 would not be handled either: the read of the retry-after header
    names an [err] the handler does not bind, and raises before retryAfter
    is reached. *)
Lemma complete_429_raises (r : response) (body : value) (now : Z) (st : api)
    (s : stream) :
  get (get body (lit "error")) (lit "key") = Str (lit "429") ->
  requestStreamRaw_on (OnComplete r body) now (st, s)
  = Abrupt ReferenceError (st, s).
Proof.
  intros Hkey. unfold requestStreamRaw_on.
  pose proof (get_Str_truthy _ _ _ Hkey) as He.
  rewrite (get_truthy _ _ He), He, Hkey. reflexivity.
Qed.

Lemma settle_unmarked (p : stream_promise) (s : stream) :
  unmarked s ->
  match p with Failed e => stream_retry e = false | _ => True end ->
  unmarked (settle p s).
Proof.
  unfold unmarked, settle. cbn. destruct (result s); auto.
Qed.

Lemma callbackLine_unmarked (l : jsstring) (s : stream) :
  unmarked s ->
  match callbackLine l s with
  | Normal s' | Abrupt _ s' => unmarked s'
  end.
Proof.
  intros H. unfold callbackLine. destruct (aborted s); [exact H|].
  destruct (on_line l (lines s)); exact H.
Qed.

Lemma each_line_unmarked (ls : list jsstring) :
  forall s, unmarked s ->
  match each_line ls s with
  | Normal s' | Abrupt _ s' => unmarked s'
  end.
Proof.
  induction ls as [|l ls IH]; intros s H; simpl; [exact H|].
  pose proof (callbackLine_unmarked l s H) as Hl.
  destruct (callbackLine l s) as [s'|x s']; [apply IH|]; exact Hl.
Qed.

Lemma requestStreamRaw_on_unmarked (ev : stream_event) (now : Z)
    (st : api) (s : stream) :
  unmarked s ->
  match requestStreamRaw_on ev now (st, s) with
  | Normal (_, s') | Abrupt _ (_, s') => unmarked s'
  end.
Proof.
  intros H. destruct ev as [|r|chunk|r body]; cbn [requestStreamRaw_on].
  - apply settle_unmarked; [exact H|reflexivity].
  - exact H.
  - destruct (attached s); [|exact H].
    pose proof (each_line_unmarked (Patterns.split_lines [] chunk) s H) as Hl.
    destruct (each_line _ s); exact Hl.
  - assert (Hd : unmarked
                   (callbackDone
                      (if statusCode r =? 200 then None
                       else Some {| from_response := Some r;
                                    stream_retry := false |}) s)).
    { unfold callbackDone. destruct (statusCode r =? 200);
        apply settle_unmarked; auto; reflexivity. }
    case_conditions; assumption.
Qed.

Lemma requestStream_unmarked (ins : list (stream_input * Z)) :
  forall (st : api) (s : stream), unmarked s ->
  match requestStream ins (st, s) with
  | Normal (_, s') | Abrupt _ (_, s') => unmarked s'
  end.
Proof.
  induction ins as [|[[ev|] now] ins IH]; intros st s H;
    cbn [requestStream fst snd].
  - exact H.
  - pose proof (requestStreamRaw_on_unmarked ev now st s H) as He.
    destruct (requestStreamRaw_on ev now (st, s)) as [[st' s']|x [st' s']];
      [apply IH|]; exact He.
  - apply IH. apply settle_unmarked; [exact H|exact I].
Qed.

(** getEvents never starts its stream over: whatever the world does, it
    makes one attempt at most. *)
Lemma getEvents_single_attempt (world : list events_turn) (now : Z) (st : api) :
  (length (events_attempts (getEvents world now st)) <= 1)%nat.
Proof.
  destruct world as [|w world]; cbn [getEvents]; [simpl; lia|].
  destruct (getAuthorisation st); [|simpl; lia].
  pose proof (requestStream_unmarked (inputs w) (requestRaw_issue st)
                new_stream I) as Hu.
  destruct (requestStream (inputs w) (requestRaw_issue st, new_stream))
    as [[st' s]|x [st' s]]; [|simpl; lia].
  unfold unmarked in Hu.
  destruct (result s) as [| |e]; try (simpl; lia).
  rewrite Hu. simpl. lia.
Qed.

(** C7.  The error body of an events stream is never classified.  The
    complete handler runs without a body, so for every response it leaves
    the object as it is, the access token and the earliest retry time
    included, and for a status other than 200 it rejects the promise of an
    open stream with an error that carries no retry mark.  At the rate
    limit response asking for 30 seconds, refusing the events stream of
    the authorised client: getEvents makes its one attempt and throws that
    error, though the world offers a second stream, and the earliest retry
    time stays 0.  At the invalid_token response: getEvents throws, and
    the client holds its access token as before.  requestAppliances, given
    the rate limit response, moves the earliest retry time to 30020 and
    tries again. *)
Theorem C7_stream_error_body_never_classified :
  (forall (r : response) (now : Z) (st : api) (s : stream),
     exists s',
       requestStreamRaw_on (OnComplete r Undefined) now (st, s)
       = Normal (st, s')
       /\ (statusCode r <> 200 -> result s = Streaming ->
           result s'
           = Failed {| from_response := Some r; stream_retry := false |}))
  /\ events_ending_of
       (getEvents [Examples.limited_stream; Examples.notify_stream] 0
          Examples.authorised)
     = EventsThrow {| from_response := Some Examples.too_many_requests;
                      stream_retry := false |}
  /\ events_attempts
       (getEvents [Examples.limited_stream; Examples.notify_stream] 0
          Examples.authorised)
     = [{| limit := 0; issued := 0 |}]
  /\ earliestRetry
       (events_final
          (getEvents [Examples.limited_stream; Examples.notify_stream] 0
             Examples.authorised))
     = 0
  /\ events_ending_of
       (getEvents [Examples.unauthorised_stream; Examples.notify_stream] 0
          Examples.authorised)
     = EventsThrow {| from_response := Some Examples.invalid_token;
                      stream_retry := false |}
  /\ getAuthorisation
       (events_final
          (getEvents [Examples.unauthorised_stream; Examples.notify_stream] 0
             Examples.authorised))
     = inl (Str (lit "A"))
  /\ ending_of
       (requestAppliances (lit "GET") [] []
          [Examples.limited_turn; Examples.success_turn] 0 Examples.authorised)
     = Returned (Obj [(lit "ok", Boolean true)])
  /\ attempts
       (requestAppliances (lit "GET") [] []
          [Examples.limited_turn; Examples.success_turn] 0 Examples.authorised)
     = [{| limit := 0; issued := 0 |}; {| limit := 30020; issued := 30023 |}].
Proof.
  split.
  - intros r now st s. rewrite complete_without_body. eexists.
    split; [reflexivity|].
    intros Hcode Hopen. apply Z.eqb_neq in Hcode. rewrite Hcode.
    unfold callbackDone, settle. cbn. rewrite Hopen. reflexivity.
  - repeat split.
Qed.

(** A blank line with no field collected leaves the reader as it is. *)
Lemma on_line_blank_empty (em : list value) (lg : list jsstring) :
  on_line [] {| event := []; emitted := em; log := lg |}
  = Normal {| event := []; emitted := em; log := lg |}.
Proof. reflexivity. Qed.

(** Once aborted, a stream passes no line on. *)
Lemma each_line_aborted (ls : list jsstring) (s : stream) :
  aborted s = true -> each_line ls s = Normal s.
Proof.
  intros Ha. induction ls as [|l ls IH]; simpl; [reflexivity|].
  unfold callbackLine. rewrite Ha. exact IH.
Qed.

Lemma abort_aborted (s : stream) :
  aborted (abort s) = true /\ lines (abort s) = lines s
  /\ (result s = Streaming -> result (abort s) = Ended).
Proof.
  unfold abort, settle. cbn. repeat split. intros ->. reflexivity.
Qed.

(** C8.  The three lines of the NOTIFY event make the reader emit exactly
    the one event, its data decoded, and leave nothing collected, and so
    does getEvents on a stream that delivers them as text; a blank line
    when nothing is collected emits nothing; once a stream is stopped, no
    line that follows emits anything; and getEvents on a stream stopped
    after the two field lines returns without an error, the blank lines
    that follow emitting nothing: the fields collected are dropped. *)
Theorem C8_notify_event_emitted_once :
  each_line [Examples.notify_line; Examples.data_line; []] new_stream
  = Normal {| aborted := false; result := Streaming; attached := false;
              lines := {| event := []; emitted := [Examples.notify_event];
                          log := [] |} |}
  /\ lines (last_stream (getEvents [Examples.notify_stream] 0 Examples.authorised))
     = {| event := []; emitted := [Examples.notify_event]; log := [] |}
  /\ (forall (em : list value) (lg : list jsstring),
        on_line [] {| event := []; emitted := em; log := lg |}
        = Normal {| event := []; emitted := em; log := lg |})
  /\ (forall (s : stream) (ls : list jsstring),
        each_line ls (abort s) = Normal (abort s)
        /\ emitted (lines (abort s)) = emitted (lines s))
  /\ events_ending_of (getEvents [Examples.stopped_stream] 0 Examples.authorised)
     = EventsReturn
  /\ lines (last_stream (getEvents [Examples.stopped_stream] 0 Examples.authorised))
     = {| event := [(lit "event", Str (lit "NOTIFY"));
                    (lit "data", Obj [(lit "k", Number 1 0)])];
          emitted := []; log := [] |}.
Proof.
  split; [reflexivity|].
  split; [reflexivity|].
  split; [exact on_line_blank_empty|].
  split.
  { intros s ls. destruct (abort_aborted s) as (Ha & Hl & _).
    split; [apply each_line_aborted; exact Ha|]. rewrite Hl. reflexivity. }
  split; reflexivity.
Qed.

(** A line that is neither blank nor a comment and does not have the form
    of a field is logged and skipped. *)
Lemma on_line_unparsed (line : jsstring) (rd : reader) :
  line <> [] -> Patterns.test_comment line = false ->
  Patterns.exec_field line = None ->
  on_line line rd
  = Normal {| event := event rd; emitted := emitted rd;
              log := log rd ++ [lit "Unable to parse event '" ++ line ++ lit "'"] |}.
Proof.
  intros Hne Hc He. unfold on_line.
  destruct line as [|c line]; [contradiction|]. rewrite Hc, He. reflexivity.
Qed.

(** The lines on which the line callback raises: exactly the data fields
    with a non-empty value that JSON.parse rejects. *)
Lemma on_line_raises (line : jsstring) (rd : reader) (x : exception)
    (rd' : reader) :
  on_line line rd = Abrupt x rd' <->
  x = SyntaxError /\ rd' = rd
  /\ exists text, Patterns.exec_field line = Some (lit "data", text)
                  /\ text <> [] /\ JSON.parse text = None.
Proof.
  unfold on_line. split.
  - destruct line as [|c line]; [discriminate|].
    destruct (Patterns.test_comment (c :: line)) eqn:Hc; [discriminate|].
    destruct (Patterns.exec_field (c :: line)) as [[key text]|] eqn:He;
      [|discriminate].
    destruct (str_eqb key (lit "data")) eqn:Hk; [|discriminate].
    apply str_eqb_eq in Hk. subst key.
    destruct text as [|t text]; [discriminate|]. cbn [andb].
    destruct (JSON.parse (t :: text)) eqn:Hp; [discriminate|].
    intros H; injection H as <- <-.
    repeat split. exists (t :: text). repeat split; [discriminate|exact Hp].
  - intros (-> & -> & text & He & Hne & Hp).
    destruct line as [|c line]; [discriminate He|].
    destruct (Patterns.test_comment (c :: line)) eqn:Hc.
    { exfalso. unfold Patterns.test_comment in Hc. apply N.eqb_eq in Hc. subst c.
      discriminate He. }
    rewrite He. cbn [str_eqb]. destruct text as [|t text]; [contradiction|].
    change (str_eqb (lit "data") (lit "data")) with true. cbn [andb].
    rewrite Hp. reflexivity.
Qed.

(** C9, at the line "data: {oops".  The line callback does not log and
    skip it: JSON.parse rejects the value with a SyntaxError (not for want
    of fuel) and nothing catches it.  In a stream, getEvents is left with
    that exception, and the lines after the broken one are not read: of a
    chunk made of that line followed by the NOTIFY event, nothing is
    emitted and nothing logged. *)
Theorem C9_broken_data_line_raises :
  JSON.parse_value (JSON.fuel_for (lit "{oops")) (lit "{oops")
  = JSON.SyntaxError
  /\ on_line Examples.broken_data_line new_reader = Abrupt SyntaxError new_reader
  /\ events_ending_of (getEvents [Examples.broken_stream] 0 Examples.authorised)
     = EventsUncaught SyntaxError
  /\ lines (last_stream (getEvents [Examples.broken_stream] 0 Examples.authorised))
     = new_reader.
Proof.
  repeat split.
Qed.

End Events.

(* ===================================================================== *)
(** ** Further properties *)
(* ===================================================================== *)

Import Notions.

(** *** The rate limit, continued *)

Section RateLimitOrder.

Lemma set_earliestRetry_same (st : api) :
  set_earliestRetry (earliestRetry st) st = st.
Proof. destruct st; reflexivity. Qed.

(** retryAfter assigns the later of the two times. *)
Lemma retryAfter_max (now : Z) (d : value) (st : api) :
  retryAfter now d st
  = match to_number d with
    | Num n => set_earliestRetry (Z.max (earliestRetry st) (now + n * MS)) st
    | NaN => st
    end.
Proof.
  unfold retryAfter. destruct (to_number d) as [|n]; cbn; [reflexivity|].
  destruct (earliestRetry st <? now + n * MS) eqn:E.
  - apply Z.ltb_lt in E. rewrite Z.max_r by lia. reflexivity.
  - apply Z.ltb_ge in E. rewrite Z.max_l by lia.
    symmetry. apply set_earliestRetry_same.
Qed.

Lemma retryAfter_all_max (us : list (Z * value)) :
  forall st, retryAfter_all us st
             = set_earliestRetry (fold_left latest us (earliestRetry st)) st.
Proof.
  unfold retryAfter_all.
  induction us as [|u us IH]; intros st; cbn [fold_left].
  - symmetry. apply set_earliestRetry_same.
  - rewrite IH, retryAfter_max.
    replace (latest (earliestRetry st) u)
      with (earliestRetry
              match to_number (snd u) with
              | Num n => set_earliestRetry
                           (Z.max (earliestRetry st) (fst u + n * MS)) st
              | NaN => st
              end)
      by (unfold latest; destruct (to_number (snd u)); reflexivity).
    destruct (to_number (snd u)); destruct st; reflexivity.
Qed.

Lemma latest_swap (acc : Z) (u v : Z * value) :
  latest (latest acc u) v = latest (latest acc v) u.
Proof.
  unfold latest. destruct (to_number (snd u)), (to_number (snd v)); lia.
Qed.

Lemma fold_latest_perm (us vs : list (Z * value)) :
  Permutation us vs ->
  forall acc, fold_left latest us acc = fold_left latest vs acc.
Proof.
  induction 1; intros acc; cbn [fold_left].
  - reflexivity.
  - apply IHPermutation.
  - rewrite latest_swap. reflexivity.
  - rewrite IHPermutation1. apply IHPermutation2.
Qed.

(** X1.  The order in which rate limit answers are handled does not matter:
    calls of retryAfter made in any order of the same headers, each with
    the time it was read at, leave the same object, which differs from the
    one before in its earliest retry time only: the latest of the times
    asked for and the one it had. *)
Theorem X1_retryAfter_order_irrelevant (us vs : list (Z * value)) (st : api)
    (H : Permutation us vs) :
  retryAfter_all us st = retryAfter_all vs st
  /\ retryAfter_all vs st
     = set_earliestRetry (fold_left latest us (earliestRetry st)) st.
Proof.
  rewrite !retryAfter_all_max, (fold_latest_perm us vs H). split; reflexivity.
Qed.

(** Thirty seconds asked for at time 0 and five at time 10, both ways. *)
Lemma X1_retryAfter_order_irrelevant_witness :
  retryAfter_all Scenarios.delays Examples.authorised
  = retryAfter_all Scenarios.delays_swapped Examples.authorised
  /\ retryAfter_all Scenarios.delays_swapped Examples.authorised
     = set_earliestRetry 30000 Examples.authorised.
Proof.
  apply (X1_retryAfter_order_irrelevant Scenarios.delays
           Scenarios.delays_swapped Examples.authorised).
  apply perm_swap.
Defined.

End RateLimitOrder.

(** *** What a settled request does to the object *)

Section Settlements.

Lemma strict_eq_str_eq (v : value) (s : jsstring) :
  strict_eq_str v s = true <-> v = Str s.
Proof.
  destruct v; simpl; try (split; discriminate).
  rewrite str_eqb_eq. split; [intros ->; reflexivity|intros H; injection H; auto].
Qed.

(** The four objects a settlement can leave. *)
Lemma requestRaw_settle_cases (opts : options) (reply : settlement) (now : Z)
    (st : api) :
  let st' := snd (requestRaw_settle opts reply now st) in
  st' = st \/ st' = authInvalidate st \/ st' = tokenInvalidate st
  \/ exists h, st' = retryAfter now h st.
Proof.
  unfold requestRaw_settle.
  destruct reply as [v|[r|]]; cbn [snd]; auto.
  case_conditions; cbn [snd]; eauto.
Qed.

(** X2.  Whatever the answer, requestRaw stores nothing it received: a
    record found afterwards was there before, with the same refresh token,
    expiry and scopes, and with its access token kept or deleted; the
    records of other clients, the client id, the server, the scopes, the
    queue of waitUntilAuthorised and the request count are as they were
    when the request settled. *)
Theorem X2_requestRaw_never_writes_tokens (opts : options)
    (reply : settlement) (now : Z) (st : api) :
  let st' := snd (requestRaw_settle opts reply now st) in
  (forall (id : jsstring) (a' : Auth.t),
     savedAuth st' !! id = Some a' ->
     exists a, savedAuth st !! id = Some a /\ same_but_token a a')
  /\ (forall id : jsstring,
        id <> clientID st -> savedAuth st' !! id = savedAuth st !! id)
  /\ clientID st' = clientID st /\ simulator st' = simulator st
  /\ scopes st' = scopes st /\ authResolve st' = authResolve st
  /\ requestCount st' = requestCount st.
Proof.
  intros st'. subst st'.
  assert (Hsame : forall a, same_but_token a a).
  { intros a. repeat split. left. reflexivity. }
  destruct (requestRaw_settle_cases opts reply now st)
    as [-> | [-> | [-> | [h ->]]]].
  - repeat split; eauto.
  - unfold authInvalidate.
    destruct (wake_frame (set_savedAuth (delete (clientID st) (savedAuth st)) st))
      as (-> & -> & -> & -> & _ & _ & ->).
    rewrite wake_savedAuth. cbn. repeat split.
    + intros id a' H. apply lookup_delete_Some in H as [_ H]. eauto.
    + intros id Hid. apply lookup_delete_ne. congruence.
  - unfold tokenInvalidate.
    destruct (wake_frame (set_savedAuth
                (alter delete_accessToken (clientID st) (savedAuth st)) st))
      as (-> & -> & -> & -> & _ & _ & ->).
    rewrite wake_savedAuth. cbn. repeat split.
    + intros id a' H. destruct (decide (id = clientID st)) as [->|Hne].
      * rewrite lookup_alter_eq in H.
        destruct (savedAuth st !! clientID st) as [a|]; [|discriminate H].
        injection H as <-. exists a. split; [reflexivity|].
        repeat split. right. reflexivity.
      * rewrite lookup_alter_ne in H by congruence. eauto.
    + intros id Hid. apply lookup_alter_ne. congruence.
  - rewrite retryAfter_frame. cbn. repeat split; eauto.
Qed.

(** X3.  An error thrown by requestRaw carries the retry mark in two cases
    only: the answer is an error of the appliances API with key 429, or an
    OAuth error access_denied whose description is Too many requests.
    Every other error, a failure of the transport among them, is thrown
    without the mark. *)
Theorem X3_retry_mark_rate_limit_only (opts : options) (reply : settlement)
    (now : Z) (st : api) (e : error)
    (Hthrow : fst (requestRaw_settle opts reply now st) = Throw e) :
  retry e = true <->
  exists r, reply = Rejects (StatusCodeError r)
    /\ redirected opts r = false
    /\ ((truthy (get (inspected opts r) (lit "error_description")) = false
         /\ get (get (inspected opts r) (lit "error")) (lit "key")
            = Str (lit "429"))
        \/ (truthy (get (inspected opts r) (lit "error_description")) = true
            /\ get (inspected opts r) (lit "error") = Str (lit "access_denied")
            /\ loose_eq_str (get (inspected opts r) (lit "error_description"))
                            (lit "Too many requests") = true)).
Proof.
  unfold requestRaw_settle in Hthrow.
  destruct reply as [v|[r|]]; cbn [fst] in Hthrow.
  - discriminate Hthrow.
  - destruct (redirected opts r) eqn:Hred; [discriminate Hthrow|].
    remember (inspected opts r) as body eqn:Hbody.
    assert (Hno : retry e = false ->
                  (truthy (get body (lit "error_description")) = false
                   /\ get (get body (lit "error")) (lit "key") = Str (lit "429")
                   \/ truthy (get body (lit "error_description")) = true
                      /\ get body (lit "error") = Str (lit "access_denied")
                      /\ loose_eq_str (get body (lit "error_description"))
                           (lit "Too many requests") = true) -> False).
    { intros Hr Hcase. revert Hthrow.
      destruct Hcase as [[Hd Hk]|(Hd & Ha & Hl)].
      - rewrite Hd, andb_false_r.
        pose proof (get_Str_truthy _ _ _ Hk) as He.
        rewrite (get_truthy _ _ He), He, Hk. cbn.
        intros H; injection H as <-. discriminate Hr.
      - rewrite Hd, (get_truthy _ _ Hd), Ha, Hl. cbn.
        intros H; injection H as <-. discriminate Hr. }
    assert (Hyes : retry e = true ->
                  truthy (get body (lit "error_description")) = false
                  /\ get (get body (lit "error")) (lit "key") = Str (lit "429")
                  \/ truthy (get body (lit "error_description")) = true
                     /\ get body (lit "error") = Str (lit "access_denied")
                     /\ loose_eq_str (get body (lit "error_description"))
                          (lit "Too many requests") = true).
    { intros Hr. revert Hthrow.
      destruct (truthy body && truthy (get body (lit "error_description")))
        eqn:Hd.
      - apply andb_true_iff in Hd as [_ Hd].
        destruct (strict_eq_str (get body (lit "error"))
                    (lit "authorization_pending")); [discriminate|].
        destruct (strict_eq_str (get body (lit "error")) (lit "access_denied"))
          eqn:Ha.
        + apply strict_eq_str_eq in Ha.
          destruct (loose_eq_str (get body (lit "error_description"))
                      (lit "Too many requests")) eqn:Hl; cbn [andb orb].
          * intros _. right. auto.
          * intros H; injection H as <-. discriminate Hr.
        + cbn [andb orb]. case_conditions; intros H; injection H as <-;
            discriminate Hr.
      - destruct (truthy body && truthy (get body (lit "error"))
                  && truthy (get (get body (lit "error")) (lit "key"))) eqn:Hk.
        + apply andb_true_iff in Hk as [Hk _].
          apply andb_true_iff in Hk as [Hb _]. rewrite Hb in Hd. cbn in Hd.
          destruct (strict_eq_str (get (get body (lit "error")) (lit "key"))
                      (lit "invalid_token")).
          { intros H; injection H as <-. discriminate Hr. }
          destruct (strict_eq_str (get (get body (lit "error")) (lit "key"))
                      (lit "429")) eqn:H4.
          * apply strict_eq_str_eq in H4. intros _. left. auto.
          * intros H; injection H as <-. discriminate Hr.
        + intros H; injection H as <-. discriminate Hr. }
    split.
    + intros Hr. exists r. rewrite <- Hbody. repeat split; auto.
    + intros (r' & Hr & _ & Hcase). injection Hr as <-. rewrite <- Hbody in Hcase.
      destruct (retry e); [reflexivity|]. exfalso. apply Hno; auto.
  - injection Hthrow as <-. cbn [retry]. split; [discriminate|].
    intros (r' & Hr & _). discriminate Hr.
Qed.

(** The error thrown on the rate limit response of the appliances API. *)
Lemma X3_retry_mark_rate_limit_only_witness :
  retry Scenarios.rate_limited = true <->
  exists r, Rejects (StatusCodeError Examples.too_many_requests)
            = Rejects (StatusCodeError r)
    /\ redirected Scenarios.get_appliances r = false
    /\ ((truthy (get (inspected Scenarios.get_appliances r)
                     (lit "error_description")) = false
         /\ get (get (inspected Scenarios.get_appliances r) (lit "error"))
                (lit "key")
            = Str (lit "429"))
        \/ (truthy (get (inspected Scenarios.get_appliances r)
                        (lit "error_description")) = true
            /\ get (inspected Scenarios.get_appliances r) (lit "error")
               = Str (lit "access_denied")
            /\ loose_eq_str (get (inspected Scenarios.get_appliances r)
                                 (lit "error_description"))
                            (lit "Too many requests") = true)).
Proof.
  apply (X3_retry_mark_rate_limit_only Scenarios.get_appliances
           (Rejects (StatusCodeError Examples.too_many_requests)) 20
           Examples.authorised Scenarios.rate_limited).
  reflexivity.
Defined.

End Settlements.

(** *** Requests of the appliances API, continued *)

Section Requests.

(** X4.  A rate limit answer without a retry-after header delays nothing:
    the earliest retry time stays as it is, and the call issues its next
    request at the very time the answer arrived. *)
Theorem X4_rate_limit_without_header_retries_at_once
    (opts : options) (w w2 : turn) (world : list turn) (now : Z) (st : api)
    (r : response) (token : value)
    (Hauth : getAuthorisation st = inl token)
    (Hreply : reply w = Rejects (StatusCodeError r))
    (Hred : redirected opts r = false)
    (Hbody : is_api_error (inspected opts r) (lit "429"))
    (Hdelay : header r (lit "retry-after") = Undefined) :
  let t := after_rate_limit (timer_late w) now st in
  let answered := t + Z.max 0 (latency w) in
  snd (requestRaw opts (reply w) answered st) = requestRaw_issue st
  /\ exists rest,
       attempts (requestAppliances_loop opts (w :: w2 :: world) now st)
       = {| limit := earliestRetry st; issued := t |}
         :: {| limit := earliestRetry st; issued := answered |} :: rest.
Proof.
  intros t answered.
  assert (E : requestRaw opts (reply w) answered st
              = (Throw {| cause := StatusCodeError r; retry := true |},
                 requestRaw_issue st)).
  { unfold requestRaw. rewrite Hreply, (settle_429 _ _ _ _ Hred Hbody).
    unfold retryAfter. rewrite Hdelay. reflexivity. }
  split; [rewrite E; reflexivity|].
  assert (Hauth' : getAuthorisation (requestRaw_issue st) = inl token)
    by exact Hauth.
  assert (Hgate : after_rate_limit (timer_late w2) answered (requestRaw_issue st)
                  = answered).
  { unfold after_rate_limit. cbn [earliestRetry requestRaw_issue set_requestCount].
    pose proof (after_rate_limit_waits (timer_late w) now st) as [H1 _].
    fold t in H1.
    destruct (0 <? earliestRetry st - answered) eqn:G; [|reflexivity].
    apply Z.ltb_lt in G. subst answered. lia. }
  cbn [requestAppliances_loop]. fold t. rewrite Hauth. fold answered.
  rewrite E. cbn [retry]. rewrite Hauth', Hgate.
  destruct (requestRaw opts (reply w2) _ (requestRaw_issue st)) as [[v|e] st2].
  - eexists. reflexivity.
  - destruct (retry e); eexists; reflexivity.
Qed.

(** The authorised client, answered at time 20 with the rate limit and no
    header, then with success. *)
Lemma X4_rate_limit_without_header_retries_at_once_witness :
  snd (requestRaw Scenarios.get_appliances (reply Scenarios.undelayed_turn) 20
         Examples.authorised)
  = requestRaw_issue Examples.authorised
  /\ exists rest,
       attempts (requestAppliances_loop Scenarios.get_appliances
                   [Scenarios.undelayed_turn; Examples.success_turn] 0
                   Examples.authorised)
       = {| limit := 0; issued := 0 |} :: {| limit := 0; issued := 20 |} :: rest.
Proof.
  assert (Hbody : is_api_error
                    (inspected Scenarios.get_appliances Scenarios.undelayed)
                    (lit "429")) by (split; reflexivity).
  exact (X4_rate_limit_without_header_retries_at_once
           Scenarios.get_appliances Scenarios.undelayed_turn
           Examples.success_turn [] 0 Examples.authorised Scenarios.undelayed
           (Str (lit "A")) eq_refl eq_refl eq_refl Hbody eq_refl).
Defined.

(** X5.  A 302 answer to a PUT or DELETE request of the appliances API
    (the request library follows the redirection of a GET request itself,
    and hands over that of a PUT or DELETE request as the error of its
    status) is not raised as an error: the call returns, having made one
    request, and what it returns is the data member of the location
    header, which for a location that is a non-empty string is
    undefined. *)
Theorem X5_redirect_answer_is_returned
    (method haid path : jsstring) (w : turn) (world : list turn) (now : Z)
    (st : api) (r : response) (token : value)
    (Hmethod : method = lit "PUT" \/ method = lit "DELETE")
    (Hauth : getAuthorisation st = inl token)
    (Hreply : reply w = Rejects (StatusCodeError r))
    (Hcode : statusCode r = 302) :
  ending_of (requestAppliances method haid path (w :: world) now st)
  = Returned (data_of (header r (lit "location")))
  /\ final (requestAppliances method haid path (w :: world) now st)
     = requestRaw_issue st
  /\ (forall loc : jsstring,
        header r (lit "location") = Str loc -> loc <> [] ->
        ending_of (requestAppliances method haid path (w :: world) now st)
        = Returned Undefined).
Proof.
  assert (E : forall t, requestRaw (appliances_options method haid path st)
                          (reply w) t st
                        = (Return (header r (lit "location")), requestRaw_issue st)).
  { intros t. unfold requestRaw, requestRaw_settle, redirected. rewrite Hreply.
    cbn [followRedirect appliances_options]. rewrite Hcode. reflexivity. }
  unfold requestAppliances. cbn [requestAppliances_loop].
  rewrite Hauth, E. cbn. repeat split.
  intros loc Hloc Hne. rewrite Hloc. destruct loc; [contradiction|reflexivity].
Qed.

(** The authorised client stopping the active program of an appliance,
    redirected to /next. *)
Lemma X5_redirect_answer_is_returned_witness :
  ending_of (requestAppliances (lit "DELETE") Examples.id
               (lit "/programs/active") [Scenarios.moved_turn] 0
               Examples.authorised)
  = Returned Undefined.
Proof.
  assert (Hne : lit "/next" <> []) by discriminate.
  exact (proj2 (proj2 (X5_redirect_answer_is_returned
                         (lit "DELETE") Examples.id (lit "/programs/active")
                         Scenarios.moved_turn [] 0
                         Examples.authorised Scenarios.moved (Str (lit "A"))
                         (or_intror eq_refl) eq_refl eq_refl eq_refl))
               (lit "/next") eq_refl Hne).
Defined.

(** X6.  A client that getAuthorisation refuses makes no request: an
    appliances call and getEvents end with the error of getAuthorisation
    on their first turn, after the rate limit sleep, with the object
    unchanged and no attempt made, whatever the world would answer.  The
    error is a TypeError exactly when the client has no record. *)
Theorem X6_unauthorised_call_requests_nothing
    (st : api) (e : thrown) (Hauth : getAuthorisation st = inr e) :
  (forall (opts : options) (w : turn) (world : list turn) (now : Z),
     requestAppliances_loop opts (w :: world) now st
     = {| ending_of := Raised_thrown e; final := st;
          finished := after_rate_limit (timer_late w) now st;
          attempts := [] |})
  /\ (forall (w : events_turn) (world : list events_turn) (now : Z),
        events_ending_of (getEvents (w :: world) now st) = EventsThrown e
        /\ events_final (getEvents (w :: world) now st) = st
        /\ events_attempts (getEvents (w :: world) now st) = [])
  /\ (e = TypeError <-> savedAuth st !! clientID st = None).
Proof.
  repeat split.
  - cbn [requestAppliances_loop]. rewrite Hauth. reflexivity.
  - cbn [getEvents]. rewrite Hauth. reflexivity.
  - cbn [getEvents]. rewrite Hauth. reflexivity.
  - cbn [getEvents]. rewrite Hauth. reflexivity.
  - unfold getAuthorisation in Hauth.
    destruct (savedAuth st !! clientID st); [|reflexivity].
    destruct (truthy _); [discriminate|]. injection Hauth as <-. discriminate.
  - unfold getAuthorisation in Hauth. intros Hn. rewrite Hn in Hauth.
    injection Hauth as <-. reflexivity.
Qed.

(** The client without a record, in a world that would answer. *)
Lemma X6_unauthorised_call_requests_nothing_witness :
  requestAppliances_loop Scenarios.get_appliances [Examples.success_turn] 0
    Examples.unauthorised
  = {| ending_of := Raised_thrown TypeError; final := Examples.unauthorised;
       finished := 0; attempts := [] |}.
Proof.
  exact (proj1 (X6_unauthorised_call_requests_nothing
                  Examples.unauthorised TypeError eq_refl)
               Scenarios.get_appliances Examples.success_turn [] 0).
Defined.

End Requests.

(** *** Saving and invalidating tokens *)

Section Tokens.

(** X7.  What tokenSave stores is what the reads find: the record of the
    client holds the tokens, the expiry and the scopes; getAuthorisation
    gives the access token when it is truthy; waitUntilAuthorised resolves
    at once before the expiry and queues from the expiry on; after
    tokenInvalidate the client is not authorised, after authInvalidate it
    has no record; the records of other clients are untouched. *)
Theorem X7_tokenSave_then_read (now : Z) (token : value) (st : api) :
  let st' := tokenSave now token st in
  savedAuth st' !! clientID st
  = Some (Auth.mk (get token (lit "refresh_token"))
                  (Some (get token (lit "access_token")))
                  (num_add (Num now)
                     (num_mul (to_number (get token (lit "expires_in"))) (Num MS)))
                  (Some (scopes st)))
  /\ getAuthorisation st'
     = (if truthy (get token (lit "access_token"))
        then inl (get token (lit "access_token")) else inr NotAuthorised)
  /\ (forall n now' : Z,
        truthy (get token (lit "access_token")) = true ->
        to_number (get token (lit "expires_in")) = Num n ->
        now' < now + n * MS ->
        waitUntilAuthorised now' st' = (Resolved, st'))
  /\ (forall n now' : Z,
        to_number (get token (lit "expires_in")) = Num n ->
        now + n * MS <= now' ->
        fst (waitUntilAuthorised now' st') = Queued (promises st))
  /\ getAuthorisation (tokenInvalidate st') = inr NotAuthorised
  /\ savedAuth (authInvalidate st') !! clientID st = None
  /\ (forall id : jsstring,
        id <> clientID st -> savedAuth st' !! id = savedAuth st !! id).
Proof.
  intros st'. subst st'. unfold tokenSave.
  assert (L : savedAuth (set_savedAuth
                (<[clientID st := Auth.mk (get token (lit "refresh_token"))
                     (Some (get token (lit "access_token")))
                     (num_add (Num now)
                        (num_mul (to_number (get token (lit "expires_in"))) (Num MS)))
                     (Some (scopes st))]> (savedAuth st)) st) !! clientID st
              = Some (Auth.mk (get token (lit "refresh_token"))
                     (Some (get token (lit "access_token")))
                     (num_add (Num now)
                        (num_mul (to_number (get token (lit "expires_in"))) (Num MS)))
                     (Some (scopes st)))).
  { cbn. apply lookup_insert_eq. }
  split; [exact L|].
  split.
  { unfold getAuthorisation. cbn [clientID set_savedAuth]. cbn [clientID] in L.
    rewrite L. reflexivity. }
  split.
  { intros n now' Ht Hn Hlt. unfold waitUntilAuthorised.
    cbn [clientID set_savedAuth]. cbn [clientID] in L. rewrite L.
    unfold read_accessToken. cbn [Auth.accessToken Auth.accessExpires].
    rewrite Ht, Hn. cbn. apply Z.ltb_lt in Hlt. rewrite Hlt. reflexivity. }
  split.
  { intros n now' Hn Hle. unfold waitUntilAuthorised.
    cbn [clientID set_savedAuth]. cbn [clientID] in L. rewrite L.
    unfold read_accessToken. cbn [Auth.accessToken Auth.accessExpires].
    rewrite Hn. cbn. apply Z.ltb_ge in Hle. rewrite Hle, andb_false_r.
    reflexivity. }
  split.
  { unfold getAuthorisation, tokenInvalidate.
    match goal with |- context [wake ?x] =>
      destruct (wake_frame x) as (Hid & _); rewrite wake_savedAuth, Hid end.
    cbn. rewrite lookup_alter_eq, lookup_insert_eq. reflexivity. }
  split.
  { unfold authInvalidate. rewrite wake_savedAuth. cbn. apply lookup_delete_eq. }
  intros id Hne. cbn. apply lookup_insert_ne. congruence.
Qed.

(** A token granted at time 0 for a day, asked for at time 10. *)
Lemma X7_tokenSave_then_read_witness :
  waitUntilAuthorised 10 (tokenSave 0 Scenarios.granted Examples.unauthorised)
  = (Resolved, tokenSave 0 Scenarios.granted Examples.unauthorised).
Proof.
  assert (Hlt : 10 < 0 + 86400 * MS) by (vm_compute; reflexivity).
  exact (proj1 (proj2 (proj2 (X7_tokenSave_then_read
                                0 Scenarios.granted Examples.unauthorised)))
               86400 10 eq_refl eq_refl Hlt).
Defined.

Lemma wake_set_savedAuth (m : gmap jsstring Auth.t) (st : api) :
  wake (set_savedAuth m st) = set_savedAuth m (wake st).
Proof. unfold wake. destruct st as [? ? ? ? ? ? [[| |]|] ? ?]; reflexivity. Qed.

(** One invalidation after another: the two changes of the records, and
    one wake. *)
Lemma invalidate_twice
    (g h : jsstring -> gmap jsstring Auth.t -> gmap jsstring Auth.t) (st : api) :
  let h_st := wake (set_savedAuth (h (clientID st) (savedAuth st)) st) in
  wake (set_savedAuth (g (clientID h_st) (savedAuth h_st)) h_st)
  = set_savedAuth (g (clientID st) (h (clientID st) (savedAuth st))) (wake st).
Proof.
  unfold wake. destruct st as [? ? ? ? ? ? [[| |]|] ? ?]; reflexivity.
Qed.

(** X8.  Invalidating twice is invalidating once, and discarding the
    record absorbs discarding the access token, in either order: the
    fields of the object are the same (the message of the error the sleep
    is rejected with, which only goes to the log, is that of the first
    call). *)
Theorem X8_invalidations_compose (st : api) :
  tokenInvalidate (tokenInvalidate st) = tokenInvalidate st
  /\ authInvalidate (authInvalidate st) = authInvalidate st
  /\ authInvalidate (tokenInvalidate st) = authInvalidate st
  /\ tokenInvalidate (authInvalidate st) = authInvalidate st.
Proof.
  unfold tokenInvalidate, authInvalidate.
  pose proof (invalidate_twice (alter delete_accessToken)
                (alter delete_accessToken) st) as H1.
  pose proof (invalidate_twice delete delete st) as H2.
  pose proof (invalidate_twice delete (alter delete_accessToken) st) as H3.
  pose proof (invalidate_twice (alter delete_accessToken) delete st) as H4.
  cbv zeta in H1, H2, H3, H4. rewrite H1, H2, H3, H4.
  rewrite (wake_set_savedAuth
             (alter delete_accessToken (clientID st) (savedAuth st))),
          (wake_set_savedAuth (delete (clientID st) (savedAuth st))).
  repeat split; f_equal; apply map_eq; intros i;
    destruct (decide (i = clientID st)) as [->|Hne].
  - rewrite !lookup_alter_eq. destruct (savedAuth st !! clientID st); reflexivity.
  - rewrite !lookup_alter_ne by congruence. reflexivity.
  - rewrite !lookup_delete_eq. reflexivity.
  - rewrite !lookup_delete_ne by congruence. reflexivity.
  - rewrite !lookup_delete_eq. reflexivity.
  - rewrite !lookup_delete_ne, lookup_alter_ne by congruence. reflexivity.
  - rewrite lookup_alter_eq, !lookup_delete_eq. reflexivity.
  - rewrite lookup_alter_ne, !lookup_delete_ne by congruence. reflexivity.
Qed.

End Tokens.

(** *** authoriseClient, continued *)

Section Machine.

Lemma settle_keeps_none (opts : options) (reply : settlement) (now : Z)
    (st : api) :
  savedAuth st !! clientID st = None ->
  savedAuth (snd (requestRaw_settle opts reply now st))
    !! clientID (snd (requestRaw_settle opts reply now st)) = None.
Proof.
  intros Hn. unfold requestRaw_settle.
  destruct reply as [v|[r|]]; cbn [snd]; auto.
  assert (Ha : savedAuth (authInvalidate st) !! clientID (authInvalidate st) = None).
  { destruct (authInvalidate_lookup st) as (-> & -> & _). apply lookup_delete_eq. }
  assert (Ht : savedAuth (tokenInvalidate st) !! clientID (tokenInvalidate st) = None).
  { unfold tokenInvalidate.
    match goal with |- context [wake ?x] =>
      destruct (wake_frame x) as (Hid & _); rewrite wake_savedAuth, Hid end.
    cbn. rewrite lookup_alter_eq, Hn. reflexivity. }
  assert (Hr : forall h, savedAuth (retryAfter now h st)
                           !! clientID (retryAfter now h st) = None).
  { intros h. rewrite retryAfter_frame. exact Hn. }
  case_conditions; cbn [snd]; auto.
Qed.

Lemma authorise_refresh_phase (now : Z) (st : api) :
  phase_of (snd (authorise_refresh now st)) <> Authorizing.
Proof.
  unfold authorise_refresh.
  destruct (savedAuth st !! clientID st) as [a|]; [|discriminate].
  destruct (num_sub _ _) as [|d]; [discriminate|].
  destruct (_ && _); discriminate.
Qed.

Lemma owns_catch (st : api) : owns (authorise_catch st).
Proof. intros H. discriminate H. Qed.

Lemma owns_refresh (now : Z) (st : api) : owns (authorise_refresh now st).
Proof. intros H. exfalso. exact (authorise_refresh_phase now st H). Qed.

Lemma owns_top (now : Z) (st : api) : owns (authorise_top now st).
Proof.
  unfold authorise_top.
  destruct (savedAuth st !! clientID st) as [a|] eqn:E; [apply owns_refresh|].
  intros _. exact E.
Qed.

(** X9.  authoriseClient is inside the device flow or the code grant flow
    only while the client has no record: this holds when the constructor
    has called it, and whatever resumes it and whatever request of another
    caller settles in between keeps it.  So a flow never runs over a
    record, and no record appears during a flow. *)
Theorem X9_flows_run_only_without_record :
  (forall (now : Z) (st : api), owns (authoriseClient now st))
  /\ (forall (now : Z) (ev : resume) (m : api * ctl),
        owns m -> owns (authorise_step now ev m))
  /\ (forall (opts : options) (reply : settlement) (now : Z) (st : api) (c : ctl),
        owns (st, c) -> owns (snd (requestRaw_settle opts reply now st), c)).
Proof.
  split; [exact owns_top|]. split.
  - intros now ev [st c] Hm. unfold authorise_step.
    destruct c, ev; try exact Hm.
    + pose proof (settle_keeps_none (device_options st) s now st (Hm eq_refl)) as Hk.
      destruct (requestRaw_settle (device_options st) s now st) as [[resp|e] st1];
        [|apply owns_catch].
      destruct (nullish resp); [apply owns_catch|]. intros _. exact Hk.
    + destruct (requestRaw_settle (token_options st) s now st) as [[token|e] st1] eqn:E;
        [|apply owns_catch].
      destruct (truthy token); [apply owns_refresh|].
      pose proof (settle_keeps_none (token_options st) s now st (Hm eq_refl)) as Hk.
      rewrite E in Hk. intros _. exact Hk.
    + pose proof (settle_keeps_none (authorize_options st) s now st (Hm eq_refl)) as Hk.
      destruct (requestRaw_settle (authorize_options st) s now st) as [[v|e] st1];
        [|apply owns_catch].
      destruct v; try apply owns_catch. intros _. exact Hk.
    + destruct (requestRaw_settle (token_options st) s now st) as [[token|e] st1];
        [|apply owns_catch].
      destruct (nullish token); [apply owns_catch|apply owns_refresh].
    + destruct (sleepReject st) as [[| |]|]; try exact Hm. intros H. discriminate H.
    + destruct (sleepReject st) as [[| |]|]; try exact Hm. apply owns_catch.
    + destruct (requestRaw_settle (token_options st) s now st) as [[token|e] st1];
        [|apply owns_catch].
      destruct (truthy token); [apply owns_refresh|apply owns_catch].
    + apply owns_top.
  - intros opts reply now st c Hm Hp. cbn [fst snd] in *.
    apply settle_keeps_none. exact (Hm Hp).
Qed.

(** The client without a record: started, then its request failing. *)
Lemma X9_flows_run_only_without_record_witness :
  owns (authorise_step 5 (Reply (Rejects OtherError))
          (authoriseClient 0 Examples.unauthorised)).
Proof.
  exact (proj1 (proj2 X9_flows_run_only_without_record)
               5 (Reply (Rejects OtherError))
               (authoriseClient 0 Examples.unauthorised)
               (proj1 X9_flows_run_only_without_record 0 Examples.unauthorised)).
Defined.

(** X10.  When a request to the token endpoint is answered with a token
    whose access token is a non-empty string and which expires after [n]
    seconds, the token is saved and, when [n] seconds are more than the
    refresh window of an hour, the promises of waitUntilAuthorised are
    resolved and authoriseClient sleeps until the window opens; otherwise
    nothing is resolved and the token is refreshed at once. *)
Theorem X10_grant_schedules_refresh (now n : Z) (token : value)
    (access : jsstring) (st : api) (c : ctl)
    (Hc : awaits_token c = true)
    (Haccess : get token (lit "access_token") = Str access)
    (Hne : access <> [])
    (Hexp : to_number (get token (lit "expires_in")) = Num n) :
  let saved := tokenSave now token st in
  authorise_step now (Reply (Resolves token)) (st, c)
  = if TOKEN_REFRESH_WINDOW * MS <? n * MS then
      (set_sleepReject (Some Pending) (set_authResolve [] (promises st) saved),
       RefreshSleep (n * MS - TOKEN_REFRESH_WINDOW * MS)
                    (get token (lit "refresh_token")))
    else (requestRaw_issue saved, AwaitRefresh).
Proof.
  intros saved.
  assert (Htruthy : truthy token = true) by exact (get_Str_truthy _ _ _ Haccess).
  assert (Hnn : nullish token = false).
  { destruct token; try discriminate Htruthy; reflexivity. }
  assert (Hr : authorise_refresh now saved
               = if TOKEN_REFRESH_WINDOW * MS <? n * MS then
                   (set_sleepReject (Some Pending)
                      (set_authResolve [] (promises st) saved),
                    RefreshSleep (n * MS - TOKEN_REFRESH_WINDOW * MS)
                                 (get token (lit "refresh_token")))
                 else (requestRaw_issue saved, AwaitRefresh)).
  { unfold authorise_refresh. subst saved. unfold tokenSave.
    cbn [savedAuth clientID set_savedAuth]. rewrite lookup_insert_eq.
    cbn [Auth.accessExpires Auth.refreshToken read_accessToken Auth.accessToken].
    rewrite Hexp, Haccess. cbn [num_mul num_add num_sub truthy].
    destruct access as [|x access]; [contradiction|]. cbn [andb].
    replace (now + n * MS - now - TOKEN_REFRESH_WINDOW * MS)
      with (n * MS - TOKEN_REFRESH_WINDOW * MS) by lia.
    destruct (TOKEN_REFRESH_WINDOW * MS <? n * MS) eqn:E.
    - apply Z.ltb_lt in E.
      assert (E' : (0 <? n * MS - TOKEN_REFRESH_WINDOW * MS) = true)
        by (apply Z.ltb_lt; lia).
      rewrite E'. reflexivity.
    - apply Z.ltb_ge in E.
      assert (E' : (0 <? n * MS - TOKEN_REFRESH_WINDOW * MS) = false)
        by (apply Z.ltb_ge; lia).
      rewrite E'. reflexivity. }
  unfold authorise_step.
  destruct c; try discriminate Hc; cbn [requestRaw_settle];
    rewrite ?Htruthy, ?Hnn; exact Hr.
Qed.

(** The device flow granted a token for a day at time 0: the client sleeps
    for 23 hours. *)
Lemma X10_grant_schedules_refresh_witness :
  authorise_step 0 (Reply (Resolves Scenarios.granted))
    (Examples.unauthorised, AwaitDeviceToken Scenarios.verification)
  = (set_sleepReject (Some Pending)
       (set_authResolve [] 0
          (tokenSave 0 Scenarios.granted Examples.unauthorised)),
     RefreshSleep 82800000 (Str (lit "R2"))).
Proof.
  assert (Hne : lit "A2" <> []) by discriminate.
  exact (X10_grant_schedules_refresh 0 86400 Scenarios.granted (lit "A2")
           Examples.unauthorised (AwaitDeviceToken Scenarios.verification)
           eq_refl eq_refl Hne eq_refl).
Defined.

End Machine.

Section MachineRuns.

Lemma settle_pending (opts : options) (r : response) (now : Z) (st : api) :
  redirected opts r = false ->
  is_oauth_error (inspected opts r) (lit "authorization_pending") ->
  requestRaw_settle opts (Rejects (StatusCodeError r)) now st = (Return Null, st).
Proof.
  intros Hred [Hd Hc]. unfold requestRaw_settle.
  rewrite Hred, (get_truthy _ _ Hd), Hd, Hc. reflexivity.
Qed.

(** X11.  While the token endpoint answers authorization_pending, the
    device flow polls again after each interval, whatever the times: after
    any number of rounds it awaits the token as before, and the object
    differs by the requests counted only, one for each round. *)
Theorem X11_pending_keeps_polling (r : response) (resp : value)
    (times : list (Z * Z)) (st : api)
    (Hred : redirected (token_options st) r = false)
    (Hbody : is_oauth_error (inspected (token_options st) r)
                            (lit "authorization_pending")) :
  authorise_run (poll_rounds (Rejects (StatusCodeError r)) times)
                (st, AwaitDeviceToken resp)
  = (set_requestCount (length times + requestCount st) st,
     AwaitDeviceToken resp).
Proof.
  revert st Hred Hbody.
  induction times as [|[answered fired] times IH]; intros st Hred Hbody.
  - destruct st; reflexivity.
  - cbn [poll_rounds authorise_run fold_left fst snd].
    cbn [authorise_step]. rewrite (settle_pending _ _ _ _ Hred Hbody).
    cbn [truthy authorise_step].
    change (fold_left (fun m e => authorise_step (fst e) (snd e) m)
              (poll_rounds (Rejects (StatusCodeError r)) times)
              (requestRaw_issue st, AwaitDeviceToken resp))
      with (authorise_run (poll_rounds (Rejects (StatusCodeError r)) times)
              (requestRaw_issue st, AwaitDeviceToken resp)).
    rewrite IH; [|exact Hred|exact Hbody].
    destruct st; unfold set_requestCount, requestRaw_issue, set_requestCount.
    cbn. rewrite Nat.add_succ_r. reflexivity.
Qed.

(** Three rounds of polling. *)
Lemma X11_pending_keeps_polling_witness :
  authorise_run (poll_rounds (Rejects (StatusCodeError Scenarios.pending))
                             Scenarios.three_rounds)
                (Examples.unauthorised, AwaitDeviceToken Scenarios.verification)
  = (set_requestCount 3 Examples.unauthorised,
     AwaitDeviceToken Scenarios.verification).
Proof.
  assert (Hbody : is_oauth_error
                    (inspected (token_options Examples.unauthorised)
                               Scenarios.pending)
                    (lit "authorization_pending")) by (split; reflexivity).
  exact (X11_pending_keeps_polling Scenarios.pending Scenarios.verification
           Scenarios.three_rounds Examples.unauthorised eq_refl Hbody).
Defined.

(** X12.  When the refresh of the token fails in the transport, the
    client keeps its record without the access token, so its requests are
    refused as not authorised, and sleeps for the refresh retry delay of 5
    seconds; when the timer fires it requests the refresh again, the
    record still without an access token. *)
Theorem X12_refresh_failure_retries (now now' : Z) (st : api) (auth : Auth.t)
    (Hsaved : savedAuth st !! clientID st = Some auth) :
  let m1 := authorise_step now (Reply (Rejects OtherError)) (st, AwaitRefresh) in
  let m2 := authorise_step now' TimerFired m1 in
  m1 = (tokenInvalidate st, RetrySleep (REFRESH_RETRY_DELAY * MS))
  /\ getAuthorisation (fst m1) = inr NotAuthorised
  /\ snd m2 = AwaitRefresh
  /\ savedAuth (fst m2) !! clientID st = Some (delete_accessToken auth)
  /\ requestCount (fst m2) = S (requestCount st).
Proof.
  intros m1 m2. subst m2 m1.
  destruct st as [cid sim sa sc ar pr sr er rc]. cbn in Hsaved.
  unfold getAuthorisation, authorise_step, authorise_catch, authorise_top,
    tokenInvalidate, wake.
  destruct sr as [[| |]|]; cbn; rewrite !lookup_alter_eq, Hsaved; cbn;
    rewrite ?lookup_alter_eq, ?Hsaved; cbn;
    (split; [reflexivity|]); (split; [reflexivity|]);
    destruct (Auth.scopes auth); unfold authorise_refresh; cbn;
    rewrite !lookup_alter_eq, Hsaved; cbn;
    destruct (num_sub _ _); cbn; rewrite ?lookup_alter_eq, ?Hsaved; auto.
Qed.

(** The authorised client, its refresh failing at time 10. *)
Lemma X12_refresh_failure_retries_witness :
  getAuthorisation
    (fst (authorise_step 10 (Reply (Rejects OtherError))
            (Examples.authorised, AwaitRefresh)))
  = inr NotAuthorised
  /\ snd (authorise_step 5010 TimerFired
            (authorise_step 10 (Reply (Rejects OtherError))
               (Examples.authorised, AwaitRefresh)))
     = AwaitRefresh.
Proof.
  pose proof (X12_refresh_failure_retries 10 5010 Examples.authorised
                Examples.saved eq_refl) as H.
  split; [exact (proj1 (proj2 H))|exact (proj1 (proj2 (proj2 H)))].
Defined.

(** X13.  When the record of the client is discarded while authoriseClient
    sleeps until the refresh, the sleep is rejected: its timer firing
    later does nothing, and authoriseClient, resumed by the rejection,
    sleeps for the authorisation retry delay of 60 seconds and then
    starts an authorisation flow, the client having no record. *)
Theorem X13_invalidation_wakes_refresh_sleep (d now1 now2 now3 : Z)
    (refreshToken : value) (st : api)
    (Hsleep : sleepReject st = Some Pending) :
  let st1 := authInvalidate st in
  let m1 := authorise_step now2 SleepRejected (st1, RefreshSleep d refreshToken) in
  let m2 := authorise_step now3 TimerFired m1 in
  authorise_step now1 TimerFired (st1, RefreshSleep d refreshToken)
  = (st1, RefreshSleep d refreshToken)
  /\ snd m1 = RetrySleep (AUTH_RETRY_DELAY * MS)
  /\ phase_of (snd m2) = Authorizing
  /\ savedAuth (fst m2) !! clientID st = None
  /\ requestCount (fst m2) = S (requestCount st).
Proof.
  intros st1 m1 m2. subst m2 m1 st1.
  destruct st as [cid sim sa sc ar pr sr er rc]. cbn in Hsleep. subst sr.
  unfold authInvalidate, wake, authorise_step, authorise_catch, tokenInvalidate,
    wake, authorise_top. cbn.
  rewrite !lookup_alter_eq, !lookup_delete_eq. cbn.
  rewrite !lookup_alter_eq, !lookup_delete_eq. cbn.
  repeat split. destruct sim; reflexivity.
Qed.

(** The sleeping client, its record discarded. *)
Lemma X13_invalidation_wakes_refresh_sleep_witness :
  snd (authorise_step 20 SleepRejected
         (authInvalidate Scenarios.asleep, RefreshSleep 1400 (Str (lit "R"))))
  = RetrySleep (AUTH_RETRY_DELAY * MS)
  /\ phase_of
       (snd (authorise_step 60020 TimerFired
               (authorise_step 20 SleepRejected
                  (authInvalidate Scenarios.asleep,
                   RefreshSleep 1400 (Str (lit "R"))))))
     = Authorizing.
Proof.
  pose proof (X13_invalidation_wakes_refresh_sleep 1400 30 20 60020
                (Str (lit "R")) Scenarios.asleep eq_refl) as H.
  split; [exact (proj1 (proj2 H))|exact (proj1 (proj2 (proj2 H)))].
Defined.

End MachineRuns.

Section ScopesInvariant.

Lemma agree_wake (st : api) : scopes_agree st -> scopes_agree (wake st).
Proof.
  unfold scopes_agree. destruct (wake_frame st) as (-> & _ & -> & _).
  rewrite wake_savedAuth. auto.
Qed.

Lemma agree_tokenInvalidate (st : api) :
  scopes_agree st -> scopes_agree (tokenInvalidate st).
Proof.
  intros H. unfold tokenInvalidate. apply agree_wake.
  intros a l. cbn. rewrite lookup_alter_eq.
  destruct (savedAuth st !! clientID st) as [a0|] eqn:E; [|discriminate].
  intros Ha; injection Ha as <-. cbn. apply (H a0 l E).
Qed.

Lemma agree_authInvalidate (st : api) : scopes_agree (authInvalidate st).
Proof.
  unfold authInvalidate. apply agree_wake.
  intros a l. cbn. rewrite lookup_delete_eq. discriminate.
Qed.

Lemma agree_retryAfter (now : Z) (h : value) (st : api) :
  scopes_agree st -> scopes_agree (retryAfter now h st).
Proof. rewrite retryAfter_frame. exact (fun H => H). Qed.

Lemma agree_settle (opts : options) (reply : settlement) (now : Z) (st : api) :
  scopes_agree st -> scopes_agree (snd (requestRaw_settle opts reply now st)).
Proof.
  intros H. unfold requestRaw_settle.
  destruct reply as [v|[r|]]; cbn [snd]; auto.
  case_conditions; cbn [snd];
    auto using agree_tokenInvalidate, agree_authInvalidate, agree_retryAfter.
Qed.

Lemma agree_tokenSave (now : Z) (token : value) (st : api) :
  scopes_agree (tokenSave now token st).
Proof.
  intros a l. unfold tokenSave. cbn. rewrite lookup_insert_eq.
  intros Ha; injection Ha as <-. cbn. intros Hl; injection Hl as <-. reflexivity.
Qed.

Lemma agree_catch (st : api) :
  scopes_agree st -> scopes_agree (fst (authorise_catch st)).
Proof. apply agree_tokenInvalidate. Qed.

Lemma agree_refresh (now : Z) (st : api) :
  scopes_agree st -> scopes_agree (fst (authorise_refresh now st)).
Proof.
  intros H. unfold authorise_refresh.
  destruct (savedAuth st !! clientID st) as [a|]; [|apply agree_catch; exact H].
  destruct (num_sub _ _) as [|d]; [exact H|].
  destruct (_ && _); exact H.
Qed.

Lemma agree_top (now : Z) (st : api) :
  scopes_agree (fst (authorise_top now st)).
Proof.
  unfold authorise_top.
  destruct (savedAuth st !! clientID st) as [a|] eqn:E.
  - apply agree_refresh. destruct (Auth.scopes a) as [l|] eqn:El.
    + intros a' l'. cbn. rewrite E. intros Ha; injection Ha as <-.
      rewrite El. intros Hl; injection Hl as <-. reflexivity.
    + intros a' l'. rewrite E. intros Ha; injection Ha as <-.
      rewrite El. discriminate.
  - intros a l. cbn. rewrite E. discriminate.
Qed.

(** X14.  The scopes hasScope consults are those of the client's record
    whenever the record names scopes: this holds once the constructor has
    called authoriseClient, and resuming authoriseClient or settling a
    request keeps it.  In particular a client constructed over a saved
    record with scopes answers hasScope from the saved scopes, not from
    the list built into the source. *)
Theorem X14_scopes_are_those_saved :
  (forall (now : Z) (st : api), scopes_agree (fst (authoriseClient now st)))
  /\ (forall (now : Z) (ev : resume) (m : api * ctl),
        scopes_agree (fst m) -> scopes_agree (fst (authorise_step now ev m)))
  /\ (forall (opts : options) (reply : settlement) (now : Z) (st : api),
        scopes_agree st ->
        scopes_agree (snd (requestRaw_settle opts reply now st)))
  /\ (forall (now : Z) (id : jsstring) (simulator : bool)
             (saved : gmap jsstring Auth.t) (a : Auth.t) (l : list jsstring),
        saved !! id = Some a -> Auth.scopes a = Some l ->
        scopes (fst (authoriseClient now (new id simulator saved now))) = l).
Proof.
  split; [exact agree_top|]. split; [|split; [exact agree_settle|]].
  - intros now ev [st c] H. cbn [fst] in H. unfold authorise_step.
    destruct c, ev; try exact H.
    + pose proof (agree_settle (device_options st) s now st H) as Hs.
      destruct (requestRaw_settle (device_options st) s now st) as [[resp|e] st1];
        cbn [snd] in Hs; [|apply agree_catch; exact Hs].
      destruct (nullish resp); [apply agree_catch|]; exact Hs.
    + pose proof (agree_settle (token_options st) s now st H) as Hs.
      destruct (requestRaw_settle (token_options st) s now st) as [[token|e] st1];
        cbn [snd] in Hs; [|apply agree_catch; exact Hs].
      destruct (truthy token); [apply agree_refresh, agree_tokenSave|exact Hs].
    + pose proof (agree_settle (authorize_options st) s now st H) as Hs.
      destruct (requestRaw_settle (authorize_options st) s now st) as [[v|e] st1];
        cbn [snd] in Hs; [|apply agree_catch; exact Hs].
      destruct v; try (apply agree_catch; exact Hs). exact Hs.
    + pose proof (agree_settle (token_options st) s now st H) as Hs.
      destruct (requestRaw_settle (token_options st) s now st) as [[token|e] st1];
        cbn [snd] in Hs; [|apply agree_catch; exact Hs].
      destruct (nullish token);
        [apply agree_catch; exact Hs|apply agree_refresh, agree_tokenSave].
    + destruct (sleepReject st) as [[| |]|]; exact H.
    + destruct (sleepReject st) as [[| |]|]; try exact H. apply agree_catch; exact H.
    + pose proof (agree_settle (token_options st) s now st H) as Hs.
      destruct (requestRaw_settle (token_options st) s now st) as [[token|e] st1];
        cbn [snd] in Hs; [|apply agree_catch; exact Hs].
      destruct (truthy token);
        [apply agree_refresh, agree_tokenSave|apply agree_catch; exact Hs].
    + apply agree_top.
  - intros now id sim saved a l Ha Hl.
    pose proof (agree_top now (new id sim saved now)) as H.
    assert (Hrec : exists a', savedAuth (fst (authorise_top now (new id sim saved now)))
                      !! clientID (fst (authorise_top now (new id sim saved now)))
                    = Some a' /\ Auth.scopes a' = Some l).
    { unfold authorise_top. cbn [savedAuth clientID new]. rewrite Ha, Hl.
      unfold authorise_refresh. cbn [savedAuth clientID set_scopes new].
      rewrite Ha.
      destruct (num_sub _ _) as [|d];
        [exists a; split; [cbn; exact Ha|exact Hl]|].
      destruct (_ && _); [exists a; split; [cbn; exact Ha|exact Hl]|].
      exists a; split; [cbn; exact Ha|exact Hl]. }
    destruct Hrec as (a' & Ha' & Hl'). exact (H a' l Ha' Hl').
Qed.

(** A live client constructed over a record that names the one scope
    Monitor: once authoriseClient has started its scopes are that one, not
    the fifteen of the source, and they still are when its refresh has
    failed. *)
Lemma X14_scopes_are_those_saved_witness :
  scopes (fst (authoriseClient 0 Scenarios.monitoring)) = [lit "Monitor"]
  /\ scopes (fst (authorise_step 5 (Reply (Rejects OtherError))
                    (authoriseClient 0 Scenarios.monitoring)))
     = [lit "Monitor"].
Proof.
  split.
  - exact (proj2 (proj2 (proj2 X14_scopes_are_those_saved))
                 0 Examples.id false (<[Examples.id := Scenarios.monitor]> ∅)
                 Scenarios.monitor [lit "Monitor"] eq_refl eq_refl).
  - exact (proj1 (proj2 X14_scopes_are_those_saved)
                 5 (Reply (Rejects OtherError))
                 (authoriseClient 0 Scenarios.monitoring)
                 (proj1 X14_scopes_are_those_saved 0 Scenarios.monitoring)
                 (delete_accessToken Scenarios.monitor) [lit "Monitor"]
                 eq_refl eq_refl).
Defined.

End ScopesInvariant.

(** *** The patterns of the events stream *)

Section FieldPattern.

Lemma drop_space_split (s : jsstring) :
  exists ws, s = ws ++ drop_space s /\ forallb is_space ws = true
             /\ match drop_space s with
                | c :: _ => is_space c = false
                | [] => True
                end.
Proof.
  induction s as [|c s (ws & Hs & Hw & Hh)]; [exists []; repeat split|].
  cbn [drop_space]. destruct (is_space c) eqn:Hc.
  - exists (c :: ws). cbn. rewrite Hc, Hw, <- Hs. repeat split. exact Hh.
  - exists []. repeat split. exact Hc.
Qed.

Lemma drop_space_app (ws text : jsstring) :
  forallb is_space ws = true ->
  match text with c :: _ => is_space c = false | [] => True end ->
  drop_space (ws ++ text) = text.
Proof.
  intros Hw Ht. induction ws as [|c ws IH]; cbn.
  - destruct text as [|c text]; [reflexivity|]. cbn. rewrite Ht. reflexivity.
  - cbn in Hw. apply andb_true_iff in Hw as [Hc Hw]. rewrite Hc. auto.
Qed.

(** X15.  The pattern of a field line matches exactly the lines made of a
    non-empty word, a colon, white space and a text that neither starts
    with white space nor holds a line terminator; the key is the word and
    the value the text.  So the white space after the colon never reaches
    the value, and a line with a line terminator in its value is no field
    line. *)
Theorem X15_exec_field_characterised (line key text : jsstring) :
  Patterns.exec_field line = Some (key, text) <->
  exists ws : jsstring,
    line = key ++ Patterns.colon :: ws ++ text
    /\ key <> [] /\ forallb Patterns.is_word key = true
    /\ forallb is_space ws = true
    /\ match text with c :: _ => is_space c = false | [] => True end
    /\ forallb (fun c => negb (is_line_terminator c)) text = true.
Proof.
  unfold Patterns.exec_field. split.
  - destruct (Patterns.span Patterns.is_word line) as [k rest] eqn:Hs.
    destruct k as [|x k]; [discriminate|].
    destruct rest as [|c rest]; [discriminate|].
    destruct (c =? Patterns.colon)%N eqn:Hc; [|discriminate].
    destruct (forallb _ (drop_space rest)) eqn:Hl; [|discriminate].
    intros H; injection H as <- <-.
    apply N.eqb_eq in Hc. subst c.
    apply span_app in Hs as [-> Hk].
    destruct (drop_space_split rest) as (ws & Hr & Hw & Hh).
    exists ws. rewrite <- Hr. repeat split; auto; discriminate.
  - intros (ws & -> & Hne & Hk & Hw & Hh & Hl).
    rewrite (span_stop _ _ _ _ Hk); [|reflexivity].
    destruct key as [|x key]; [contradiction|].
    rewrite N.eqb_refl, (drop_space_app _ _ Hw Hh), Hl. reflexivity.
Qed.






End FieldPattern.

(** *** The line callback of getEvents, continued *)

Section Reader.

Lemma continues_refl (rd : reader) : continues rd rd [].
Proof.
  repeat split; [symmetry; apply app_nil_r|constructor|].
  exists []. symmetry. apply app_nil_r.
Qed.

Lemma continues_trans (a b c : reader) (n1 n2 : list value) :
  continues a b n1 -> continues b c n2 -> continues a c (n1 ++ n2).
Proof.
  intros (E1 & F1 & m1 & L1) (E2 & F2 & m2 & L2). repeat split.
  - rewrite E2, E1, app_assoc. reflexivity.
  - apply Forall_app; split; assumption.
  - exists (m1 ++ m2). rewrite L2, L1, app_assoc. reflexivity.
Qed.

Lemma on_line_continues (line : jsstring) (rd : reader) :
  exists new,
    match on_line line rd with
    | Normal rd' | Abrupt _ rd' => continues rd rd' new
    end
    /\ (length new <= blank_lines [line])%nat.
Proof.
  unfold on_line. destruct line as [|c line].
  - destruct (event rd) as [|p ps] eqn:E.
    + exists []. split; [|cbn; lia]. repeat split; cbn;
        [symmetry; apply app_nil_r|constructor|exists []; symmetry; apply app_nil_r].
    + exists [Obj (p :: ps)]. split; [|cbn; lia]. repeat split; cbn.
      * repeat constructor. exists p, ps. reflexivity.
      * exists []. symmetry. apply app_nil_r.
  - exists []. split; [|cbn; lia].
    assert (Hlog : forall l, continues rd
              {| event := event rd; emitted := emitted rd; log := log rd ++ [l] |} []).
    { intros l. repeat split; cbn; [symmetry; apply app_nil_r|constructor|].
      exists [l]. reflexivity. }
    assert (Hev : forall ev, continues rd
              {| event := ev; emitted := emitted rd; log := log rd |} []).
    { intros ev. repeat split; cbn; [symmetry; apply app_nil_r|constructor|].
      exists []. symmetry. apply app_nil_r. }
    destruct (Patterns.test_comment (c :: line)); [apply Hlog|].
    destruct (Patterns.exec_field (c :: line)) as [[key text]|]; [|apply Hlog].
    destruct (_ && _); [|apply Hev].
    destruct (JSON.parse text); [apply Hev|apply continues_refl].
Qed.

Lemma each_line_continues (ls : list jsstring) :
  forall s : stream,
  exists new,
    match each_line ls s with
    | Normal s' | Abrupt _ s' =>
        continues (lines s) (lines s') new
        /\ aborted s' = aborted s /\ result s' = result s
        /\ attached s' = attached s
    end
    /\ (length new <= blank_lines ls)%nat.
Proof.
  induction ls as [|l ls IH]; intros s; cbn [each_line].
  - exists []. split; [|cbn; lia]. split; [apply continues_refl|auto].
  - unfold callbackLine.
    assert (Hb : (blank_lines ls <= blank_lines (l :: ls))%nat
                 /\ blank_lines (l :: ls)
                    = (blank_lines [l] + blank_lines ls)%nat).
    { unfold blank_lines. cbn [List.filter]. destruct l; cbn; lia. }
    destruct (aborted s) eqn:Ha.
    + destruct (IH s) as (new & H & Hl). rewrite Ha in H.
      exists new. split; [exact H|lia].
    + destruct (on_line_continues l (lines s)) as (n1 & H1 & L1).
      destruct (on_line l (lines s)) as [rd|x rd].
      * match goal with
        | |- context [each_line ls ?x] => destruct (IH x) as (n2 & H2 & L2)
        end.
        exists (n1 ++ n2). split; [|rewrite length_app; lia].
        destruct (each_line ls _) as [s'|x s'];
          destruct H2 as (Hc & Hab & Hr & Hat);
          cbn [lines aborted result attached] in *;
          (split; [eapply continues_trans; eassumption|auto]).
      * exists n1. split; [|lia]. cbn [lines aborted result attached]. auto.
Qed.

(** X17.  Whatever lines a stream is fed, and whether or not an exception
    ends them, the events emitted before stay as they are, in order, and
    so does the log; every event emitted is an object with a property at
    least, and there are at most as many new ones as empty lines. *)
Theorem X17_reader_emits_per_blank_line (ls : list jsstring) (s : stream) :
  exists new : list value,
    match each_line ls s with
    | Normal s' | Abrupt _ s' =>
        emitted (lines s') = emitted (lines s) ++ new
        /\ (exists more, log (lines s') = log (lines s) ++ more)
    end
    /\ Forall has_fields new
    /\ (length new <= blank_lines ls)%nat.
Proof.
  destruct (each_line_continues ls s) as (new & H & Hl). exists new.
  destruct (each_line ls s) as [s'|x s'];
    destruct H as ((He & Hf & Hm) & _); auto.
Qed.

Lemma lookup_set_prop_eq (k : jsstring) (v : value) (l : list (jsstring * value)) :
  lookup_prop k (set_prop k v l) = Some v.
Proof.
  induction l as [|[k' v'] l IH]; cbn.
  - rewrite str_eqb_refl. reflexivity.
  - destruct (str_eqb k k') eqn:E; cbn; rewrite E; [reflexivity|exact IH].
Qed.

Lemma lookup_set_prop_ne (k k2 : jsstring) (v : value)
    (l : list (jsstring * value)) :
  k2 <> k -> lookup_prop k2 (set_prop k v l) = lookup_prop k2 l.
Proof.
  intros Hne. induction l as [|[k' v'] l IH]; cbn.
  - destruct (str_eqb k2 k) eqn:E; [apply str_eqb_eq in E; contradiction|reflexivity].
  - destruct (str_eqb k k') eqn:E; cbn; [|rewrite IH; reflexivity].
    apply str_eqb_eq in E. subst k'.
    destruct (str_eqb k2 k) eqn:E2; [apply str_eqb_eq in E2; contradiction|reflexivity].
Qed.

Lemma exec_field_line (line key text : jsstring) :
  Patterns.exec_field line = Some (key, text) ->
  exists c rest, line = c :: rest /\ Patterns.test_comment line = false.
Proof.
  unfold Patterns.exec_field.
  destruct line as [|c rest]; [discriminate|]. intros H.
  exists c, rest. split; [reflexivity|].
  cbn [Patterns.span] in H. cbn [Patterns.test_comment].
  destruct (Patterns.is_word c) eqn:Hw; [|discriminate H].
  destruct (c =? Patterns.colon)%N eqn:E; [|reflexivity].
  apply N.eqb_eq in E. subst c. discriminate Hw.
Qed.

(** X18.  A field line whose key is not __proto__ sets that property of
    the event being collected and nothing else: the value is the text, but
    for a data line with a non-empty value, where it is what JSON.parse
    makes of the text; the other properties, the events emitted and the
    log are unchanged.  When JSON.parse fails the callback raises the
    SyntaxError and the reader is as before. *)
Theorem X18_field_line_assigns (line key text : jsstring) (rd : reader)
    (Hfield : Patterns.exec_field line = Some (key, text))
    (Hproto : key <> lit "__proto__") :
  let stored :=
    if str_eqb key (lit "data") then
      match text with
      | [] => Some (Str text)
      | _ :: _ => JSON.parse text
      end
    else Some (Str text) in
  match stored with
  | Some v =>
      exists rd',
        on_line line rd = Normal rd'
        /\ lookup_prop key (event rd') = Some v
        /\ (forall k, k <> key ->
              lookup_prop k (event rd') = lookup_prop k (event rd))
        /\ emitted rd' = emitted rd /\ log rd' = log rd
  | None => on_line line rd = Abrupt SyntaxError rd
  end.
Proof.
  destruct (exec_field_line _ _ _ Hfield) as (c & rest & -> & Hc).
  assert (Hp : str_eqb key (lit "__proto__") = false).
  { destruct (str_eqb key (lit "__proto__")) eqn:E; [|reflexivity].
    apply str_eqb_eq in E. contradiction. }
  assert (Hassign : forall v,
            exists rd',
              Normal {| event := assign key v (event rd);
                        emitted := emitted rd; log := log rd |} = Normal rd'
              /\ lookup_prop key (event rd') = Some v
              /\ (forall k, k <> key ->
                    lookup_prop k (event rd') = lookup_prop k (event rd))
              /\ emitted rd' = emitted rd /\ log rd' = log rd).
  { intros v. eexists. split; [reflexivity|]. cbn. unfold assign. rewrite Hp.
    repeat split; [apply lookup_set_prop_eq|].
    intros k Hk. apply lookup_set_prop_ne. exact Hk. }
  unfold on_line. rewrite Hc, Hfield.
  destruct (str_eqb key (lit "data")) eqn:Hd; cbn [andb].
  - destruct text as [|t text]; [apply Hassign|].
    cbv zeta. destruct (JSON.parse (t :: text)); [apply Hassign|reflexivity].
  - apply Hassign.
Qed.

(** The line of the NOTIFY field, read by a new reader. *)
Lemma X18_field_line_assigns_witness :
  exists rd',
    on_line Examples.notify_line new_reader = Normal rd'
    /\ lookup_prop (lit "event") (event rd') = Some (Str (lit "NOTIFY"))
    /\ (forall k, k <> lit "event" ->
          lookup_prop k (event rd') = lookup_prop k (event new_reader))
    /\ emitted rd' = emitted new_reader /\ log rd' = log new_reader.
Proof.
  assert (Hproto : lit "event" <> lit "__proto__") by discriminate.
  exact (X18_field_line_assigns Examples.notify_line (lit "event")
           (lit "NOTIFY") new_reader eq_refl Hproto).
Defined.

End Reader.

(** *** Streams, continued *)

Section Streams.

Lemma requestStreamRaw_on_stopped (ev : stream_event) (now : Z) (st : api)
    (s : stream) :
  aborted s = true ->
  match requestStreamRaw_on ev now (st, s) with
  | Normal (_, s') | Abrupt _ (_, s') => lines s' = lines s /\ aborted s' = true
  end.
Proof.
  intros H. destruct ev as [|r|chunk|r body]; cbn [requestStreamRaw_on].
  - split; [reflexivity|exact H].
  - split; [reflexivity|exact H].
  - destruct (attached s); [|split; [reflexivity|exact H]].
    rewrite (each_line_aborted _ _ H). split; [reflexivity|exact H].
  - assert (Hd : forall e, lines (callbackDone e s) = lines s
                           /\ aborted (callbackDone e s) = true).
    { intros [e|]; split; try reflexivity; exact H. }
    case_conditions; try apply Hd; split; try reflexivity; exact H.
Qed.

(** X20.  Once stopEvents has stopped a stream, whatever its request still
    emits reaches the line callback no more: the event being collected,
    the events emitted and the log stay as they were when it was
    stopped. *)
Theorem X20_stopped_stream_reads_nothing (ins : list (stream_input * Z)) :
  forall (st : api) (s : stream) (t : Z),
    match requestStream ((StopEvents, t) :: ins) (st, s) with
    | Normal (_, s') | Abrupt _ (_, s') =>
        lines s' = lines s /\ aborted s' = true
    end.
Proof.
  assert (H : forall ins (st : api) (s : stream), aborted s = true ->
            match requestStream ins (st, s) with
            | Normal (_, s') | Abrupt _ (_, s') =>
                lines s' = lines s /\ aborted s' = true
            end).
  { clear ins. induction ins as [|[[ev|] now] ins IH]; intros st s Ha;
      cbn [requestStream fst snd].
    - split; [reflexivity|exact Ha].
    - pose proof (requestStreamRaw_on_stopped ev now st s Ha) as He.
      destruct (requestStreamRaw_on ev now (st, s)) as [[st' s']|x [st' s']];
        [|exact He].
      destruct He as [Hl Ha']. specialize (IH st' s' Ha').
      destruct (requestStream ins (st', s')) as [[st2 s2]|x [st2 s2]];
        destruct IH as [IH1 IH2]; split; congruence.
    - specialize (IH st (abort s) eq_refl).
      destruct (requestStream ins (st, abort s)) as [[st2 s2]|x [st2 s2]];
        exact IH. }
  intros st s t. cbn [requestStream fst snd].
  specialize (H ins st (abort s) eq_refl).
  destruct (requestStream ins (st, abort s)) as [[st2 s2]|x [st2 s2]]; exact H.
Qed.

Lemma requestStreamRaw_on_unopened (ev : stream_event) (now : Z) (st : api)
    (s : stream) :
  attached s = false -> opens (Emits ev, now) = false ->
  match requestStreamRaw_on ev now (st, s) with
  | Normal (_, s') | Abrupt _ (_, s') => lines s' = lines s /\ attached s' = false
  end.
Proof.
  intros H Ho. destruct ev as [|r|chunk|r body]; cbn [requestStreamRaw_on].
  - split; [reflexivity|exact H].
  - cbn in Ho. cbn. rewrite H, Ho. split; reflexivity.
  - rewrite H. split; [reflexivity|exact H].
  - assert (Hd : forall e, lines (callbackDone e s) = lines s
                           /\ attached (callbackDone e s) = false).
    { intros [e|]; split; try reflexivity; exact H. }
    case_conditions; try apply Hd; split; try reflexivity; exact H.
Qed.

(** X21.  A stream whose request is never answered with status 200 has
    no data handler: whatever the request emits, data included, no line
    reaches the line callback. *)
Theorem X21_refused_stream_reads_nothing (ins : list (stream_input * Z))
    (Hall : Forall (fun i => opens i = false) ins) :
  forall (st : api) (s : stream),
    attached s = false ->
    match requestStream ins (st, s) with
    | Normal (_, s') | Abrupt _ (_, s') => lines s' = lines s
    end.
Proof.
  induction Hall as [|[[ev|] now] ins Ho Hall IH]; intros st s Ha;
    cbn [requestStream fst snd].
  - reflexivity.
  - pose proof (requestStreamRaw_on_unopened ev now st s Ha Ho) as He.
    destruct (requestStreamRaw_on ev now (st, s)) as [[st' s']|x [st' s']];
      [|tauto].
    destruct He as [Hl Ha']. specialize (IH st' s' Ha').
    destruct (requestStream ins (st', s')) as [[st2 s2]|x [st2 s2]]; congruence.
  - specialize (IH st (abort s) Ha).
    destruct (requestStream ins (st, abort s)) as [[st2 s2]|x [st2 s2]];
      exact IH.
Qed.

(** A stream refused with the invalid_token error. *)
Lemma X21_refused_stream_reads_nothing_witness :
  match requestStream Scenarios.refused_inputs
          (Examples.authorised, new_stream) with
  | Normal (_, s') | Abrupt _ (_, s') => lines s' = lines new_stream
  end.
Proof.
  apply (X21_refused_stream_reads_nothing Scenarios.refused_inputs).
  - repeat constructor.
  - reflexivity.
Defined.

(** X22.  getEvents never moves the earliest retry time and never
    retries: in any world the earliest retry time at its end is the one it
    started with, and it has made one attempt at most. *)
Theorem X22_getEvents_never_retries (world : list events_turn) :
  forall (now : Z) (st : api),
    earliestRetry (events_final (getEvents world now st)) = earliestRetry st
    /\ (length (events_attempts (getEvents world now st)) <= 1)%nat.
Proof.
  intros now st. split; [|apply getEvents_single_attempt].
  revert now st.
  induction world as [|w world IH]; intros now st; cbn [getEvents];
    [reflexivity|].
  destruct (getAuthorisation st); [|reflexivity].
  pose proof (requestStream_earliestRetry (inputs w) (requestRaw_issue st)
                new_stream) as He.
  destruct (requestStream (inputs w) (requestRaw_issue st, new_stream))
    as [[st' s]|x [st' s]]; [|exact He].
  destruct (result s) as [| |e]; try exact He.
  destruct (stream_retry e); [|exact He].
  cbn [events_final events_attempted]. rewrite IH. exact He.
Qed.

End Streams.

(** *** The table of abort functions *)

Section StreamTableProps.
Import StreamTable.

(** X23.  stopEvents removes the abort function of the appliance, so a
    second call for it does nothing; it leaves the abort functions of the
    other appliances where they are, and touches no stream but the one
    that function stops. *)
Theorem X23_stopEvents_once (haid : jsstring) (t : table) :
  streamAbort (stopEvents haid t) !! haid = None
  /\ stopEvents haid (stopEvents haid t) = stopEvents haid t
  /\ (forall other, other <> haid ->
        streamAbort (stopEvents haid t) !! other = streamAbort t !! other)
  /\ (forall id, streamAbort t !! haid <> Some id ->
        streams (stopEvents haid t) !! id = streams t !! id).
Proof.
  assert (H1 : streamAbort (stopEvents haid t) !! haid = None).
  { unfold stopEvents. destruct (streamAbort t !! haid) eqn:E; [|exact E].
    cbn. apply lookup_delete_eq. }
  split; [exact H1|]. split.
  { unfold stopEvents at 1. rewrite H1. reflexivity. }
  split.
  - intros other Hne. unfold stopEvents.
    destruct (streamAbort t !! haid); [|reflexivity].
    cbn. apply lookup_delete_ne. congruence.
  - intros id Hne. unfold stopEvents.
    destruct (streamAbort t !! haid) as [id'|]; [|reflexivity].
    cbn. apply lookup_alter_ne. congruence.
Qed.

Lemma wf_start (token : jsstring) (t : table) :
  well_formed t -> well_formed (requestStream_start token t).
Proof.
  intros H h id. unfold requestStream_start. cbn.
  destruct (decide (h = token)) as [->|Hne].
  - rewrite lookup_insert_eq. intros E; injection E as <-. lia.
  - rewrite lookup_insert_ne by congruence. intros E. apply H in E. lia.
Qed.

(** A stream no abort function of the table stops stays as it is, whatever
    is stopped. *)
Lemma unreachable_stays (haids : list jsstring) :
  forall (t : table) (id : nat),
    (forall h, streamAbort t !! h <> Some id) ->
    streams (stopEvents_all haids t) !! id = streams t !! id.
Proof.
  unfold stopEvents_all.
  induction haids as [|h haids IH]; intros t id Hun; cbn [fold_left];
    [reflexivity|].
  rewrite IH.
  - unfold stopEvents. destruct (streamAbort t !! h) as [id'|] eqn:E;
      [|reflexivity].
    cbn. apply lookup_alter_ne. intros ->. exact (Hun h E).
  - intros h' Hh'. unfold stopEvents in Hh'.
    destruct (streamAbort t !! h) as [id'|] eqn:E; [|exact (Hun h' Hh')].
    cbn in Hh'. apply lookup_delete_Some in Hh' as [_ Hh']. exact (Hun h' Hh').
Qed.

(** X24.  A second stream started for an appliance takes the place of the
    first in the table: stopEvents for the appliance stops the second, and
    no sequence of calls of stopEvents, for whatever appliances, ever stops
    the first. *)
Theorem X24_second_stream_orphans_first (haid : jsstring) (t : table)
    (haids : list jsstring) (Hwf : well_formed t) :
  let t2 := requestStream_start haid (requestStream_start haid t) in
  streamAbort t2 !! haid = Some (S (started t))
  /\ dom (streamAbort t2) = dom (streamAbort (requestStream_start haid t))
  /\ streams (stopEvents haid t2) !! S (started t) = Some (abort new_stream)
  /\ streams (stopEvents_all haids t2) !! started t = Some new_stream.
Proof.
  intros t2. subst t2. unfold requestStream_start. cbn.
  split; [apply lookup_insert_eq|]. split.
  { rewrite !dom_insert_L. apply set_eq. intros x.
    rewrite !elem_of_union. tauto. }
  split.
  { unfold stopEvents. cbn. rewrite lookup_insert_eq. cbn.
    rewrite lookup_alter_eq, lookup_insert_eq. reflexivity. }
  rewrite unreachable_stays.
  - cbn. rewrite lookup_insert_ne by lia. apply lookup_insert_eq.
  - intros h. cbn. destruct (decide (h = haid)) as [->|Hne].
    + rewrite lookup_insert_eq. intros [= E]. lia.
    + rewrite !lookup_insert_ne by congruence. intros E. apply Hwf in E. lia.
Qed.

(** Two streams for the same appliance, stopped twice. *)
Lemma X24_second_stream_orphans_first_witness :
  streams (stopEvents_all [Examples.id; Examples.id]
             (requestStream_start Examples.id
                (requestStream_start Examples.id no_streams)))
    !! 0%nat
  = Some new_stream.
Proof.
  assert (Hwf : well_formed no_streams).
  { intros h id H. cbn in H. rewrite lookup_empty in H. discriminate H. }
  exact (proj2 (proj2 (proj2 (X24_second_stream_orphans_first
                                Examples.id no_streams
                                [Examples.id; Examples.id] Hwf)))).
Defined.

End StreamTableProps.

(** *** Scheduling the write of the schema file *)

Section Writer.
Import ConfigSchema.

Lemma sound_step (h : happening) (w : writer) : sound w -> sound (step h w).
Proof.
  unfold sound, step, writeSchema, doWrite_start, doWrite_finish,
    doWrite_abandon.
  destruct w as [wp ws d m r n]. cbn.
  destruct h, d as [| |[ps|]], wp as [qs|], ws; cbn; intuition congruence.
Qed.

(** X25.  Along every run of the writer from its start, a timer or a
    write under way has promises to resolve and keeps writeScheduled set,
    and requests are pending only while it is set; so doWrite never finds
    the list of promises missing. *)
Theorem X25_writer_sound (hs : list happening) :
  sound (run hs new_writer)
  /\ (forall w, sound w -> sound (run hs w))
  /\ (forall w, sound w ->
        match doing (run hs w) with
        | Writing None => False
        | _ => True
        end).
Proof.
  assert (H : forall hs w, sound w -> sound (run hs w)).
  { clear hs. unfold run. induction hs as [|h hs IH]; intros w Hw; cbn;
      [exact Hw|]. apply IH, sound_step, Hw. }
  split; [apply H; cbv; auto|]. split; [apply H|].
  intros w Hw. specialize (H hs w Hw). unfold sound in H.
  destruct (doing (run hs w)) as [| |[ps|]]; auto. destruct H as [_ H]. auto.
Qed.

Lemma run_app (hs1 hs2 : list happening) (w : writer) :
  run (hs1 ++ hs2) w = run hs2 (run hs1 w).
Proof. unfold run. apply fold_left_app. Qed.

Lemma run_calls_pending (k : nat) :
  forall w ps, writePending w = Some ps ->
    run (calls k) w
    = {| writePending := Some (ps ++ seq (made w) k);
         writeScheduled := writeScheduled w; doing := doing w;
         made := (made w + k)%nat; resolved := resolved w;
         written := written w |}.
Proof.
  induction k as [|k IH]; intros w ps Hp; cbn [calls].
  - cbn. rewrite app_nil_r, Nat.add_0_r. destruct w; cbn in *. congruence.
  - change (run (Call :: calls k) w) with (run (calls k) (step Call w)).
    cbn [step]. unfold writeSchema. rewrite Hp. cbn [snd].
    rewrite (IH _ (ps ++ [made w])); [|reflexivity]. cbn.
    rewrite <- app_assoc, Nat.add_succ_r. reflexivity.
Qed.

(** X26.  Calls of writeSchema made before the timer fires share one
    write: when the writer is at rest, any number of calls in a row, the
    timer and the end of writeSchemaDeferred make one call of
    writeSchemaDeferred, resolve the promises of all the calls, in the
    order they were made, and leave the writer at rest. *)
Theorem X26_writer_coalesces (k : nat) (w : writer)
    (Hidle : doing w = Idle) (Hfree : writeScheduled w = false)
    (Hnone : writePending w = None) :
  run (calls (S k) ++ [Fire; Done]) w
  = {| writePending := None; writeScheduled := false; doing := Idle;
       made := (made w + S k)%nat;
       resolved := resolved w ++ seq (made w) (S k);
       written := S (written w) |}.
Proof.
  rewrite run_app. cbn [calls].
  change (run (Call :: calls k) w) with (run (calls k) (step Call w)).
  cbn [step]. unfold writeSchema. rewrite Hnone, Hfree. cbn [snd].
  rewrite (run_calls_pending k _ [made w]); [|reflexivity]. cbn.
  rewrite Nat.add_succ_r. reflexivity.
Qed.

(** Three calls to a new writer. *)
Lemma X26_writer_coalesces_witness :
  run (calls 3 ++ [Fire; Done]) new_writer
  = {| writePending := None; writeScheduled := false; doing := Idle;
       made := 3; resolved := [0; 1; 2]%nat; written := 1 |}.
Proof.
  exact (X26_writer_coalesces 2 new_writer eq_refl eq_refl eq_refl).
Defined.

(** X27.  Calls of writeSchema made while a write is under way wait for
    the next one: the end of the write resolves the promises it took over
    only and sets the timer again, and the write that follows resolves
    the promises of the later calls and leaves the writer at rest. *)
Theorem X27_writer_overlap (k : nat) (ps : list nat) (w : writer)
    (Hwriting : doing w = Writing (Some ps))
    (Hscheduled : writeScheduled w = true)
    (Hnone : writePending w = None) :
  let w1 := run (calls (S k) ++ [Done]) w in
  resolved w1 = resolved w ++ ps
  /\ doing w1 = TimerSet
  /\ resolved (run [Fire; Done] w1)
     = resolved w ++ ps ++ seq (made w) (S k)
  /\ written (run [Fire; Done] w1) = S (S (written w))
  /\ doing (run [Fire; Done] w1) = Idle
  /\ writeScheduled (run [Fire; Done] w1) = false.
Proof.
  intros w1. subst w1. rewrite run_app. cbn [calls].
  change (run (Call :: calls k) w) with (run (calls k) (step Call w)).
  cbn [step]. unfold writeSchema. rewrite Hnone. cbn [snd].
  rewrite (run_calls_pending k _ [made w]); [|reflexivity].
  cbn. rewrite Hwriting, Hscheduled. cbn.
  rewrite <- ?app_assoc. repeat split.
Qed.

(** Two calls during the write of one request. *)
Lemma X27_writer_overlap_witness :
  resolved (run (calls 2 ++ [Done]) Scenarios.writing) = [0%nat]
  /\ resolved (run [Fire; Done] (run (calls 2 ++ [Done]) Scenarios.writing))
     = [0; 1; 2]%nat.
Proof.
  pose proof (X27_writer_overlap 1 [0%nat] Scenarios.writing
                eq_refl eq_refl eq_refl) as H.
  split; [exact (proj1 H)|exact (proj1 (proj2 (proj2 H)))].
Defined.

Lemma stuck_step (h : happening) (w : writer) :
  stuck w ->
  stuck (step h w) /\ resolved (step h w) = resolved w
  /\ written (step h w) = written w.
Proof.
  unfold stuck, step, writeSchema. destruct w as [wp ws d m r n]. cbn.
  intros [-> ->]. destruct h, wp; cbn; auto.
Qed.

(** X28.  When writeSchemaDeferred throws, doWrite ends there: the
    promises it took over are never resolved or rejected, and as
    writeScheduled stays set no later call of writeSchema sets a timer,
    so whatever happens afterwards nothing is written and no promise is
    resolved any more. *)
Theorem X28_writer_stuck_after_failure (hs : list happening) (w : writer)
    (ps : option (list nat)) (Hwriting : doing w = Writing ps)
    (Hscheduled : writeScheduled w = true) :
  resolved (run (Fail :: hs) w) = resolved w
  /\ written (run (Fail :: hs) w) = written w
  /\ doing (run (Fail :: hs) w) = Idle.
Proof.
  assert (H : forall hs w, stuck w ->
            stuck (run hs w) /\ resolved (run hs w) = resolved w
            /\ written (run hs w) = written w).
  { clear. unfold run. induction hs as [|h hs IH]; intros w Hw; cbn; [auto|].
    destruct (stuck_step h w Hw) as (Hs & Hr & Hn).
    destruct (IH _ Hs) as (Hs' & Hr' & Hn'). repeat split; try apply Hs';
      congruence. }
  change (run (Fail :: hs) w) with (run hs (step Fail w)).
  assert (Hs : stuck (step Fail w)).
  { unfold stuck, step. rewrite Hwriting. cbn. auto. }
  destruct (H hs _ Hs) as ([Hd _] & Hr & Hn).
  rewrite Hr, Hn, Hd. unfold step. rewrite Hwriting. cbn. auto.
Qed.

(** The write failing, then a call and what would have been its write. *)
Lemma X28_writer_stuck_after_failure_witness :
  resolved (run [Fail; Call; Fire; Done] Scenarios.writing) = []
  /\ written (run [Fail; Call; Fire; Done] Scenarios.writing) = 0%nat
  /\ doing (run [Fail; Call; Fire; Done] Scenarios.writing) = Idle.
Proof.
  exact (X28_writer_stuck_after_failure [Call; Fire; Done] Scenarios.writing
           (Some [0%nat]) eq_refl eq_refl).
Defined.

End Writer.

(** *** The operations on appliances *)

Section Operations.
Import Facade.

(** An operation whose request is answered at once. *)
Lemma perform_resolved (op : operation) (w : turn) (world : list turn)
    (now : Z) (st : api) (body token : value) :
  getAuthorisation st = inl token ->
  reply w = Resolves body ->
  perform op (w :: world) now st
  = (match pick (op_picks op) (data_of body) with
     | inl v => Answered v
     | inr t => Failed_thrown t
     end, requestRaw_issue st).
Proof.
  intros Hauth Hreply. unfold perform, requestAppliances.
  cbn [requestAppliances_loop]. rewrite Hauth. unfold requestRaw.
  rewrite Hreply. reflexivity.
Qed.

(** X29.  When the server answers a request with success and no data (no
    body, or a body without a data member), getAppliances returns that
    empty value and so does every operation that returns the data as it
    is, while the seven operations that return a member of the data
    (getPrograms, getAvailablePrograms, getActiveProgramOptions,
    getSelectedProgramOptions, getStatus, getSettings, getCommands) end
    with a TypeError. *)
Theorem X29_operations_without_data (w : turn) (world : list turn) (now : Z)
    (st : api) (body token : value)
    (Hauth : getAuthorisation st = inl token)
    (Hreply : reply w = Resolves body)
    (Hnone : nullish (data_of body) = true) :
  fst (perform getAppliances (w :: world) now st) = Answered (data_of body)
  /\ (forall haid : jsstring,
        Forall (fun op => fst (perform op (w :: world) now st)
                          = Failed_thrown TypeError)
               (listings haid))
  /\ (forall op : operation,
        op_picks op = Whole ->
        fst (perform op (w :: world) now st) = Answered (data_of body)).
Proof.
  split; [|split].
  - rewrite (perform_resolved _ _ _ _ _ _ _ Hauth Hreply). cbn.
    destruct (data_of body); try discriminate Hnone; reflexivity.
  - intros haid. unfold listings.
    repeat constructor; rewrite (perform_resolved _ _ _ _ _ _ _ Hauth Hreply);
      cbn; rewrite Hnone; reflexivity.
  - intros op Hop. rewrite (perform_resolved _ _ _ _ _ _ _ Hauth Hreply), Hop.
    reflexivity.
Qed.

(** The authorised client, answered with success and no body. *)
Lemma X29_operations_without_data_witness :
  fst (perform getAppliances [Scenarios.empty_turn] 0 Examples.authorised)
  = Answered Undefined
  /\ fst (perform (getPrograms Examples.id) [Scenarios.empty_turn] 0
            Examples.authorised)
     = Failed_thrown TypeError.
Proof.
  pose proof (X29_operations_without_data Scenarios.empty_turn [] 0
                Examples.authorised Undefined (Str (lit "A"))
                eq_refl eq_refl eq_refl) as H.
  split; [exact (proj1 H)|].
  exact (Forall_inv (proj1 (proj2 H) Examples.id)).
Defined.

End Operations.
